(** * mcp-wordpress: configuration discovery and query routing

    A shallow embedding of the decision logic of the extension:
    - [findWordPressConfig] (utils/wp-config-finder), the upward search for
      [wp-config.php];
    - [extractConfigValue] / [parseWordPressConfig] (utils/wp-config-parser);
    - [WordPressManager] (mcp/wordpress-manager): configuration cache,
      connection handle, option readers;
    - [wordpressRequestHandler] with its intent dispatch and handlers, the
      legacy command and the completion provider (mcp/mcp-provider);
    - [executeNaturalLanguageQuery] and the query command (extension.ts).

    JavaScript strings are modelled as lists of code units restricted to the
    range 0..255 ([ascii]); the case mappings and the white-space class below
    are the ECMAScript ones on that range.  Regular expressions are embedded
    as syntax trees run by a backtracking matcher with the priorities of the
    ECMAScript matcher (greedy quantifiers, leftmost start position); a
    declarative reading of the same syntax is given next to it and the
    matcher is proved sound and complete for it.  Paths are normalised
    absolute POSIX paths, as the editor hands them over.  The file system,
    the workspace folders and the database server are explicit components
    of the state the manager's methods run in.  Each method is first given
    as a call that runs to its end with no other call in between; the
    methods of the manager and the query command are then given again with
    their awaits, as calls in progress that an event loop interleaves, and
    the two descriptions are proved to agree on calls that do not overlap. *)

From Stdlib Require Import Ascii String DecimalString List Arith Lia Bool NArith.
From Equations Require Import Equations.
Import ListNotations.

Set Implicit Arguments.

(** ** Strings *)

Definition str := list ascii.

Definition js (s : string) : str := list_ascii_of_string s.

Definition code (a : ascii) : N := N_of_ascii a.

Definition between (lo hi : N) (a : ascii) : bool :=
  (N.leb lo (code a) && N.leb (code a) hi)%bool.

Definition shift_code (a : ascii) (f : N -> N) : ascii := ascii_of_N (f (code a)).

(** [\s] and [String.prototype.trim]: WhiteSpace and LineTerminator code
    points below 256 (TAB, LF, VT, FF, CR, SP, NBSP). *)
Definition is_space (a : ascii) : bool :=
  (between 9 13 a || N.eqb (code a) 32 || N.eqb (code a) 160)%bool.

(** [\d] *)
Definition is_digit (a : ascii) : bool := between 48 57 a.

(** One code unit of [String.prototype.toLowerCase]. *)
Definition lower_char (a : ascii) : ascii :=
  if (between 65 90 a || between 192 214 a || between 216 222 a)%bool
  then shift_code a (fun n => n + 32)%N else a.

Definition toLowerCase (s : str) : str := map lower_char s.

(** [Canonicalize] of the ECMAScript matcher under the [i] flag (no [u]
    flag): the upper-case mapping of a single code unit; the results for
    U+00B5 and U+00FF leave the 8-bit range, whence the codomain [N]. *)
Definition canonicalize (a : ascii) : N :=
  if (between 97 122 a || between 224 246 a || between 248 254 a)%bool
  then (code a - 32)%N
  else if N.eqb (code a) 181 then 924%N
  else if N.eqb (code a) 255 then 376%N
  else code a.

Definition ascii_eqb (a b : ascii) : bool := N.eqb (code a) (code b).

Fixpoint str_eqb (s t : str) : bool :=
  match s, t with
  | [], [] => true
  | a :: s', b :: t' => (ascii_eqb a b && str_eqb s' t')%bool
  | _, _ => false
  end.

Fixpoint starts_with (p s : str) : bool :=
  match p, s with
  | [], _ => true
  | a :: p', b :: s' => (ascii_eqb a b && starts_with p' s')%bool
  | _ :: _, [] => false
  end.

(** [String.prototype.includes] *)
Fixpoint includes (s sub : str) : bool :=
  (starts_with sub s ||
   match s with
   | [] => false
   | _ :: s' => includes s' sub
   end)%bool.

Fixpoint drop_spaces (s : str) : str :=
  match s with
  | a :: s' => if is_space a then drop_spaces s' else s
  | [] => []
  end.

(** [String.prototype.trim] *)
Definition trim (s : str) : str := rev (drop_spaces (rev (drop_spaces s))).

(** [String.prototype.split] with a one-character separator. *)
Fixpoint split (sep : ascii) (s : str) : list str :=
  match s with
  | [] => [[]]
  | a :: s' =>
      if ascii_eqb a sep then [] :: split sep s'
      else match split sep s' with
           | seg :: segs => (a :: seg) :: segs
           | [] => [[a]]
           end
  end.

Fixpoint join (sep : ascii) (l : list str) : str :=
  match l with
  | [] => []
  | [s] => s
  | s :: l' => s ++ sep :: join sep l'
  end.

(** JavaScript truthiness of a string. *)
Definition truthy (s : str) : bool :=
  match s with [] => false | _ :: _ => true end.

(** [a || b] on strings. *)
Definition or_else (a b : str) : str := if truthy a then a else b.

(** ** Regular expressions *)

Module RegExp.

(** The fragment used by the extension: atoms test one code unit;
    quantifiers are greedy and apply to atoms only. *)
Inductive regex : Type :=
| Eps
| Chr (p : ascii -> bool)
| Seq (r1 r2 : regex)
| Opt (p : ascii -> bool)
| Rep (min : nat) (p : ascii -> bool)
| Grp (n : nat) (r : regex).

Definition captures := list (nat * str).

Fixpoint capture (n : nat) (c : captures) : option str :=
  match c with
  | [] => None
  | (m, s) :: c' => if Nat.eqb n m then Some s else capture n c'
  end.

(** A successful match: the input left after the match and the groups. *)
Definition outcome := (str * captures)%type.
Definition cont := str -> captures -> option outcome.

(** [p{min,}], greedy: take one more code unit first, give it back when the
    rest of the pattern fails. *)
Fixpoint rep (p : ascii -> bool) (min : nat) (k : cont) (s : str) (c : captures)
  : option outcome :=
  match s with
  | a :: s' =>
      if p a then
        match rep p (pred min) k s' c with
        | Some o => Some o
        | None => match min with 0 => k s c | S _ => None end
        end
      else match min with 0 => k s c | S _ => None end
  | [] => match min with 0 => k s c | S _ => None end
  end.

(** The text consumed between input [s] and its suffix [s']. *)
Definition consumed (s s' : str) : str := firstn (length s - length s') s.

Fixpoint run (r : regex) (k : cont) (s : str) (c : captures) : option outcome :=
  match r with
  | Eps => k s c
  | Chr p =>
      match s with
      | a :: s' => if p a then k s' c else None
      | [] => None
      end
  | Seq r1 r2 => run r1 (run r2 k) s c
  | Opt p =>
      match s with
      | a :: s' =>
          if p a then
            match k s' c with
            | Some o => Some o
            | None => k s c
            end
          else k s c
      | [] => k s c
      end
  | Rep min p => rep p min k s c
  | Grp n r' => run r' (fun s' c' => k s' ((n, consumed s s') :: c')) s c
  end.

Definition accept : cont := fun s c => Some (s, c).

(** A match anchored at the head of [s]. *)
Definition match_here (r : regex) (s : str) : option outcome := run r accept s [].

(** The result of [RegExp.prototype.exec] on a non-global expression. *)
Record match_result := MatchResult {
  m_text : str;        (* element 0: the matched text *)
  m_groups : captures; (* elements 1.. *)
  m_after : str        (* input after the match *)
}.

(** [s.match(r)] for a non-global [r]: the leftmost match. *)
Fixpoint exec (r : regex) (s : str) : option match_result :=
  match match_here r s with
  | Some (s', c) => Some (MatchResult (consumed s s') c s')
  | None =>
      match s with
      | [] => None
      | _ :: s' => exec r s'
      end
  end.

(** Element [n] of the match array ([n >= 1]). *)
Definition group (n : nat) (m : match_result) : str :=
  match capture n (m_groups m) with Some s => s | None => [] end.

(** [s.match(r)] for a global [r]: the texts of all successive matches, the
    search resuming where the previous match ended (one code unit further
    after an empty match). [None] stands for [null] (no match at all). *)
Fixpoint match_all_fuel (fuel : nat) (r : regex) (s : str) : list str :=
  match fuel with
  | 0 => []
  | S fuel' =>
      match exec r s with
      | None => []
      | Some m =>
          m_text m ::
          match m_text m, m_after m with
          | [], [] => []
          | [], _ :: rest => match_all_fuel fuel' r rest
          | _ :: _, rest => match_all_fuel fuel' r rest
          end
      end
  end.

Definition match_all (r : regex) (s : str) : option (list str) :=
  match match_all_fuel (S (length s)) r s with
  | [] => None
  | l => Some l
  end.

(** Atoms. [ci] is the [i] flag. *)
Definition same_char (ci : bool) (a b : ascii) : bool :=
  if ci then N.eqb (canonicalize a) (canonicalize b) else ascii_eqb a b.

Definition one_of (ci : bool) (set : str) (b : ascii) : bool :=
  existsb (fun a => same_char ci a b) set.

Definition none_of (ci : bool) (set : str) (b : ascii) : bool :=
  negb (one_of ci set b).

(** A literal pattern text. *)
Fixpoint lit (ci : bool) (s : str) : regex :=
  match s with
  | [] => Eps
  | a :: s' => Seq (Chr (same_char ci a)) (lit ci s')
  end.

Fixpoint sequence (l : list regex) : regex :=
  match l with
  | [] => Eps
  | r :: l' => Seq r (sequence l')
  end.

(** Declarative reading of the fragment: [matches r s s' c c'] when [r] can
    consume the text between [s] and [s'], extending the groups [c] to [c']. *)
Inductive matches : regex -> str -> str -> captures -> captures -> Prop :=
| M_eps s c : matches Eps s s c c
| M_chr p a s c : p a = true -> matches (Chr p) (a :: s) s c c
| M_seq r1 r2 s s1 s2 c c1 c2 :
    matches r1 s s1 c c1 -> matches r2 s1 s2 c1 c2 ->
    matches (Seq r1 r2) s s2 c c2
| M_opt_take p a s c : p a = true -> matches (Opt p) (a :: s) s c c
| M_opt_skip p s c : matches (Opt p) s s c c
| M_rep p min w s c :
    forallb p w = true -> min <= length w ->
    matches (Rep min p) (w ++ s) s c c
| M_grp n r s s' c c' :
    matches r s s' c c' ->
    matches (Grp n r) s s' c ((n, consumed s s') :: c').

End RegExp.

Import RegExp.

(** ** The patterns of the sources *)

Definition dquote : ascii := "034"%char.
Definition squote : ascii := "039"%char.
Definition percent : ascii := "%"%char.
Definition quotes : str := [squote; dquote].

(** A pattern character that stands for itself. *)
Definition chr (ci : bool) (a : ascii) : regex := Chr (same_char ci a).

(** [\s*], [\s+], [\d+] *)
Definition spaces0 : regex := Rep 0 is_space.
Definition spaces1 : regex := Rep 1 is_space.
Definition digits1 : regex := Rep 1 is_digit.

(** In the comments below Q stands for the class of the two quote characters
    (single and double) and NQ for its complement.

    wp-config-parser, flag i:
      define \s* \( \s* Q ${key} Q \s* , \s* Q (NQ+) Q \s* \)
    The keys passed by [parseWordPressConfig] hold letters and underscores
    only, so the interpolated text is a literal of the pattern. *)
Definition define_regex (key : str) : regex :=
  sequence [ lit true (js "define"); spaces0; chr true "("%char; spaces0;
        Chr (one_of true quotes); lit true key; Chr (one_of true quotes);
        spaces0; chr true ","%char; spaces0;
        Chr (one_of true [dquote; squote]);
        Grp 1 (Rep 1 (none_of true [dquote; squote]));
        Chr (one_of true [dquote; squote]);
        spaces0; chr true ")"%char ].

(** wp-config-parser, flag i:  \$table_prefix \s* = \s* Q (NQ+) Q *)
Definition tablePrefixRegex : regex :=
  sequence [ lit true (js "$table_prefix"); spaces0; chr true "="%char; spaces0;
        Chr (one_of true quotes);
        Grp 1 (Rep 1 (none_of true quotes));
        Chr (one_of true quotes) ].

(** extension.ts, flag i:  like \s+ (Q?) %? ([^%Q]+) %? (Q?) *)
Definition like_regex : regex :=
  sequence [ lit true (js "like"); spaces1;
        Grp 1 (Opt (one_of true quotes));
        Opt (same_char true percent);
        Grp 2 (Rep 1 (none_of true (percent :: quotes)));
        Opt (same_char true percent);
        Grp 3 (Opt (one_of true quotes)) ].

(** wordpress-manager, flag g, with D the double quote:  s: (\d+) : D ([^D]+) D *)
Definition cpt_regex_g : regex :=
  sequence [ lit false (js "s:"); Grp 1 digits1; lit false [":"%char; dquote];
        Grp 2 (Rep 1 (none_of false [dquote])); chr false dquote ].

(** wordpress-manager, no flag:  s: \d+ : D ([^D]+) D *)
Definition cpt_regex : regex :=
  sequence [ lit false (js "s:"); digits1; lit false [":"%char; dquote];
        Grp 1 (Rep 1 (none_of false [dquote])); chr false dquote ].

(** ** Paths and the file system *)

(** A normalised absolute POSIX path: the names below the root [/], outermost
    first. The root directory is [[]]. *)
Definition path := list str.

Definition path_eqb (p q : path) : bool :=
  (Nat.eqb (length p) (length q) && forallb (fun x => str_eqb (fst x) (snd x)) (combine p q))%bool.

(** [path.parse(p).root] *)
Definition root_of (p : path) : path := [].

(** [path.dirname]; the root is its own parent. *)
Definition dirname (p : path) : path := removelast p.

(** [path.join(p, name)] for a single name. *)
Definition path_join (p : path) (name : str) : path := p ++ [name].

Inductive node : Type :=
| File (content : str)
| Directory.

Definition filesystem := path -> option node.

(** [fs.exists] *)
Definition existsAsync (fs : filesystem) (p : path) : bool :=
  match fs p with Some _ => true | None => false end.

(** [fs.readFile(p, 'utf8')]; [None] when the call rejects. *)
Definition readFileAsync (fs : filesystem) (p : path) : option str :=
  match fs p with Some (File c) => Some c | _ => None end.

Definition wp_config_php : str := js "wp-config.php".

(** ** wp-config-finder *)

(** [findWordPressConfig(startPath)]; the second component lists the
    directories examined (one [existsAsync] call each), in order. *)
Equations? findWordPressConfig_loop (fs : filesystem) (currentPath : path)
  : option path * list path by wf (length currentPath) lt :=
  findWordPressConfig_loop fs [] := (None, []);
  findWordPressConfig_loop fs (d :: ds)
    with existsAsync fs (path_join (d :: ds) wp_config_php) := {
    | true := (Some (path_join (d :: ds) wp_config_php), [d :: ds]);
    | false with path_eqb (dirname (d :: ds)) (d :: ds) := {
      | true := (None, [d :: ds]);
      | false :=
          let r := findWordPressConfig_loop fs (dirname (d :: ds)) in
          (fst r, (d :: ds) :: snd r) } }.
Proof.
  unfold dirname. clear.
  revert d. induction ds as [|e ds IH]; intros d; simpl; [lia|].
  specialize (IH e). simpl in IH. lia.
Qed.

Definition findWordPressConfig (fs : filesystem) (startPath : path) : option path :=
  fst (findWordPressConfig_loop fs startPath).

Definition examined (fs : filesystem) (startPath : path) : list path :=
  snd (findWordPressConfig_loop fs startPath).

(** Whether directory [p] holds a [wp-config.php]. *)
Definition marker_at (fs : filesystem) (p : path) : bool :=
  existsAsync fs (path_join p wp_config_php).

(** The ancestor [d] levels above [p]. *)
Fixpoint ancestor (d : nat) (p : path) : path :=
  match d with
  | 0 => p
  | S d' => ancestor d' (dirname p)
  end.

(** ** wp-config-parser *)

Record WordPressConfig := {
  configPath : path;
  dbHost : str;
  dbName : str;
  dbUser : str;
  dbPassword : str;
  tablePrefix : str;
  wpPath : path
}.

(** [m && m[1] ? m[1] : dflt] *)
Definition group1_or (m : option match_result) (dflt : str) : str :=
  match m with
  | Some r => if truthy (group 1 r) then group 1 r else dflt
  | None => dflt
  end.

Definition extractConfigValue (content key : str) : str :=
  let doubleQuotesMatch := exec (define_regex key) content in
  match doubleQuotesMatch with
  | Some r =>
      if truthy (group 1 r) then group 1 r
      else if str_eqb key (js "table_prefix")
           then group1_or (exec tablePrefixRegex content) (js "wp_")
           else []
  | None =>
      if str_eqb key (js "table_prefix")
      then group1_or (exec tablePrefixRegex content) (js "wp_")
      else []
  end.

(** The body of [parseWordPressConfig] once the file has been read. *)
Definition parseConfigContent (configContent : str) (cfgPath : path) : WordPressConfig :=
  {| configPath := cfgPath;
     dbHost := or_else (extractConfigValue configContent (js "DB_HOST")) (js "localhost");
     dbName := extractConfigValue configContent (js "DB_NAME");
     dbUser := extractConfigValue configContent (js "DB_USER");
     dbPassword := extractConfigValue configContent (js "DB_PASSWORD");
     tablePrefix := or_else (extractConfigValue configContent (js "table_prefix")) (js "wp_");
     wpPath := dirname cfgPath |}.

(** [parseWordPressConfig(configPath)]; [None] when reading the file rejects. *)
Definition parseWordPressConfig (fs : filesystem) (cfgPath : path) : option WordPressConfig :=
  match readFileAsync fs cfgPath with
  | Some configContent => Some (parseConfigContent configContent cfgPath)
  | None => None
  end.

(** ** The database collaborator *)

Definition str_eq_dec : forall s t : str, {s = t} + {s <> t} :=
  list_eq_dec ascii_dec.

Record option_row := {
  option_id : str;
  option_name : str;
  option_value : str
}.

(** A WordPress database: its table prefix, the options table, the
    [post_type] column of the posts table, and the server's [LIKE]
    predicate (pattern, then subject). Comparisons use a binary collation. *)
Record database := {
  db_prefix : str;
  db_options : list option_row;
  db_posts : list str;
  db_like : str -> str -> bool
}.

(** The statements the extension sends, with their variable parts. *)
Inductive sql : Type :=
| SelectOptionValue (table name : str)
    (* SELECT option_value FROM table WHERE option_name = 'name' *)
| SelectDistinctPostTypes (table : str) (excluded : list str) (limit : nat)
    (* SELECT DISTINCT post_type FROM table
       WHERE post_type NOT IN (excluded) LIMIT limit *)
| SelectOptionsLike (table pattern : str) (limit : nat).
    (* SELECT option_id, option_name, option_value FROM table
       WHERE option_name LIKE ? LIMIT limit      with [pattern] bound to ? *)

Definition row := list (str * str).

Fixpoint field (name : str) (r : row) : str :=
  match r with
  | [] => []
  | (n, v) :: r' => if str_eqb n name then v else field name r'
  end.

Definition mem_str (s : str) (l : list str) : bool := existsb (str_eqb s) l.

(** [connection.query(sql, params)]; [None] when the server reports an error
    (here: the table does not exist). *)
Definition run_sql (db : database) (q : sql) : option (list row) :=
  match q with
  | SelectOptionValue table name =>
      if str_eqb table (db_prefix db ++ js "options") then
        Some (map (fun o => [(js "option_value", option_value o)])
                  (filter (fun o => str_eqb (option_name o) name) (db_options db)))
      else None
  | SelectDistinctPostTypes table excluded limit =>
      if str_eqb table (db_prefix db ++ js "posts") then
        Some (map (fun t => [(js "post_type", t)])
                  (firstn limit
                     (nodup str_eq_dec
                        (filter (fun t => negb (mem_str t excluded)) (db_posts db)))))
      else None
  | SelectOptionsLike table pattern limit =>
      if str_eqb table (db_prefix db ++ js "options") then
        Some (map (fun o => [(js "option_id", option_id o);
                             (js "option_name", option_name o);
                             (js "option_value", option_value o)])
                  (firstn limit
                     (filter (fun o => db_like db pattern (option_name o)) (db_options db))))
      else None
  end.

(** ** WordPressManager *)

Record credentials := {
  cred_host : str;
  cred_user : str;
  cred_password : str;
  cred_database : str
}.

Record Connection := {
  conn_id : nat;
  conn_db : database
}.

(** What the manager's methods observe and change outside the object: the
    file system, the editor's workspace folders, the database server
    ([None]: [mysql.createConnection] rejects), and the connection handles
    this process holds open. *)
Record World := {
  fs : filesystem;
  workspaceFolders : list path;
  server : credentials -> option database;
  open_handles : list nat;
  next_handle : nat
}.

Record WordPressManager := {
  config : option WordPressConfig;
  connection : option Connection
}.

Definition state := (WordPressManager * World)%type.

Definition M (A : Type) : Type := state -> A * state.

Definition ret {A} (a : A) : M A := fun st => (a, st).

Definition bind {A B} (c : M A) (k : A -> M B) : M B :=
  fun st => let (a, st') := c st in k a st'.

Notation "x <- c ;; k" := (bind c (fun x => k))
  (at level 61, c at next level, right associativity).

Definition get_config : M (option WordPressConfig) := fun st => (config (fst st), st).
Definition get_connection : M (option Connection) := fun st => (connection (fst st), st).
Definition get_world : M World := fun st => (snd st, st).

Definition set_config (c : WordPressConfig) : M unit :=
  fun st => (tt, ({| config := Some c; connection := connection (fst st) |}, snd st)).

Definition set_connection (c : option Connection) : M unit :=
  fun st => (tt, ({| config := config (fst st); connection := c |}, snd st)).

(** [mysql.createConnection] on success: a fresh open handle. *)
Definition open_handle (db : database) : M Connection :=
  fun st =>
    let w := snd st in
    ({| conn_id := next_handle w; conn_db := db |},
     (fst st, {| fs := fs w; workspaceFolders := workspaceFolders w; server := server w;
                 open_handles := next_handle w :: open_handles w;
                 next_handle := S (next_handle w) |})).

(** [connection.end()] *)
Definition close_handle (c : Connection) : M unit :=
  fun st =>
    let w := snd st in
    (tt, (fst st, {| fs := fs w; workspaceFolders := workspaceFolders w; server := server w;
                     open_handles := remove Nat.eq_dec (conn_id c) (open_handles w);
                     next_handle := next_handle w |})).

Definition isConnected (m : WordPressManager) : bool :=
  match connection m with Some _ => true | None => false end.

Definition getTablePrefix (m : WordPressManager) : option str :=
  match config m with Some c => Some (tablePrefix c) | None => None end.

(** [WordPressManager.findWordPressConfig]; a rejected file read is caught
    and answered with [null]. *)
Definition manager_findWordPressConfig : M (option WordPressConfig) :=
  w <- get_world ;;
  match workspaceFolders w with
  | [] => ret None
  | workspacePath :: _ =>
      match findWordPressConfig (fs w) workspacePath with
      | None => ret None
      | Some cfgPath =>
          match parseWordPressConfig (fs w) cfgPath with
          | Some c => _ <- set_config c ;; ret (Some c)
          | None => ret None
          end
      end
  end.

(** Shared prologue of the readers: load the configuration when missing. *)
Definition ensure_config : M (option WordPressConfig) :=
  c <- get_config ;;
  match c with
  | Some _ => ret c
  | None => _ <- manager_findWordPressConfig ;; get_config
  end.

Definition connectToDatabase : M bool :=
  c <- ensure_config ;;
  match c with
  | None => ret false
  | Some cfg =>
      w <- get_world ;;
      match server w {| cred_host := dbHost cfg; cred_user := dbUser cfg;
                        cred_password := dbPassword cfg; cred_database := dbName cfg |} with
      | Some db =>
          h <- open_handle db ;;
          _ <- set_connection (Some h) ;;
          ret true
      | None => ret false
      end
  end.

Inductive error : Type :=
| TablePrefixUnknown       (* Unable to determine WordPress table prefix *)
| UnrecognizedQuery        (* Could not understand the query. ... *)
| ConnectionNotEstablished (* Database connection is not established *)
| QueryFailed.             (* the driver's error, rethrown *)

Definition query (q : sql) : M (error + list row) :=
  c0 <- get_connection ;;
  connected <- match c0 with
               | Some _ => ret true
               | None => connectToDatabase
               end ;;
  if negb connected then ret (inl ConnectionNotEstablished)
  else
    c <- get_connection ;;
    match c with
    | Some h =>
        match run_sql (conn_db h) q with
        | Some rows => ret (inr rows)
        | None => ret (inl QueryFailed)
        end
    | None => ret (inl ConnectionNotEstablished)
    end.

Definition getWordPressVersion : M (option str) :=
  c <- ensure_config ;;
  match c with
  | None => ret None
  | Some cfg =>
      r <- query (SelectOptionValue (tablePrefix cfg ++ js "options") (js "version")) ;;
      match r with
      | inr (r0 :: _) => ret (Some (field (js "option_value") r0))
      | _ => ret None
      end
  end.

(** [serializedPlugins.split(';').filter(p => p.trim().length > 0)] *)
Definition split_plugins (serializedPlugins : str) : list str :=
  filter (fun p => Nat.ltb 0 (length (trim p))) (split ";"%char serializedPlugins).

Definition getActivePlugins : M (list str) :=
  c <- ensure_config ;;
  match c with
  | None => ret []
  | Some cfg =>
      r <- query (SelectOptionValue (tablePrefix cfg ++ js "options") (js "active_plugins")) ;;
      match r with
      | inr (r0 :: _) => ret (split_plugins (field (js "option_value") r0))
      | _ => ret []
      end
  end.

(** [cptMatches.map(...).filter(name => name !== null)] *)
Definition cpt_names (cptMatches : list str) : list str :=
  flat_map (fun mt => match exec cpt_regex mt with
                      | Some nameMatch => [group 1 nameMatch]
                      | None => []
                      end) cptMatches.

Definition builtin_post_types : list str :=
  [js "post"; js "page"; js "attachment"; js "revision"; js "nav_menu_item"].

Definition posts_fallback (cfg : WordPressConfig) : M (list str) :=
  r <- query (SelectDistinctPostTypes (tablePrefix cfg ++ js "posts") builtin_post_types 20) ;;
  match r with
  | inr postTypeRows => ret (map (field (js "post_type")) postTypeRows)
  | inl _ => ret []
  end.

Definition getCustomPostTypes : M (list str) :=
  c <- ensure_config ;;
  match c with
  | None => ret []
  | Some cfg =>
      r <- query (SelectOptionValue (tablePrefix cfg ++ js "options") (js "cptui_post_types")) ;;
      match r with
      | inl _ => ret []
      | inr [] => posts_fallback cfg
      | inr (r0 :: _) =>
          match match_all cpt_regex_g (field (js "option_value") r0) with
          | Some cptMatches => ret (cpt_names cptMatches)
          | None => posts_fallback cfg
          end
      end
  end.

Definition disconnect : M unit :=
  c <- get_connection ;;
  match c with
  | Some h => _ <- close_handle h ;; set_connection None
  | None => ret tt
  end.

(** ** mcp-provider: the intent dispatch of the chat handler *)

Inductive Intent : Type :=
| database_info | theme_info | plugin_info | custom_post_types | general_info.

(** The branch [wordpressRequestHandler] takes for a prompt; the handler of
    each branch answers with the response type of the same name. *)
Definition classify (prompt : str) : Intent :=
  let query := toLowerCase prompt in
  if (includes query (js "database") || includes query (js "db") ||
      includes query (js "username") || includes query (js "wp-config"))%bool
  then database_info
  else if includes query (js "theme") then theme_info
  else if includes query (js "plugin") then plugin_info
  else if (includes query (js "post type") || includes query (js "cpt"))%bool
  then custom_post_types
  else general_info.

(** ** extension.ts: the natural-language query command *)

(** [patternMatch ? patternMatch[2] : ''] *)
Definition like_pattern (query : str) : str :=
  match exec like_regex query with
  | Some patternMatch => group 2 patternMatch
  | None => []
  end.

(** [executeNaturalLanguageQuery] up to its call of [wpManager.query]: the
    statement to send, or the error thrown. *)
Definition translate (prefix : option str) (query : str) : error + sql :=
  match prefix with
  | None => inl TablePrefixUnknown
  | Some pre =>
      if negb (truthy pre) then inl TablePrefixUnknown
      else
        let lowerQuery := toLowerCase query in
        if (includes lowerQuery (js "option") && includes lowerQuery (js "like"))%bool
        then
          let pattern := like_pattern query in
          if truthy pattern
          then inr (SelectOptionsLike (pre ++ js "options")
                      (percent :: pattern ++ [percent]) 50)
          else inl UnrecognizedQuery
        else inl UnrecognizedQuery
  end.

Definition executeNaturalLanguageQuery (input : str) : M (error + list row) :=
  fun st =>
    match translate (getTablePrefix (fst st)) input with
    | inl e => (inl e, st)
    | inr q => query q st
    end.

(** ** Sequences of manager operations *)

(** The calls a client can make on a manager, and a change of the
    environment. [getActiveTheme] touches the connection through [query]
    only and is an [OpQuery] here. *)
Inductive op : Type :=
| OpFindConfig
| OpConnect
| OpQuery (q : sql)
| OpVersion
| OpPlugins
| OpPostTypes
| OpNaturalLanguage (input : str)
| OpDisconnect
| OpEnvironment (f : filesystem) (ws : list path) (srv : credentials -> option database).

Definition discard {A} (c : M A) : state -> state := fun st => snd (c st).

(** A call that runs to its end with no other call in between. *)
Definition step (o : op) (st : state) : state :=
  match o with
  | OpFindConfig => discard manager_findWordPressConfig st
  | OpConnect => discard connectToDatabase st
  | OpQuery q => discard (query q) st
  | OpVersion => discard getWordPressVersion st
  | OpPlugins => discard getActivePlugins st
  | OpPostTypes => discard getCustomPostTypes st
  | OpNaturalLanguage input => discard (executeNaturalLanguageQuery input) st
  | OpDisconnect => discard disconnect st
  | OpEnvironment f ws srv =>
      (fst st, {| fs := f; workspaceFolders := ws; server := srv;
                  open_handles := open_handles (snd st);
                  next_handle := next_handle (snd st) |})
  end.

(** Calls made one after another: each has run to its end before the next
    starts. Calls in progress at the same time are the matter of
    [run_events] below, of which [run_ops] is the case [serially]. *)
Fixpoint run_ops (ops : list op) (st : state) : state :=
  match ops with
  | [] => st
  | o :: ops' => run_ops ops' (step o st)
  end.

(** The handle the manager remembers, as a list. *)
Definition held (m : WordPressManager) : list nat :=
  match connection m with Some h => [conn_id h] | None => [] end.

(** ** Vocabulary of the statements *)

(** [kw] occurs in [s] up to letter case: some part of [s] lower-cases to [kw]. *)
Definition mentions (s kw : str) : Prop :=
  exists pre mid post, s = pre ++ mid ++ post /\ toLowerCase mid = kw.

(** A string consisting of white space only (possibly empty). *)
Definition blank (s : str) : bool := forallb is_space s.

(** The values of the rows of the options table named [name]. *)
Definition option_values (db : database) (name : str) : list str :=
  map option_value (filter (fun o => str_eqb (option_name o) name) (db_options db)).

(** The database a query of a configured manager reaches: the one of the
    connection it holds, else the one the server opens for the credentials. *)
Definition reachable_db (cfg : WordPressConfig) (st : state) : option database :=
  match connection (fst st) with
  | Some h => Some (conn_db h)
  | None => server (snd st) {| cred_host := dbHost cfg; cred_user := dbUser cfg;
                               cred_password := dbPassword cfg; cred_database := dbName cfg |}
  end.

(** The manager holds, or finds when asked, the configuration [cfg], and
    reaches with it the database [db], whose tables carry the prefix of
    [cfg]. *)
Definition serves (cfg : WordPressConfig) (db : database) (st : state) : Prop :=
  fst (ensure_config st) = Some cfg /\
  reachable_db cfg (snd (ensure_config st)) = Some db /\
  db_prefix db = tablePrefix cfg.

(** The manager remembers every handle the process holds open. *)
Definition tracked (st : state) : Prop :=
  open_handles (snd st) = held (fst st).

(** A computation that leaves the connection and the open handles alone. *)
Definition quiet {A} (c : M A) : Prop :=
  forall st,
    connection (fst (snd (c st))) = connection (fst st) /\
    open_handles (snd (snd (c st))) = open_handles (snd st).

(** A connected manager is configured, and a configuration carries a
    non-empty table prefix. *)
Definition coherent (st : state) : Prop :=
  (isConnected (fst st) = true -> config (fst st) <> None) /\
  (forall c, config (fst st) = Some c -> tablePrefix c <> []).

(** ** The texts the patterns accept *)

(** The input [s] does not continue with a code unit accepted by [p]. *)
Definition stops (p : ascii -> bool) (s : str) : bool :=
  match s with
  | [] => true
  | a :: _ => negb (p a)
  end.

(** [t] is [s] up to letter case, as the [i] flag compares. *)
Definition same_text (s t : str) : Prop :=
  Forall2 (fun a b => same_char true a b = true) s t.

(** A serialized string entry: s, colon, digits, colon, the quoted value. *)
Definition token_text (part : str * str) : str :=
  js "s:" ++ fst part ++ [":"%char; dquote] ++ snd part ++ [dquote].

Definition token_ok (part : str * str) : Prop :=
  fst part <> [] /\ forallb is_digit (fst part) = true /\
  snd part <> [] /\ ~ In dquote (snd part).

(** The text [t] begins with a serialized string entry. *)
Definition entry_starts (t : str) : Prop :=
  exists part post, token_ok part /\ t = token_text part ++ post.

(** A serialized string entry begins at some position of [content]. *)
Definition holds_entry (content : str) : Prop :=
  exists pre t, content = pre ++ t /\ entry_starts t.

(** The serialized string entries of a text, read from left to right: each
    one is the first to begin after the end of the one before, and no entry
    begins in what follows the last. *)
Inductive entries : str -> list (str * str) -> Prop :=
| entries_none content : ~ holds_entry content -> entries content []
| entries_next pre part rest parts :
    token_ok part ->
    (forall p1 p2, pre = p1 ++ p2 -> p2 <> [] ->
                   ~ entry_starts (p2 ++ token_text part ++ rest)) ->
    entries rest parts ->
    entries (pre ++ token_text part ++ rest) (part :: parts).

(** The pieces of a text define ( Q key Q , Q value Q ), with the white
    space between them. *)
Record define_call := {
  d_keyword : str;
  d_sp1 : str;
  d_sp2 : str;
  d_q1 : ascii;
  d_key : str;
  d_q2 : ascii;
  d_sp3 : str;
  d_sp4 : str;
  d_q3 : ascii;
  d_value : str;
  d_q4 : ascii;
  d_sp5 : str
}.

Definition define_text (d : define_call) : str :=
  d_keyword d ++ d_sp1 d ++ "("%char :: d_sp2 d ++ d_q1 d :: d_key d ++ d_q2 d ::
  d_sp3 d ++ ","%char :: d_sp4 d ++ d_q3 d :: d_value d ++ d_q4 d :: d_sp5 d ++ [")"%char].

(** A call that defines [key]: the keyword and the key are compared up to
    letter case, each quote is either quote character, the value is not
    empty and holds no quote character. *)
Definition define_ok (key : str) (d : define_call) : Prop :=
  same_text (js "define") (d_keyword d) /\ same_text key (d_key d) /\
  blank (d_sp1 d) = true /\ blank (d_sp2 d) = true /\ blank (d_sp3 d) = true /\
  blank (d_sp4 d) = true /\ blank (d_sp5 d) = true /\
  In (d_q1 d) quotes /\ In (d_q2 d) quotes /\ In (d_q3 d) quotes /\ In (d_q4 d) quotes /\
  d_value d <> [] /\ ~ In squote (d_value d) /\ ~ In dquote (d_value d).

(** The pieces of a text $table_prefix = Q value Q. *)
Record prefix_assignment := {
  a_variable : str;
  a_sp1 : str;
  a_sp2 : str;
  a_q1 : ascii;
  a_value : str;
  a_q2 : ascii
}.

Definition assignment_text (a : prefix_assignment) : str :=
  a_variable a ++ a_sp1 a ++ "="%char :: a_sp2 a ++ a_q1 a :: a_value a ++ [a_q2 a].

Definition assignment_ok (a : prefix_assignment) : Prop :=
  same_text (js "$table_prefix") (a_variable a) /\
  blank (a_sp1 a) = true /\ blank (a_sp2 a) = true /\
  In (a_q1 a) quotes /\ In (a_q2 a) quotes /\
  a_value a <> [] /\ ~ In squote (a_value a) /\ ~ In dquote (a_value a).

Definition define_keys : list str :=
  [js "DB_NAME"; js "DB_USER"; js "DB_PASSWORD"; js "DB_HOST"].

(** Pattern [r] matches at no position of [content]. *)
Definition never_matches (r : regex) (content : str) : Prop :=
  forall pre t s' c, content = pre ++ t -> ~ matches r t s' [] c.

(** Pattern [r] matches at no position that starts inside [pre], in the
    input [pre ++ t]. *)
Definition unmatched_before (r : regex) (pre t : str) : Prop :=
  forall p1 p2 s' c, pre = p1 ++ p2 -> p2 <> [] -> ~ matches r (p2 ++ t) s' [] c.

(** The non-empty suffixes of [s], longest first. *)
Fixpoint nonempty_tails (s : str) : list str :=
  match s with
  | [] => []
  | _ :: s' => s :: nonempty_tails s'
  end.

Definition is_none {A} (o : option A) : bool :=
  match o with None => true | Some _ => false end.

(** ** Sample inputs *)

Definition dir_a : str := js "a".
Definition dir_b : str := js "b".
Definition dir_c : str := js "c".

(** [/a/wp-config.php] only. *)
Definition fs_marker_in_a : filesystem :=
  fun p => if path_eqb p [dir_a; wp_config_php] then Some (File []) else None.

(** [/wp-config.php] only. *)
Definition fs_marker_in_root : filesystem :=
  fun p => if path_eqb p [wp_config_php] then Some (File []) else None.

Definition fs_empty : filesystem := fun _ => None.

Definition site_path : path := [js "site"].

Definition sample_config_content : str :=
  js "<?php define('DB_NAME', 'shop'); define('DB_USER', 'root'); $table_prefix = 'wp_';".

Definition fs_site : filesystem :=
  fun p => if path_eqb p (path_join site_path wp_config_php)
           then Some (File sample_config_content) else None.

Definition sample_config : WordPressConfig :=
  parseConfigContent sample_config_content (path_join site_path wp_config_php).

Definition sample_plugins_value : str := js "a/a.php;b/b.php;".

(** Two serialized entries, for book and movie. *)
Definition sample_cpt_value : str :=
  js "a:2:{" ++ token_text (js "4", js "book") ++ js ";" ++
  token_text (js "5", js "movie") ++ js ";}".

Definition sample_posts : list str :=
  [js "post"; js "movie"; js "page"; js "movie"; js "recipe"].

Definition db_with_cptui : database :=
  {| db_prefix := js "wp_";
     db_options :=
       [ {| option_id := js "1"; option_name := js "active_plugins";
            option_value := sample_plugins_value |};
         {| option_id := js "2"; option_name := js "cptui_post_types";
            option_value := sample_cpt_value |} ];
     db_posts := sample_posts;
     db_like := fun _ _ => true |}.

Definition db_without_cptui : database :=
  {| db_prefix := js "wp_";
     db_options :=
       [ {| option_id := js "1"; option_name := js "active_plugins";
            option_value := sample_plugins_value |} ];
     db_posts := sample_posts;
     db_like := fun _ _ => true |}.

Definition sample_world (db : database) : World :=
  {| fs := fs_site;
     workspaceFolders := [site_path ++ [js "wp-content"]];
     server := fun _ => Some db;
     open_handles := [];
     next_handle := 0 |}.

(** A new manager. *)
Definition new_manager (db : database) : state :=
  ({| config := None; connection := None |}, sample_world db).

(** A manager that has found its configuration. *)
Definition configured_manager (db : database) : state :=
  ({| config := Some sample_config; connection := None |}, sample_world db).

(** A session: connect, read, disconnect, connect again, read. *)
Definition sample_session : list op :=
  [OpFindConfig; OpConnect; OpPlugins; OpDisconnect; OpConnect; OpPostTypes;
   OpNaturalLanguage (js "find options like %mss%")].

(** Define ( dq db_name sq , sq shop dq ) in mixed case and mixed quotes. *)
Definition sample_define : define_call :=
  {| d_keyword := js "Define"; d_sp1 := js " "; d_sp2 := [];
     d_q1 := dquote; d_key := js "db_name"; d_q2 := squote;
     d_sp3 := js " "; d_sp4 := js "  ";
     d_q3 := squote; d_value := js "shop"; d_q4 := dquote; d_sp5 := [] |}.

Definition sample_prefix_define : define_call :=
  {| d_keyword := js "define"; d_sp1 := []; d_sp2 := [];
     d_q1 := squote; d_key := js "table_prefix"; d_q2 := squote;
     d_sp3 := []; d_sp4 := [];
     d_q3 := squote; d_value := js "X"; d_q4 := squote; d_sp5 := [] |}.

Definition sample_assignment : prefix_assignment :=
  {| a_variable := js "$table_prefix"; a_sp1 := js " "; a_sp2 := js " ";
     a_q1 := squote; a_value := js "Y"; a_q2 := squote |}.

(** define ( dq DB_NAME dq , dq foo dq ) *)
Definition define_db_name_double_quoted : str :=
  js "define(" ++ [dquote] ++ js "DB_NAME" ++ [dquote; ","%char; dquote] ++
  js "foo" ++ [dquote] ++ js ")".

Definition sample_like_input : str := js "find options like '%mss%'".

(** The match of the pattern on [sample_like_input]. *)
Definition sample_like_match : match_result :=
  Eval vm_compute in
    match exec like_regex sample_like_input with
    | Some m => m
    | None => MatchResult [] [] []
    end.

(** ** mcp-provider: the intent handlers *)

Definition nl : ascii := "010"%char.

(** The text of a path, as [fsPath] and template literals render it. *)
Definition path_text (p : path) : str :=
  match p with
  | [] => js "/"
  | _ :: _ => flat_map (fun seg => "/"%char :: seg) p
  end.

(** The text of a number in a template literal. *)
Definition decimal (n : nat) : str := js (NilZero.string_of_uint (Nat.to_uint n)).

(** The [data] payloads of the responses modelled here. *)
Inductive response_data : Type :=
| DatabaseData (name user host prefix : str) (cfgPath : path)
| ListData (items : list str)
| GeneralData (version : option str) (wp cfgPath : path).

Record WordPressContextResponse := {
  type : Intent;
  data : response_data;
  message : str
}.

(** [handleDatabaseQuery]; [cfg] is [wpManager.getConfig()!], which the chat
    handler has checked, and [query] the lower-cased prompt. *)
Definition handleDatabaseQuery (cfg : WordPressConfig) (query : str)
  : WordPressContextResponse :=
  let message :=
    if (includes query (js "username") || includes query (js "user") ||
        includes query (js "db_user"))%bool
    then js "The database username in your wp-config.php is: " ++ dbUser cfg
    else if (includes query (js "name") || includes query (js "db_name"))%bool
    then js "The database name in your wp-config.php is: " ++ dbName cfg
    else if (includes query (js "host") || includes query (js "db_host"))%bool
    then js "The database host in your wp-config.php is: " ++ dbHost cfg
    else if (includes query (js "prefix") || includes query (js "table"))%bool
    then js "The table prefix in your wp-config.php is: " ++ tablePrefix cfg
    else js "WordPress database configuration:" ++ [nl; nl] ++
         js "- Database name: " ++ dbName cfg ++ [nl] ++
         js "- Database user: " ++ dbUser cfg ++ [nl] ++
         js "- Database host: " ++ dbHost cfg ++ [nl] ++
         js "- Table prefix: " ++ tablePrefix cfg ++ [nl; nl] ++
         js "Configuration file: " ++ path_text (configPath cfg) in
  {| type := database_info;
     data := DatabaseData (dbName cfg) (dbUser cfg) (dbHost cfg) (tablePrefix cfg)
               (configPath cfg);
     message := message |}.

(** [items.map((x, index) => `${index + 1}. ${x}`)], counting from [i + 1]. *)
Fixpoint numbered (i : nat) (items : list str) : list str :=
  match items with
  | [] => []
  | x :: rest => (decimal (i + 1) ++ js ". " ++ x) :: numbered (S i) rest
  end.

Definition handlePluginQuery : M WordPressContextResponse :=
  plugins <- getActivePlugins ;;
  match plugins with
  | [] =>
      ret {| type := plugin_info; data := ListData [];
             message := js "No active plugins were found or the WordPress database is not accessible." |}
  | _ :: _ =>
      ret {| type := plugin_info; data := ListData plugins;
             message := js "Active WordPress plugins (" ++ decimal (length plugins) ++
                        js "):" ++ [nl; nl] ++ join nl (numbered 0 plugins) |}
  end.

Definition handlePostTypeQuery : M WordPressContextResponse :=
  customPostTypes <- getCustomPostTypes ;;
  match customPostTypes with
  | [] =>
      ret {| type := custom_post_types; data := ListData [];
             message := js "No custom post types were found in this WordPress installation." |}
  | _ :: _ =>
      ret {| type := custom_post_types; data := ListData customPostTypes;
             message := js "Custom post types in this WordPress installation (" ++
                        decimal (length customPostTypes) ++ js "):" ++ [nl; nl] ++
                        join nl (numbered 0 customPostTypes) |}
  end.

(** [wpVersion || 'Unknown'] *)
Definition version_text (wpVersion : option str) : str :=
  match wpVersion with
  | Some v => or_else v (js "Unknown")
  | None => js "Unknown"
  end.

(** [handleGeneralInfoQuery]; [cfg] is [wpManager.getConfig()!], read before
    the version is fetched. *)
Definition handleGeneralInfoQuery (cfg : WordPressConfig) : M WordPressContextResponse :=
  wpVersion <- getWordPressVersion ;;
  ret {| type := general_info;
         data := GeneralData wpVersion (wpPath cfg) (configPath cfg);
         message := js "WordPress Information:" ++ [nl; nl] ++
                    js "- WordPress Version: " ++ version_text wpVersion ++ [nl] ++
                    js "- WordPress Path: " ++ path_text (wpPath cfg) ++ [nl] ++
                    js "- Configuration File: " ++ path_text (configPath cfg) ++ [nl] ++
                    js "- Database Name: " ++ dbName cfg ++ [nl] ++
                    js "- Database User: " ++ dbUser cfg ++ [nl; nl] ++
                    js "You can ask me about database details, active theme, plugins, or custom post types." |}.

(** ** mcp-provider: the legacy command mcp-wordpress.answerConfigQuestion *)

(** The answer once a configuration is at hand; [question] is lower-cased. *)
Definition legacy_answer (cfg : WordPressConfig) (question : str) : str :=
  if (includes question (js "username") || includes question (js "user") ||
      includes question (js "db_user"))%bool
  then js "The database username in your wp-config.php is: " ++ dbUser cfg
  else if (includes question (js "database name") || includes question (js "db name") ||
           includes question (js "db_name"))%bool
  then js "The database name in your wp-config.php is: " ++ dbName cfg
  else if (includes question (js "host") || includes question (js "db_host"))%bool
  then js "The database host in your wp-config.php is: " ++ dbHost cfg
  else if (includes question (js "password") || includes question (js "db_password"))%bool
  then js "The database password is defined in your wp-config.php at: " ++
       path_text (configPath cfg)
  else if (includes question (js "prefix") || includes question (js "table prefix"))%bool
  then js "The table prefix in your wp-config.php is: " ++ tablePrefix cfg
  else if (includes question (js "config") || includes question (js "wp-config") ||
           includes question (js "configuration"))%bool
  then js "WordPress configuration was found at: " ++ path_text (configPath cfg) ++
       [nl; nl] ++ js "It contains the following settings:" ++ [nl] ++
       js "- Database name: " ++ dbName cfg ++ [nl] ++
       js "- Database user: " ++ dbUser cfg ++ [nl] ++
       js "- Database host: " ++ dbHost cfg ++ [nl] ++
       js "- Table prefix: " ++ tablePrefix cfg
  else js "I found your WordPress configuration at " ++ path_text (configPath cfg) ++
       js ", but I'm not sure what specific information you're looking for. Try asking about database name, username, host, or table prefix.".

Definition answerConfigQuestion (question : str) : M str :=
  c0 <- get_config ;;
  _ <- match c0 with
       | Some _ => ret None
       | None => manager_findWordPressConfig
       end ;;
  c <- get_config ;;
  match c with
  | None =>
      ret (js "Sorry, I couldn't find a WordPress configuration file. Make sure you have a wp-config.php file in your project or its parent directories.")
  | Some cfg => ret (legacy_answer cfg (toLowerCase question))
  end.

(** ** mcp-provider: completion items *)

(** [String.prototype.endsWith] *)
Definition ends_with (s suffix : str) : bool := starts_with (rev suffix) (rev s).

(** A completion item; its kind is always [Function]. *)
Record CompletionItem := {
  label : str;
  detail : str;
  documentation : str;
  insertText : option str
}.

Definition function_item (detailPrefix docPrefix func : str) : CompletionItem :=
  {| label := func;
     detail := detailPrefix ++ func;
     documentation := docPrefix ++ func;
     insertText := None |}.

Definition hookFunctions : list str :=
  [js "add_action"; js "add_filter"; js "add_shortcode"; js "add_menu_page";
   js "add_submenu_page"].

Definition wpFunctions : list str :=
  [js "wp_enqueue_style"; js "wp_enqueue_script"; js "wp_insert_post"; js "wp_query"].

Definition getFunctions : list str :=
  [js "get_template_part"; js "get_header"; js "get_footer"; js "get_sidebar";
   js "get_post_meta"].

Definition post_type_item (cpt : str) : CompletionItem :=
  {| label := js "get_" ++ cpt;
     detail := js "WordPress Custom: get_" ++ cpt;
     documentation := js "Get " ++ cpt ++ js " custom post type";
     insertText :=
       Some (js "get_posts(array(" ++ [nl] ++
             js "    'post_type' => '" ++ cpt ++ js "'," ++ [nl] ++
             js "    'numberposts' => ${1:-1}," ++ [nl] ++
             js "    'post_status' => 'publish'" ++ [nl] ++
             js "))") |}.

(** [provideCompletionItems]; [linePrefix] is the text of the line before the
    cursor; [None] is [undefined]. *)
Definition provideCompletionItems (linePrefix : str) : M (option (list CompletionItem)) :=
  if (negb (ends_with linePrefix (js "add_")) && negb (ends_with linePrefix (js "wp_")) &&
      negb (ends_with linePrefix (js "get_")))%bool
  then ret None
  else
    _ <- manager_findWordPressConfig ;;
    let hooks :=
      if ends_with linePrefix (js "add_")
      then map (function_item (js "WordPress Hook: ") (js "WordPress hook function "))
               hookFunctions
      else [] in
    let wps :=
      if ends_with linePrefix (js "wp_")
      then map (function_item (js "WordPress API: ") (js "WordPress API function "))
               wpFunctions
      else [] in
    if ends_with linePrefix (js "get_")
    then
      customPostTypes <- getCustomPostTypes ;;
      ret (Some (hooks ++ wps ++ map post_type_item customPostTypes ++
                 map (function_item (js "WordPress API: ")
                        (js "WordPress template function ")) getFunctions))
    else ret (Some (hooks ++ wps)).

Definition isWordPressFunction (functionName : str) : bool :=
  existsb (fun prefix => starts_with prefix functionName)
    [js "wp_"; js "get_"; js "the_"; js "is_"; js "add_"; js "do_"; js "has_"].

(** ** wordpress-manager: template files of a theme *)

Definition isWpStandardTemplate (filename : str) : bool :=
  mem_str filename
    [js "index.php"; js "single.php"; js "page.php"; js "archive.php";
     js "category.php"; js "tag.php"; js "author.php"; js "search.php";
     js "404.php"; js "front-page.php"; js "home.php"; js "singular.php"].

(** Whether the loop of [findThemeTemplateFiles] pushes [file]. A file that
    cannot be read is skipped. *)
Definition is_template_file (f : filesystem) (themePath : path) (file : str) : bool :=
  if ends_with file (js ".php") then
    match readFileAsync f (path_join themePath file) with
    | Some content =>
        (includes content (js "Template Name:") || isWpStandardTemplate file)%bool
    | None => false
    end
  else false.

(** [findThemeTemplateFiles(themePath)]; [files] is the result of
    [fs.promises.readdir(themePath)], the names of the entries of the
    directory in listing order, [None] when it rejects. *)
Definition findThemeTemplateFiles (f : filesystem) (files : option (list str))
    (themePath : path) : list str :=
  match files with
  | Some l => filter (is_template_file f themePath) l
  | None => []
  end.

(** ** extension.ts: the command mcp-wordpress.queryDatabase *)

Inductive command_outcome : Type :=
| ConfigNotFound      (* Could not find WordPress configuration (wp-config.php). *)
| ConnectFailed       (* Failed to connect to WordPress database. *)
| Cancelled           (* the input box gave nothing *)
| Results (rows : list row)
| NoResults           (* No results found for your query. *)
| QueryError (e : error).

(** The command run to its end with no other call in between
    ([queryCommand_async] below is the command with its awaits).
    [queryInput] is what the input box returns, [None] for [undefined]. *)
Definition queryCommand (queryInput : option str) : M command_outcome :=
  fun st =>
    let ready : M (option command_outcome) :=
      if isConnected (fst st) then ret None
      else
        wpConfig <- manager_findWordPressConfig ;;
        match wpConfig with
        | None => ret (Some ConfigNotFound)
        | Some _ =>
            connected <- connectToDatabase ;;
            if connected then ret None else ret (Some ConnectFailed)
        end in
    let (stop, st1) := ready st in
    match stop with
    | Some o => (o, st1)
    | None =>
        match queryInput with
        | None => (Cancelled, st1)
        | Some input =>
            if truthy input then
              let (r, st2) := executeNaturalLanguageQuery input st1 in
              match r with
              | inr [] => (NoResults, st2)
              | inr (r0 :: rows) => (Results (r0 :: rows), st2)
              | inl e => (QueryError e, st2)
              end
            else (Cancelled, st1)
        end
    end.

(** ** Vocabulary of the further statements *)

(** [cfg] with another password. *)
Definition with_password (cfg : WordPressConfig) (pw : str) : WordPressConfig :=
  {| configPath := configPath cfg; dbHost := dbHost cfg; dbName := dbName cfg;
     dbUser := dbUser cfg; dbPassword := pw; tablePrefix := tablePrefix cfg;
     wpPath := wpPath cfg |}.

Definition credentials_of (cfg : WordPressConfig) : credentials :=
  {| cred_host := dbHost cfg; cred_user := dbUser cfg;
     cred_password := dbPassword cfg; cred_database := dbName cfg |}.

Definition quote_free (s : str) : Prop := ~ In squote s /\ ~ In dquote s.

(** The suffixes of the line that make the provider answer. *)
Definition triggers : list str := [js "add_"; js "wp_"; js "get_"].

(** A server that rejects every connection. *)
Definition sample_world_offline : World :=
  {| fs := fs_site;
     workspaceFolders := [site_path ++ [js "wp-content"]];
     server := fun _ => None;
     open_handles := [];
     next_handle := 0 |}.

Definition offline_manager : state :=
  ({| config := Some sample_config; connection := None |}, sample_world_offline).

(** A theme directory: two readable files and an unreadable index.php. *)
Definition theme_path : path := site_path ++ [js "wp-content"; js "themes"; js "t"].

Definition fs_theme : filesystem :=
  fun p =>
    if path_eqb p (path_join theme_path (js "page.php")) then Some (File (js "<?php"))
    else if path_eqb p (path_join theme_path (js "notes.txt"))
         then Some (File (js "Template Name: x"))
    else if path_eqb p (path_join theme_path (js "index.php")) then Some Directory
    else None.

(** A manager without configuration in a workspace without wp-config.php. *)
Definition lost_manager : state :=
  ({| config := None; connection := None |},
   {| fs := fs_empty; workspaceFolders := [site_path]; server := fun _ => None;
      open_handles := []; next_handle := 0 |}).

Definition theme_listing : list str :=
  [js "index.php"; js "notes.txt"; js "page.php"; js "style.css"].

Definition sample_line : str := js "$posts = get_".

(** What the provider offers after [sample_line]. *)
Definition sample_completion_items : list CompletionItem :=
  Eval vm_compute in
    match fst (provideCompletionItems sample_line (configured_manager db_with_cptui)) with
    | Some items => items
    | None => []
    end.

Definition db_with_version : database :=
  {| db_prefix := js "wp_";
     db_options :=
       [ {| option_id := js "1"; option_name := js "version"; option_value := js "6.5" |} ];
     db_posts := [];
     db_like := fun _ _ => true |}.

(** ** wordpress-manager: the active theme *)

(** [ThemeInfo]; its field [active] is always [true]. *)
Record ThemeInfo := {
  t_name : str;
  t_path : str;
  t_templateFiles : list str
}.

(** One name of a path text being normalised, applied to the directory
    reached so far. *)
Definition enter (dir : path) (name : str) : path :=
  if (str_eqb name [] || str_eqb name (js "."))%bool then dir
  else if str_eqb name (js "..") then dirname dir
  else dir ++ [name].

(** The directory [path.join(wpPath, 'wp-content', 'themes', themeName)]
    names. *)
Definition theme_directory (wp : path) (themeName : str) : path :=
  fold_left enter (split "/"%char themeName) (wp ++ [js "wp-content"; js "themes"]).

(** The text of that path: [path.join] keeps a separator at the end of
    [themeName], except on the root. *)
Definition theme_path_text (wp : path) (themeName : str) : str :=
  match theme_directory wp themeName, rev themeName with
  | _ :: _, "/"%char :: _ => path_text (theme_directory wp themeName) ++ js "/"
  | _, _ => path_text (theme_directory wp themeName)
  end.

(** [getActiveTheme]; [readdir] gives the result of [fs.promises.readdir],
    [None] when it rejects. A path that [fs.promises.stat] rejects and one
    that is no directory are both answered with [null]. *)
Definition getActiveTheme (readdir : path -> option (list str)) : M (option ThemeInfo) :=
  c <- ensure_config ;;
  match c with
  | None => ret None
  | Some cfg =>
      r <- query (SelectOptionValue (tablePrefix cfg ++ js "options") (js "stylesheet")) ;;
      match r with
      | inr (r0 :: _) =>
          let themeName := field (js "option_value") r0 in
          let themePath := theme_directory (wpPath cfg) themeName in
          w <- get_world ;;
          match fs w themePath with
          | Some Directory =>
              ret (Some {| t_name := themeName;
                           t_path := theme_path_text (wpPath cfg) themeName;
                           t_templateFiles :=
                             findThemeTemplateFiles (fs w) (readdir themePath) themePath |})
          | _ => ret None
          end
      | _ => ret None
      end
  end.

(** ** mcp-provider: the chat handler *)

(** The response of [handleThemeQuery]; its type is always [theme_info]. *)
Record ThemeResponse := {
  theme_data : option ThemeInfo;
  theme_message : str
}.

Definition handleThemeQuery (readdir : path -> option (list str)) (query : str)
  : M ThemeResponse :=
  theme <- getActiveTheme readdir ;;
  match theme with
  | None =>
      ret {| theme_data := None;
             theme_message := js "Could not retrieve theme information. The WordPress database may not be accessible or no theme is active." |}
  | Some t =>
      ret {| theme_data := Some t;
             theme_message :=
               if (includes query (js "template") || includes query (js "file"))%bool
               then js "Template files in the active theme " ++ [dquote] ++ t_name t ++
                    [dquote] ++ js ":" ++ [nl; nl] ++
                    join nl (map (fun file => js "- " ++ file) (t_templateFiles t))
               else js "Active WordPress theme: " ++ t_name t ++ [nl] ++
                    js "Theme path: " ++ t_path t ++ [nl] ++
                    js "Number of template files: " ++ decimal (length (t_templateFiles t)) |}
  end.

(** [wordpressRequestHandler]: the text it passes to [stream.markdown] for
    the prompt of a chat request. Every handler answers with a response
    and none of them throws, so the two remaining texts of the source, for
    a missing response and for a caught error, are never passed. *)
Definition wordpressRequestHandler (readdir : path -> option (list str)) (prompt : str)
  : M str :=
  c0 <- get_config ;;
  _ <- match c0 with
       | Some _ => ret None
       | None => manager_findWordPressConfig
       end ;;
  c <- get_config ;;
  match c with
  | None =>
      ret (js "WordPress configuration not found. Please open a folder containing WordPress installation.")
  | Some cfg =>
      let query := toLowerCase prompt in
      match classify prompt with
      | database_info => ret (message (handleDatabaseQuery cfg query))
      | theme_info => response <- handleThemeQuery readdir query ;; ret (theme_message response)
      | plugin_info => response <- handlePluginQuery ;; ret (message response)
      | custom_post_types => response <- handlePostTypeQuery ;; ret (message response)
      | general_info => response <- handleGeneralInfoQuery cfg ;; ret (message response)
      end
  end.

(** ** Calls in progress *)

(** The methods above are [async] functions in the sources. The definitions
    given so far describe a call that runs to its end with no other call in
    between. What follows describes the same methods with their awaits: a
    call runs until its next [await] and then gives way to whatever else is
    in progress. A call in progress is finished with its result, or it waits
    at an [await] with the code that runs, in one piece up to the next
    [await], when it is resumed. *)
#[warnings="-register-all"]
Inductive suspended (A : Type) : Type :=
| Done (a : A)
| Waiting (resume : state -> suspended A * state).

Arguments Done {A} a.
Arguments Waiting {A} resume.

(** An async function: called, it runs up to its first [await]. *)
Definition async (A : Type) : Type := state -> suspended A * state.

Definition finished {A} (a : A) : async A := fun st => (Done a, st).

(** Code without [await]. *)
Definition sync {A} (c : M A) : async A :=
  fun st => let (a, st') := c st in (Done a, st').

Fixpoint continue_with {A B} (r : suspended A) (k : A -> async B) (st : state)
  : suspended B * state :=
  match r with
  | Done a => k a st
  | Waiting resume =>
      (Waiting (fun st1 => let (r', st2) := resume st1 in continue_with r' k st2), st)
  end.

Definition abind {A B} (p : async A) (k : A -> async B) : async B :=
  fun st => let (r, st') := p st in continue_with r k st'.

Notation "x <~ p ;; k" := (abind p (fun x => k))
  (at level 61, p at next level, right associativity).

(** [await p()] for an async function [p] of the extension: the callee runs
    up to its first [await] within the caller's turn; once it has finished,
    the caller goes on in a later turn. *)
Definition await {A} (p : async A) : async A :=
  a <~ p ;; fun st => (Waiting (fun st' => (Done a, st')), st).

(** [await] on a promise of a library (file system, database driver, input
    box): the caller goes on in a later turn with what the library reports
    then. *)
Definition await_io {A} (io : M A) : async A :=
  fun st => (Waiting (fun st' => let (a, st'') := io st' in (Done a, st'')), st).

(** A call resumed again and again, nothing else running in between. *)
Fixpoint finish {A} (r : suspended A) (st : state) : A * state :=
  match r with
  | Done a => (a, st)
  | Waiting resume => let (r', st') := resume st in finish r' st'
  end.

Definition complete {A} (p : async A) : M A :=
  fun st => let (r, st') := p st in finish r st'.

(** ** The methods with their awaits *)

(** wp-config-finder, [findWordPressConfig]: one [await existsAsync] for each
    directory. [n] bounds the number of iterations; the length of the path
    is enough. *)
Fixpoint findWordPressConfig_from (n : nat) (currentPath : path) : async (option path) :=
  match n, currentPath with
  | S n', _ :: _ =>
      found <~ await_io (fun st =>
                 (existsAsync (fs (snd st)) (path_join currentPath wp_config_php), st)) ;;
      if found then finished (Some (path_join currentPath wp_config_php))
      else if path_eqb (dirname currentPath) currentPath then finished None
      else findWordPressConfig_from n' (dirname currentPath)
  | _, _ => finished None
  end.

Definition findWordPressConfig_async (startPath : path) : async (option path) :=
  findWordPressConfig_from (length startPath) startPath.

(** wp-config-parser, [parseWordPressConfig]: [await readFileAsync]. *)
Definition parseWordPressConfig_async (cfgPath : path) : async (option WordPressConfig) :=
  configContent <~ await_io (fun st => (readFileAsync (fs (snd st)) cfgPath, st)) ;;
  match configContent with
  | Some content => finished (Some (parseConfigContent content cfgPath))
  | None => finished None
  end.

Definition manager_findWordPressConfig_async : async (option WordPressConfig) :=
  fun st =>
    match workspaceFolders (snd st) with
    | [] => finished None st
    | workspacePath :: _ =>
        (cfgPath <~ await (findWordPressConfig_async workspacePath) ;;
         match cfgPath with
         | None => finished None
         | Some p =>
             parsed <~ await (parseWordPressConfig_async p) ;;
             match parsed with
             | Some c => sync (_ <- set_config c ;; ret (Some c))
             | None => finished None
             end
         end) st
    end.

(** [if (!this.config) { await this.findWordPressConfig(); ... this.config ... }] *)
Definition ensure_config_async : async (option WordPressConfig) :=
  fun st =>
    match config (fst st) with
    | Some c => finished (Some c) st
    | None => (_ <~ await manager_findWordPressConfig_async ;; sync get_config) st
    end.

(** [mysql.createConnection(credentials)], as it settles. *)
Definition createConnection (cr : credentials) : M (option Connection) :=
  fun st =>
    match server (snd st) cr with
    | Some db => let (h, st') := open_handle db st in (Some h, st')
    | None => (None, st)
    end.

(** The credentials are read from [this.config] before the await; the
    handle is stored after it. *)
Definition connect_with_config : async bool :=
  fun st =>
    match config (fst st) with
    | Some cfg =>
        (h <~ await_io (createConnection (credentials_of cfg)) ;;
         match h with
         | Some h => sync (_ <- set_connection (Some h) ;; ret true)
         | None => finished false
         end) st
    | None => finished false st
    end.

Definition connectToDatabase_async : async bool :=
  fun st =>
    match config (fst st) with
    | Some _ => connect_with_config st
    | None =>
        (found <~ await manager_findWordPressConfig_async ;;
         match found with
         | None => finished false
         | Some _ => connect_with_config
         end) st
    end.

(** Whether the process still holds the handle open. *)
Definition handle_open (h : Connection) (w : World) : bool :=
  existsb (Nat.eqb (conn_id h)) (open_handles w).

(** [connection.query(sql, params)] of the driver, as it settles: a handle
    closed in the meantime rejects. *)
Definition driver_query (h : Connection) (q : sql) : M (error + list row) :=
  fun st =>
    (if handle_open h (snd st)
     then match run_sql (conn_db h) q with
          | Some rows => inr rows
          | None => inl QueryFailed
          end
     else inl QueryFailed, st).

(** [await this.connection!.query(sql, params)]: the handle is read from
    [this.connection] before the await. Without a handle the call throws
    inside the [try] block, and the error is rethrown like one of the
    driver. *)
Definition send (q : sql) : async (error + list row) :=
  fun st =>
    match connection (fst st) with
    | Some h => await_io (driver_query h q) st
    | None => finished (inl QueryFailed) st
    end.

Definition query_async (q : sql) : async (error + list row) :=
  fun st =>
    match connection (fst st) with
    | Some _ => send q st
    | None =>
        (connected <~ await connectToDatabase_async ;;
         if connected then send q else finished (inl ConnectionNotEstablished)) st
    end.

Definition getWordPressVersion_async : async (option str) :=
  c <~ ensure_config_async ;;
  match c with
  | None => finished None
  | Some cfg =>
      r <~ await (query_async (SelectOptionValue (tablePrefix cfg ++ js "options")
                                 (js "version"))) ;;
      match r with
      | inr (r0 :: _) => finished (Some (field (js "option_value") r0))
      | _ => finished None
      end
  end.

Definition getActivePlugins_async : async (list str) :=
  c <~ ensure_config_async ;;
  match c with
  | None => finished []
  | Some cfg =>
      r <~ await (query_async (SelectOptionValue (tablePrefix cfg ++ js "options")
                                 (js "active_plugins"))) ;;
      match r with
      | inr (r0 :: _) => finished (split_plugins (field (js "option_value") r0))
      | _ => finished []
      end
  end.

(** The second statement of [getCustomPostTypes]; the prefix is read from
    [this.config] when the statement is built. *)
Definition posts_fallback_async : async (list str) :=
  fun st =>
    match config (fst st) with
    | Some cfg =>
        (r <~ await (query_async (SelectDistinctPostTypes (tablePrefix cfg ++ js "posts")
                                    builtin_post_types 20)) ;;
         match r with
         | inr postTypeRows => finished (map (field (js "post_type")) postTypeRows)
         | inl _ => finished []
         end) st
    | None => finished [] st
    end.

Definition getCustomPostTypes_async : async (list str) :=
  c <~ ensure_config_async ;;
  match c with
  | None => finished []
  | Some cfg =>
      r <~ await (query_async (SelectOptionValue (tablePrefix cfg ++ js "options")
                                 (js "cptui_post_types"))) ;;
      match r with
      | inl _ => finished []
      | inr [] => posts_fallback_async
      | inr (r0 :: _) =>
          match match_all cpt_regex_g (field (js "option_value") r0) with
          | Some cptMatches => finished (cpt_names cptMatches)
          | None => posts_fallback_async
          end
      end
  end.

Definition disconnect_async : async unit :=
  fun st =>
    match connection (fst st) with
    | Some h => (_ <~ await_io (close_handle h) ;; sync (set_connection None)) st
    | None => finished tt st
    end.

Definition executeNaturalLanguageQuery_async (input : str) : async (error + list row) :=
  fun st =>
    match translate (getTablePrefix (fst st)) input with
    | inl e => finished (inl e) st
    | inr q => await (query_async q) st
    end.

(** extension.ts, the command mcp-wordpress.queryDatabase, with its awaits.
    [queryInput] is what the input box returns, [None] for [undefined]. *)
Definition queryCommand_async (queryInput : option str) : async command_outcome :=
  fun st =>
    (stop <~ (if isConnected (fst st) then finished None
              else
                wpConfig <~ await manager_findWordPressConfig_async ;;
                match wpConfig with
                | None => finished (Some ConfigNotFound)
                | Some _ =>
                    connected <~ await connectToDatabase_async ;;
                    if connected then finished None else finished (Some ConnectFailed)
                end) ;;
     match stop with
     | Some o => finished o
     | None =>
         input <~ await_io (ret queryInput) ;;
         match input with
         | None => finished Cancelled
         | Some input =>
             if truthy input then
               r <~ await (executeNaturalLanguageQuery_async input) ;;
               match r with
               | inr [] => finished NoResults
               | inr (r0 :: rows) => finished (Results (r0 :: rows))
               | inl e => finished (QueryError e)
               end
             else finished Cancelled
         end
     end) st.

(** ** Calls in progress at the same time *)

Definition forget {A} (p : async A) : async unit := _ <~ p ;; finished tt.

Definition op_async (o : op) : async unit :=
  match o with
  | OpFindConfig => forget manager_findWordPressConfig_async
  | OpConnect => forget connectToDatabase_async
  | OpQuery q => forget (query_async q)
  | OpVersion => forget getWordPressVersion_async
  | OpPlugins => forget getActivePlugins_async
  | OpPostTypes => forget getCustomPostTypes_async
  | OpNaturalLanguage input => forget (executeNaturalLanguageQuery_async input)
  | OpDisconnect => disconnect_async
  | OpEnvironment f ws srv => fun st => (Done tt, step (OpEnvironment f ws srv) st)
  end.

(** The manager with its environment, and the calls started so far. *)
Record system := {
  now : state;
  calls : list (suspended unit)
}.

(** The event loop starts a call, which runs up to its first [await], or
    resumes the call numbered [i], which runs up to its next one. *)
Inductive event : Type :=
| Start (o : op)
| Resume (i : nat).

Fixpoint replace_call (i : nat) (r : suspended unit) (l : list (suspended unit))
  : list (suspended unit) :=
  match l, i with
  | [], _ => []
  | _ :: l', 0 => r :: l'
  | x :: l', S i' => x :: replace_call i' r l'
  end.

Definition fire (e : event) (s : system) : system :=
  match e with
  | Start o =>
      let (r, st) := op_async o (now s) in
      {| now := st; calls := calls s ++ [r] |}
  | Resume i =>
      match nth_error (calls s) i with
      | Some (Waiting resume) =>
          let (r, st) := resume (now s) in
          {| now := st; calls := replace_call i r (calls s) |}
      | _ => s
      end
  end.

Fixpoint run_events (evs : list event) (s : system) : system :=
  match evs with
  | [] => s
  | e :: evs' => run_events evs' (fire e s)
  end.

Definition is_done {A} (r : suspended A) : bool :=
  match r with Done _ => true | Waiting _ => false end.

(** No call is in progress. *)
Definition idle (s : system) : bool := forallb is_done (calls s).

(** Nothing starts while a call is in progress. *)
Fixpoint one_at_a_time (evs : list event) (s : system) : Prop :=
  match evs with
  | [] => True
  | e :: evs' =>
      match e with Start _ => idle s = true | Resume _ => True end /\
      one_at_a_time evs' (fire e s)
  end.

(** [connectToDatabase] is started directly only while [isConnected()] is
    false. *)
Fixpoint connects_guarded (evs : list event) (s : system) : Prop :=
  match evs with
  | [] => True
  | e :: evs' =>
      match e with
      | Start OpConnect => isConnected (fst (now s)) = false
      | _ => True
      end /\ connects_guarded evs' (fire e s)
  end.

Definition at_rest (st : state) : system := {| now := st; calls := [] |}.

(** Resuming [r] until it has finished, nothing else running in between,
    keeps [I] at every await and ends in [Q]. *)
Fixpoint through {A} (I : state -> Prop) (Q : A -> state -> Prop)
    (r : suspended A) (st : state) : Prop :=
  match r with
  | Done a => Q a st
  | Waiting resume => I st /\ through I Q (fst (resume st)) (snd (resume st))
  end.

Definition through_call {A} (I : state -> Prop) (Q : A -> state -> Prop)
    (p : async A) (st : state) : Prop :=
  through I Q (fst (p st)) (snd (p st)).

(** ** Vocabulary of the statements on calls in progress *)

Fixpoint suspended_induction {A} (P : suspended A -> Prop)
    (HD : forall a, P (Done a))
    (HW : forall resume, (forall st, P (fst (resume st))) -> P (Waiting resume))
    (r : suspended A) : P r :=
  match r with
  | Done a => HD a
  | Waiting resume => HW resume (fun st => suspended_induction P HD HW (fst (resume st)))
  end.

(** The stored handle and the open handles are those of [st]. *)
Definition same_handles (st st' : state) : Prop :=
  connection (fst st') = connection (fst st) /\
  open_handles (snd st') = open_handles (snd st).

(** The stored handle, if any, is open. *)
Definition live (st : state) : Prop :=
  forall h, connection (fst st) = Some h -> handle_open h (snd st) = true.

(** The handles are tracked, and the call in progress, if there is one, is
    the only one and keeps them tracked to its end. *)
Definition orderly (s : system) : Prop :=
  tracked (now s) /\
  (idle s = true \/
   exists pre resume post,
     calls s = pre ++ Waiting resume :: post /\
     forallb is_done pre = true /\ forallb is_done post = true /\
     through tracked (fun _ st => tracked st) (Waiting resume) (now s)).

(** The calls [ops], each started after the one before has been resumed
    twelve times; the calls are numbered from [i]. *)
Fixpoint one_by_one (i : nat) (ops : list op) : list event :=
  match ops with
  | [] => []
  | o :: ops' => Start o :: repeat (Resume i) 12 ++ one_by_one (S i) ops'
  end.

(** The number of times [r] has to be resumed until it has finished. *)
Fixpoint turns {A} (r : suspended A) (st : state) : nat :=
  match r with
  | Done _ => 0
  | Waiting resume => S (turns (fst (resume st)) (snd (resume st)))
  end.

(** The calls [ops] one after another, each resumed to its end before the
    next is started; the calls are numbered from [i]. *)
Fixpoint serially (i : nat) (ops : list op) (st : state) : list event :=
  match ops with
  | [] => []
  | o :: ops' =>
      Start o ::
      repeat (Resume i) (turns (fst (op_async o st)) (snd (op_async o st))) ++
      serially (S i) ops' (snd (complete (op_async o) st))
  end.

Definition version_statement : sql :=
  SelectOptionValue (js "wp_options") (js "version").

(** Two queries in progress at the same time. *)
Definition overlapping_queries : list event :=
  [Start (OpQuery version_statement); Start (OpQuery version_statement);
   Resume 0; Resume 1; Resume 0; Resume 1; Resume 0; Resume 1].

(** No directory can be listed. *)
Definition no_listing : path -> option (list str) := fun _ => None.

(** A directory name: not empty, without separator, neither dot nor dot
    dot. *)
Definition plain_name (v : str) : Prop :=
  v <> [] /\ ~ In "/"%char v /\ v <> js "." /\ v <> js "..".

(** The site with the directory of theme t. *)
Definition fs_site_with_theme : filesystem :=
  fun p =>
    if path_eqb p (path_join site_path wp_config_php) then Some (File sample_config_content)
    else if path_eqb p theme_path then Some Directory
    else fs_theme p.

Definition theme_readdir : path -> option (list str) :=
  fun p => if path_eqb p theme_path then Some theme_listing else None.

Definition db_with_stylesheet : database :=
  {| db_prefix := js "wp_";
     db_options :=
       [ {| option_id := js "1"; option_name := js "stylesheet"; option_value := js "t" |} ];
     db_posts := [];
     db_like := fun _ _ => true |}.

(** A new manager in the site with theme t. *)
Definition theme_manager : state :=
  ({| config := None; connection := None |},
   {| fs := fs_site_with_theme;
      workspaceFolders := [site_path];
      server := fun _ => Some db_with_stylesheet;
      open_handles := [];
      next_handle := 0 |}).

(** * Properties *)

(** ** Strings *)

Lemma ascii_eqb_eq a b : ascii_eqb a b = true <-> a = b.
Proof.
  unfold ascii_eqb, code. rewrite N.eqb_eq. split; [|now intros ->].
  intros H. rewrite <- (ascii_N_embedding a), <- (ascii_N_embedding b). now rewrite H.
Qed.

Lemma ascii_eqb_refl a : ascii_eqb a a = true.
Proof. now apply ascii_eqb_eq. Qed.

Lemma str_eqb_eq s t : str_eqb s t = true <-> s = t.
Proof.
  revert t. induction s as [|a s IH]; intros [|b t]; simpl; try easy.
  rewrite andb_true_iff, ascii_eqb_eq, IH. split; [intros [-> ->]; easy|].
  intros H; now inversion H.
Qed.

Lemma str_eqb_refl s : str_eqb s s = true.
Proof. now apply str_eqb_eq. Qed.

Lemma str_eqb_neq s t : s <> t -> str_eqb s t = false.
Proof.
  intros H. destruct (str_eqb s t) eqn:E; [|easy]. now apply str_eqb_eq in E.
Qed.

Lemma starts_with_spec p s : starts_with p s = true <-> exists t, s = p ++ t.
Proof.
  revert s. induction p as [|a p IH]; intros s; simpl.
  - split; [eauto|easy].
  - destruct s as [|b s].
    + split; [easy|]. intros [t H]. discriminate.
    + rewrite andb_true_iff, ascii_eqb_eq, IH. split.
      * intros [-> [t ->]]. now exists t.
      * intros [t H]. inversion H; subst. eauto.
Qed.

(** [includes] is the substring test. *)
Lemma includes_spec s sub :
  includes s sub = true <-> exists pre post, s = pre ++ sub ++ post.
Proof.
  induction s as [|a s IH].
  - simpl. rewrite orb_false_r, starts_with_spec. split.
    + intros [t H]. now exists [], t.
    + intros [pre [post H]]. destruct pre; [eauto|discriminate].
  - cbn [includes]. rewrite orb_true_iff, starts_with_spec, IH. split.
    + intros [[t H]|[pre [post H]]].
      * now exists [], t.
      * exists (a :: pre), post. now rewrite H.
    + intros [pre [post H]]. destruct pre as [|b pre].
      * left. now exists post.
      * right. inversion H; subst. now exists pre, post.
Qed.

Lemma truthy_true s : truthy s = true <-> s <> [].
Proof. destruct s; simpl; split; congruence. Qed.

(** ** The matcher *)

Lemma consumed_app w s : consumed (w ++ s) s = w.
Proof.
  unfold consumed. rewrite length_app.
  replace (length w + length s - length s) with (length w) by lia.
  rewrite firstn_app, Nat.sub_diag, firstn_all. simpl. apply app_nil_r.
Qed.

Lemma matches_suffix r s s' c c' :
  matches r s s' c c' -> exists w, s = w ++ s'.
Proof.
  induction 1.
  - now exists [].
  - now exists [a].
  - destruct IHmatches1 as [w1 ->]. destruct IHmatches2 as [w2 ->].
    exists (w1 ++ w2). now rewrite app_assoc.
  - now exists [a].
  - now exists [].
  - now exists w.
  - assumption.
Qed.

Lemma matches_consumed r s s' c c' :
  matches r s s' c c' -> s = consumed s s' ++ s'.
Proof.
  intros H. destruct (matches_suffix H) as [w ->]. now rewrite consumed_app.
Qed.

Lemma rep_sound p min k s c o :
  rep p min k s c = Some o ->
  exists w s', s = w ++ s' /\ forallb p w = true /\ min <= length w /\ k s' c = Some o.
Proof.
  revert min. induction s as [|a s IH]; intros min H; simpl in H.
  - destruct min; [|discriminate]. exists [], []. auto.
  - destruct (p a) eqn:Pa.
    + destruct (rep p (pred min) k s c) eqn:E.
      * inversion H; subst. apply IH in E. destruct E as (w & s' & -> & Hw & Hm & Hk).
        exists (a :: w), s'. simpl. rewrite Pa, Hw. repeat split; auto. lia.
      * destruct min; [|discriminate]. exists [], (a :: s). auto.
    + destruct min; [|discriminate]. exists [], (a :: s). auto.
Qed.

Lemma rep_complete p min k w s c :
  forallb p w = true -> min <= length w -> k s c <> None ->
  rep p min k (w ++ s) c <> None.
Proof.
  revert min. induction w as [|a w IH]; intros min Hw Hm Hk; simpl in *.
  - assert (min = 0) by lia. subst. destruct s as [|a s]; simpl; auto.
    destruct (p a); auto. destruct (rep p 0 k s c); auto. discriminate.
  - apply andb_true_iff in Hw. destruct Hw as [Pa Hw]. rewrite Pa.
    specialize (IH (pred min) Hw ltac:(lia) Hk).
    destruct (rep p (pred min) k (w ++ s) c); [discriminate|contradiction].
Qed.

(** Every result of the matcher is a declarative match. *)
Lemma run_sound r : forall k s c o,
  run r k s c = Some o ->
  exists s' c', matches r s s' c c' /\ k s' c' = Some o.
Proof.
  induction r; intros k s c o H; simpl in H.
  - exists s, c. split; [constructor|assumption].
  - destruct s as [|a s]; [discriminate|]. destruct (p a) eqn:Pa; [|discriminate].
    exists s, c. split; [now constructor|assumption].
  - apply IHr1 in H. destruct H as (s1 & c1 & M1 & H).
    apply IHr2 in H. destruct H as (s2 & c2 & M2 & H).
    exists s2, c2. split; [econstructor; eassumption|assumption].
  - destruct s as [|a s].
    + exists [], c. split; [constructor|assumption].
    + destruct (p a) eqn:Pa.
      * destruct (k s c) eqn:E.
        -- inversion H; subst. exists s, c. split; [now constructor|assumption].
        -- exists (a :: s), c. split; [constructor|assumption].
      * exists (a :: s), c. split; [constructor|assumption].
  - apply rep_sound in H. destruct H as (w & s' & -> & Hw & Hm & Hk).
    exists s', c. split; [now constructor|assumption].
  - apply IHr in H. destruct H as (s' & c' & M1 & H).
    exists s', ((n, consumed s s') :: c'). split; [now constructor|assumption].
Qed.

(** The matcher finds a match whenever one exists. *)
Lemma run_complete r s s' c c' :
  matches r s s' c c' ->
  forall k, k s' c' <> None -> run r k s c <> None.
Proof.
  induction 1; intros k Hk; simpl; auto.
  - now rewrite H.
  - rewrite H. destruct (k s c); [discriminate|contradiction].
  - destruct s as [|a s]; auto. destruct (p a); auto.
    match goal with |- context [match ?x with _ => _ end] => destruct x end;
      [discriminate|assumption].
  - now apply rep_complete.
Qed.

Lemma match_here_sound r s s' c :
  match_here r s = Some (s', c) -> matches r s s' [] c.
Proof.
  unfold match_here. intros H. apply run_sound in H.
  destruct H as (s1 & c1 & M1 & H). unfold accept in H. now inversion H; subst.
Qed.

Lemma match_here_none r s :
  match_here r s = None <-> forall s' c, ~ matches r s s' [] c.
Proof.
  split.
  - intros H s' c Hm. apply (run_complete Hm accept); [discriminate|assumption].
  - intros H. destruct (match_here r s) as [[s' c]|] eqn:E; [|reflexivity].
    apply match_here_sound in E. now apply H in E.
Qed.

(** [exec] answers [null] exactly when the pattern matches at no position. *)
Lemma exec_none r s :
  exec r s = None <->
  forall pre t s' c, s = pre ++ t -> ~ matches r t s' [] c.
Proof.
  induction s as [|a s IH]; simpl.
  - destruct (match_here r []) as [[s' c]|] eqn:E.
    + split; [discriminate|]. intros H. apply match_here_sound in E.
      now apply (H [] [] s' c) in E.
    + split; [|reflexivity]. intros _ pre t s' c Hs.
      destruct pre; [|discriminate]. simpl in Hs. subst t.
      now apply match_here_none.
  - destruct (match_here r (a :: s)) as [[s' c]|] eqn:E.
    + split; [discriminate|]. intros H. apply match_here_sound in E.
      now apply (H [] (a :: s) s' c) in E.
    + rewrite IH. split.
      * intros H pre t s' c Hs. destruct pre as [|b pre].
        -- simpl in Hs. subst t. now apply match_here_none.
        -- inversion Hs; subst. now apply (H pre t).
      * intros H pre t s' c Hs. apply (H (a :: pre) t). now rewrite Hs.
Qed.

(** A result of [exec] is the leftmost match. *)
Lemma exec_some r s m :
  exec r s = Some m ->
  exists pre t,
    s = pre ++ t /\
    matches r t (m_after m) [] (m_groups m) /\
    t = m_text m ++ m_after m /\
    (forall p1 p2, pre = p1 ++ p2 -> p2 <> [] -> match_here r (p2 ++ t) = None).
Proof.
  induction s as [|a s IH]; simpl.
  - destruct (match_here r []) as [[s' c]|] eqn:E; [|discriminate].
    intros H; inversion H; subst; clear H. simpl.
    apply match_here_sound in E. exists [], []. repeat split; auto.
    + now apply (matches_consumed E).
    + intros p1 p2 Hp. destruct p1; destruct p2; try discriminate. congruence.
  - destruct (match_here r (a :: s)) as [[s' c]|] eqn:E.
    + intros H; inversion H; subst; clear H. simpl.
      apply match_here_sound in E. exists [], (a :: s). repeat split; auto.
      * now apply (matches_consumed E).
      * intros p1 p2 Hp. destruct p1; destruct p2; try discriminate. congruence.
    + intros H. apply IH in H. destruct H as (pre & t & -> & Hm & Ht & Hl).
      exists (a :: pre), t. repeat split; auto.
      intros p1 p2 Hp Hn. destruct p1 as [|b p1].
      * simpl in Hp. subst p2. exact E.
      * inversion Hp; subst. now apply (Hl p1 p2).
Qed.

(** When the pattern matches at the head of [t] and nowhere earlier, [exec]
    answers with a match at [t]. *)
Lemma exec_leftmost r pre t :
  (forall p1 p2, pre = p1 ++ p2 -> p2 <> [] -> match_here r (p2 ++ t) = None) ->
  exec r (pre ++ t) = exec r t.
Proof.
  induction pre as [|a pre IH]; intros H; [reflexivity|].
  pose proof (H [] (a :: pre) eq_refl ltac:(discriminate)) as E.
  simpl in *. rewrite E.
  apply IH. intros p1 p2 Hp Hn. apply (H (a :: p1) p2); [now rewrite Hp|assumption].
Qed.

(** ** wp-config-finder *)

Section Locator.

Variable fsys : filesystem.

Local Arguments dirname : simpl never.

Lemma dirname_length p : length (dirname p) = pred (length p).
Proof.
  unfold dirname. induction p as [|a [|b p] IH]; simpl in *; auto.
Qed.

Lemma path_eqb_dirname d ds : path_eqb (dirname (d :: ds)) (d :: ds) = false.
Proof.
  unfold path_eqb. rewrite dirname_length. simpl.
  replace (length ds =? S (length ds)) with false; [reflexivity|].
  symmetry. apply Nat.eqb_neq. lia.
Qed.

(** One turn of the loop, for a directory other than the root. *)
Lemma loop_step p :
  p <> [] ->
  findWordPressConfig_loop fsys p =
    if marker_at fsys p then (Some (path_join p wp_config_php), [p])
    else (fst (findWordPressConfig_loop fsys (dirname p)),
          p :: snd (findWordPressConfig_loop fsys (dirname p))).
Proof.
  destruct p as [|d ds]; [congruence|]. intros _.
  simp findWordPressConfig_loop. unfold marker_at.
  destruct (existsAsync fsys (path_join (d :: ds) wp_config_php)); simpl; [reflexivity|].
  rewrite path_eqb_dirname. reflexivity.
Qed.

Lemma loop_root : findWordPressConfig_loop fsys [] = (None, []).
Proof. now simp findWordPressConfig_loop. Qed.

Lemma ancestor_length d p : length (ancestor d p) = length p - d.
Proof.
  revert p. induction d as [|d IH]; intros p; simpl; [lia|].
  rewrite IH, dirname_length. lia.
Qed.

Lemma ancestors_shift d p :
  map (fun j => ancestor j (dirname p)) (seq 0 d) = map (fun j => ancestor j p) (seq 1 d).
Proof.
  rewrite <- seq_shift, map_map. reflexivity.
Qed.

(** The search stops at the nearest marker below the root. *)
Lemma loop_found d : forall start,
  d < length start ->
  marker_at fsys (ancestor d start) = true ->
  (forall j, j < d -> marker_at fsys (ancestor j start) = false) ->
  findWordPressConfig_loop fsys start =
    (Some (path_join (ancestor d start) wp_config_php),
     map (fun j => ancestor j start) (seq 0 (S d))).
Proof.
  induction d as [|d IH]; intros start Hd Hm Hn.
  - simpl in *. rewrite loop_step by (destruct start; simpl in *; [lia|congruence]).
    now rewrite Hm.
  - rewrite loop_step by (destruct start; simpl in *; [lia|congruence]).
    pose proof (Hn 0 ltac:(lia)) as H0. cbn [ancestor] in H0. rewrite H0.
    rewrite (IH (dirname start)).
    + cbn [fst snd]. f_equal. cbn [seq map]. f_equal.
      change (ancestor 0 (dirname start) :: map (fun j => ancestor j (dirname start)) (seq 1 d))
        with (map (fun j => ancestor j (dirname start)) (seq 0 (S d))).
      apply ancestors_shift.
    + rewrite dirname_length. lia.
    + exact Hm.
    + intros j Hj. apply (Hn (S j)). lia.
Qed.

(** Without a marker below the root the search examines every directory
    below the root and answers [null]. *)
Lemma loop_not_found : forall n start,
  length start = n ->
  (forall j, j < length start -> marker_at fsys (ancestor j start) = false) ->
  findWordPressConfig_loop fsys start =
    (None, map (fun j => ancestor j start) (seq 0 (length start))).
Proof.
  induction n as [|n IH]; intros start Hl Hn.
  - destruct start; [|discriminate]. apply loop_root.
  - rewrite loop_step by (destruct start; [discriminate|congruence]).
    pose proof (Hn 0 ltac:(lia)) as H0. cbn [ancestor] in H0. rewrite H0.
    rewrite (IH (dirname start)).
    + cbn [fst snd]. rewrite dirname_length, Hl. cbn [pred seq map]. f_equal. f_equal.
      apply ancestors_shift.
    + rewrite dirname_length. lia.
    + rewrite dirname_length. intros j Hj. apply (Hn (S j)). lia.
Qed.

(** Among the depths up to [d] that carry a marker there is a least one. *)
Lemma nearest_marker start d :
  marker_at fsys (ancestor d start) = true ->
  exists d', d' <= d /\ marker_at fsys (ancestor d' start) = true /\
             forall j, j < d' -> marker_at fsys (ancestor j start) = false.
Proof.
  induction d as [d IH] using lt_wf_ind. intros Hm.
  destruct (forallb (fun j => negb (marker_at fsys (ancestor j start))) (seq 0 d)) eqn:E.
  - exists d. repeat split; auto. intros j Hj.
    rewrite forallb_forall in E. specialize (E j). rewrite in_seq in E.
    apply negb_true_iff, E. lia.
  - assert (exists j, j < d /\ marker_at fsys (ancestor j start) = true) as (j & Hj & Hmj).
    { clear -E. induction d as [|d IH].
      - discriminate.
      - rewrite seq_S, forallb_app in E. simpl in E.
        destruct (forallb (fun j => negb (marker_at fsys (ancestor j start))) (seq 0 d)).
        + exists d. split; [lia|]. simpl in E. rewrite andb_true_r in E.
          now apply negb_false_iff in E.
        + destruct IH as (j & Hj & Hmj); [reflexivity|]. exists j. split; [lia|assumption]. }
    destruct (IH j Hj Hmj) as (d' & Hd' & Hm' & Hn').
    exists d'. repeat split; auto. lia.
Qed.

End Locator.

(** C1, as amended. A [wp-config.php] at depth [d] of the ancestor chain, in
    a directory other than the file-system root, makes the search return the
    path of the nearest such file, at some depth [d' <= d] (which is [d]
    itself when no nearer one exists), after examining exactly the [d' + 1]
    directories from the start path up to it; and when no directory of the
    chain below the root holds the file, the search returns [null] (the root
    directory itself is never examined). *)
Theorem C1_locate_nearest_below_root (f : filesystem) (start : path) :
  (forall d,
     d < length start ->
     marker_at f (ancestor d start) = true ->
     exists d',
       d' <= d /\
       (forall j, j < d' -> marker_at f (ancestor j start) = false) /\
       ((forall j, j < d -> marker_at f (ancestor j start) = false) -> d' = d) /\
       findWordPressConfig f start = Some (path_join (ancestor d' start) wp_config_php) /\
       examined f start = map (fun j => ancestor j start) (seq 0 (S d')) /\
       length (examined f start) <= d + 1) /\
  ((forall d, d < length start -> marker_at f (ancestor d start) = false) ->
   findWordPressConfig f start = None /\
   ~ In [] (examined f start)).
Proof.
  split.
  - intros d Hd Hm.
    destruct (nearest_marker f start d Hm) as (d' & Hle & Hm' & Hn').
    exists d'. unfold findWordPressConfig, examined.
    rewrite (@loop_found f d' start) by (auto; lia). cbn [fst snd].
    repeat split; auto.
    + intros Hn. destruct (Nat.eq_dec d' d) as [|Hne]; [assumption|].
      rewrite (Hn d') in Hm' by lia. discriminate.
    + rewrite length_map, length_seq. lia.
  - intros Hn. unfold findWordPressConfig, examined.
    rewrite (@loop_not_found f (length start) start eq_refl Hn). cbn [fst snd].
    split; [reflexivity|].
    rewrite in_map_iff. intros (j & Hj & Hin). apply in_seq in Hin.
    apply (f_equal (@length str)) in Hj. rewrite ancestor_length in Hj. simpl in Hj. lia.
Qed.

Lemma C1_locate_witness :
  (exists d',
     d' <= 2 /\
     (forall j, j < d' -> marker_at fs_marker_in_a (ancestor j [dir_a; dir_b; dir_c]) = false) /\
     ((forall j, j < 2 -> marker_at fs_marker_in_a (ancestor j [dir_a; dir_b; dir_c]) = false) ->
      d' = 2) /\
     findWordPressConfig fs_marker_in_a [dir_a; dir_b; dir_c] =
       Some (path_join (ancestor d' [dir_a; dir_b; dir_c]) wp_config_php) /\
     examined fs_marker_in_a [dir_a; dir_b; dir_c] =
       map (fun j => ancestor j [dir_a; dir_b; dir_c]) (seq 0 (S d')) /\
     length (examined fs_marker_in_a [dir_a; dir_b; dir_c]) <= 2 + 1) /\
  (findWordPressConfig fs_empty [dir_a; dir_b; dir_c] = None /\
   ~ In [] (examined fs_empty [dir_a; dir_b; dir_c])).
Proof.
  split.
  - apply (proj1 (C1_locate_nearest_below_root fs_marker_in_a [dir_a; dir_b; dir_c]) 2).
    + simpl. lia.
    + reflexivity.
  - apply (proj2 (C1_locate_nearest_below_root fs_empty [dir_a; dir_b; dir_c])).
    intros d _. reflexivity.
Defined.

(** C1 as stated fails: with [wp-config.php] in the root directory, at depth
    1 of the ancestor chain of [/a], the search answers [null]. *)
Lemma C1_marker_in_root_not_found :
  marker_at fs_marker_in_root (ancestor 1 [dir_a]) = true /\
  findWordPressConfig fs_marker_in_root [dir_a] = None.
Proof. split; reflexivity. Qed.

(** ** The intent dispatch *)

Lemma includes_lower_mentions s kw :
  includes (toLowerCase s) kw = true <-> mentions s kw.
Proof.
  rewrite includes_spec. unfold mentions, toLowerCase. split.
  - intros (pre & post & H).
    apply map_eq_app in H. destruct H as (s1 & s2 & -> & H1 & H2).
    apply map_eq_app in H2. destruct H2 as (s3 & s4 & -> & H3 & H4).
    now exists s1, s3, s4.
  - intros (pre & mid & post & -> & H).
    exists (map lower_char pre), (map lower_char post).
    now rewrite !map_app, H.
Qed.

Lemma includes_lower_not_mentions s kw :
  includes (toLowerCase s) kw = false <-> ~ mentions s kw.
Proof.
  rewrite <- includes_lower_mentions. destruct (includes (toLowerCase s) kw); split; congruence.
Qed.

Ltac decide_mentions :=
  repeat match goal with
  | |- context [includes (toLowerCase ?s) ?kw] =>
      let E := fresh "E" in
      destruct (includes (toLowerCase s) kw) eqn:E;
      [apply includes_lower_mentions in E | apply includes_lower_not_mentions in E]
  end.

(** C5. The dispatch is a function into the five intents, decided by the
    first rule that applies, each rule testing whether a keyword occurs in
    the prompt up to letter case: database, db, username or wp-config give
    [database_info] (whatever else the prompt holds, theme included);
    otherwise theme gives [theme_info]; otherwise plugin gives
    [plugin_info]; otherwise post type or cpt give [custom_post_types];
    otherwise, the empty prompt included, [general_info]. *)
Theorem C5_classify_first_match (prompt : str) :
  let has kw := mentions prompt (js kw) in
  let db := has "database"%string \/ has "db"%string \/
            has "username"%string \/ has "wp-config"%string in
  let cpt := has "post type"%string \/ has "cpt"%string in
  In (classify prompt)
     [database_info; theme_info; plugin_info; custom_post_types; general_info] /\
  (db -> classify prompt = database_info) /\
  (~ db -> has "theme"%string -> classify prompt = theme_info) /\
  (~ db -> ~ has "theme"%string -> has "plugin"%string ->
   classify prompt = plugin_info) /\
  (~ db -> ~ has "theme"%string -> ~ has "plugin"%string -> cpt ->
   classify prompt = custom_post_types) /\
  (~ db -> ~ has "theme"%string -> ~ has "plugin"%string -> ~ cpt ->
   classify prompt = general_info) /\
  classify [] = general_info.
Proof.
  cbv zeta. split; [|split; [|split; [|split; [|split; [|split]]]]].
  - unfold classify.
    repeat match goal with |- context [if ?b then _ else _] => destruct b end;
      simpl; tauto.
  - unfold classify. intros Hdb. decide_mentions; simpl; try reflexivity; tauto.
  - unfold classify. intros Hdb Ht. decide_mentions; simpl; try reflexivity; tauto.
  - unfold classify. intros Hdb Ht Hp. decide_mentions; simpl; try reflexivity; tauto.
  - unfold classify. intros Hdb Ht Hp Hc. decide_mentions; simpl; try reflexivity; tauto.
  - unfold classify. intros Hdb Ht Hp Hc. decide_mentions; simpl; try reflexivity; tauto.
  - reflexivity.
Qed.

Ltac mentioned := apply includes_lower_mentions; reflexivity.
Ltac unmentioned :=
  repeat match goal with
         | |- ~ (_ \/ _) => let H := fresh in intros [H|H]; revert H
         | |- (_ \/ _) -> False => let H := fresh in intros [H|H]; revert H
         end;
  try (apply includes_lower_not_mentions; reflexivity).

Lemma C5_classify_witness :
  classify (js "Which DB does the Theme use?") = database_info /\
  classify (js "What THEME is active?") = theme_info /\
  classify (js "list plugins") = plugin_info /\
  classify (js "show every Post Type") = custom_post_types /\
  classify (js "hello") = general_info.
Proof.
  split; [|split; [|split; [|split]]].
  - apply (proj1 (proj2 (C5_classify_first_match (js "Which DB does the Theme use?")))).
    right; left. mentioned.
  - apply (proj1 (proj2 (proj2 (C5_classify_first_match (js "What THEME is active?"))))).
    + unmentioned.
    + mentioned.
  - apply (proj1 (proj2 (proj2 (proj2 (C5_classify_first_match (js "list plugins")))))).
    + unmentioned.
    + unmentioned.
    + mentioned.
  - apply (proj1 (proj2 (proj2 (proj2 (proj2
             (C5_classify_first_match (js "show every Post Type"))))))).
    + unmentioned.
    + unmentioned.
    + unmentioned.
    + left. mentioned.
  - apply (proj1 (proj2 (proj2 (proj2 (proj2 (proj2
             (C5_classify_first_match (js "hello")))))))).
    + unmentioned.
    + unmentioned.
    + unmentioned.
    + unmentioned.
Defined.

(** ** Splitting and trimming *)

Lemma split_not_nil sep s : split sep s <> [].
Proof.
  destruct s as [|a s]; simpl; [discriminate|].
  destruct (ascii_eqb a sep); [discriminate|].
  destruct (split sep s); discriminate.
Qed.

Lemma join_split sep s : join sep (split sep s) = s.
Proof.
  induction s as [|a s IH]; [reflexivity|].
  simpl. destruct (ascii_eqb a sep) eqn:E.
  - apply ascii_eqb_eq in E. subst a.
    pose proof (split_not_nil sep s) as Hn.
    simpl. destruct (split sep s) as [|seg segs]; [contradiction|].
    now rewrite IH.
  - pose proof (split_not_nil sep s) as Hn.
    destruct (split sep s) as [|seg segs]; [contradiction|].
    simpl in *. destruct segs; simpl in *; now rewrite IH.
Qed.

Lemma split_no_sep sep s : Forall (fun seg => ~ In sep seg) (split sep s).
Proof.
  induction s as [|a s IH]; simpl.
  - constructor; [easy|constructor].
  - destruct (ascii_eqb a sep) eqn:E.
    + constructor; [easy|assumption].
    + destruct (split sep s) as [|seg segs]; [repeat constructor; simpl; intros [->|[]] |].
      * now rewrite ascii_eqb_refl in E.
      * inversion IH; subst. constructor; [|assumption].
        simpl. intros [->|H]; [now rewrite ascii_eqb_refl in E|contradiction].
Qed.

Lemma drop_spaces_nil s : drop_spaces s = [] <-> blank s = true.
Proof.
  unfold blank. induction s as [|a s IH]; simpl; [easy|].
  destruct (is_space a); simpl; [assumption|easy].
Qed.

Lemma blank_drop_spaces s : blank (drop_spaces s) = blank s.
Proof.
  unfold blank. induction s as [|a s IH]; simpl; [reflexivity|].
  destruct (is_space a) eqn:E; simpl; [assumption|now rewrite E].
Qed.

Lemma blank_rev s : blank (rev s) = blank s.
Proof.
  unfold blank. induction s as [|a s IH]; simpl; [reflexivity|].
  rewrite forallb_app, IH. simpl. rewrite andb_true_r. apply andb_comm.
Qed.

(** [p.trim().length > 0] holds exactly for the segments that are not blank. *)
Lemma trim_nonempty p : Nat.ltb 0 (length (trim p)) = negb (blank p).
Proof.
  unfold trim. rewrite length_rev.
  destruct (drop_spaces (rev (drop_spaces p))) as [|a l] eqn:E.
  - apply drop_spaces_nil in E. rewrite blank_rev, blank_drop_spaces in E. now rewrite E.
  - assert (blank p <> true) as H.
    { intros Hb. rewrite <- blank_drop_spaces, <- blank_rev in Hb.
      apply drop_spaces_nil in Hb. congruence. }
    destruct (blank p); [congruence|reflexivity].
Qed.

Lemma split_plugins_spec v :
  split_plugins v = filter (fun seg => negb (blank seg)) (split ";"%char v).
Proof.
  unfold split_plugins. apply filter_ext. intros p. apply trim_nonempty.
Qed.

(** ** Queries of a configured manager *)

Lemma ensure_config_some st cfg :
  config (fst st) = Some cfg -> ensure_config st = (Some cfg, st).
Proof.
  intros H. unfold ensure_config, bind, get_config. now rewrite H.
Qed.

Lemma ensure_config_result st :
  fst (ensure_config st) = config (fst (snd (ensure_config st))).
Proof.
  unfold ensure_config, bind, get_config.
  destruct (config (fst st)) eqn:E; simpl; [now rewrite E|].
  destruct (manager_findWordPressConfig st); reflexivity.
Qed.

Lemma query_configured st cfg q :
  config (fst st) = Some cfg ->
  fst (query q st) =
    match reachable_db cfg st with
    | Some db =>
        match run_sql db q with
        | Some rows => inr rows
        | None => inl QueryFailed
        end
    | None => inl ConnectionNotEstablished
    end.
Proof.
  intros H. destruct st as [[cf cn] w]. simpl in H. subst cf.
  unfold query, reachable_db, bind, get_connection. simpl.
  destruct cn as [h|]; simpl.
  - destruct (run_sql (conn_db h) q); reflexivity.
  - unfold connectToDatabase, bind. rewrite (@ensure_config_some _ cfg) by reflexivity.
    unfold get_world. simpl.
    destruct (server w _) as [db|]; simpl; [|reflexivity].
    destruct (run_sql db q); reflexivity.
Qed.

Lemma select_option_value db cfg name :
  db_prefix db = tablePrefix cfg ->
  run_sql db (SelectOptionValue (tablePrefix cfg ++ js "options") name) =
    Some (map (fun v => [(js "option_value", v)]) (option_values db name)).
Proof.
  intros H. simpl. rewrite H, str_eqb_refl. unfold option_values. now rewrite map_map.
Qed.

(** What the readers see of an option: the value of its first row. *)
Lemma read_option st cfg db name :
  config (fst st) = Some cfg ->
  reachable_db cfg st = Some db ->
  db_prefix db = tablePrefix cfg ->
  fst (query (SelectOptionValue (tablePrefix cfg ++ js "options") name) st) =
    inr (map (fun v => [(js "option_value", v)]) (option_values db name)).
Proof.
  intros Hc Hr Hp. rewrite (query_configured _ _ Hc), Hr.
  now rewrite select_option_value.
Qed.

Lemma bind_fst {A B} (c : M A) (k : A -> M B) st :
  fst (bind c k st) = fst (k (fst (c st)) (snd (c st))).
Proof. unfold bind. now destruct (c st). Qed.

(** C9. When the manager has (or finds) its configuration and reaches its
    database,
    [getActivePlugins] returns the segments of the first stored
    [active_plugins] value cut at every semicolon, without the segments that
    are empty or hold white space only, in their order; the stored value
    a/a.php;b/b.php; gives the two plugin files. *)
Theorem C9_active_plugins_split (st : state) (cfg : WordPressConfig) (db : database)
    (v : str) (rest : list str) :
  serves cfg db st ->
  option_values db (js "active_plugins") = v :: rest ->
  fst (getActivePlugins st) = filter (fun seg => negb (blank seg)) (split ";"%char v) /\
  join ";"%char (split ";"%char v) = v /\
  Forall (fun seg => ~ In ";"%char seg) (split ";"%char v) /\
  split_plugins (js "a/a.php;b/b.php;") = [js "a/a.php"; js "b/b.php"].
Proof.
  intros (Hc & Hr & Hp) Hv. split; [|split; [|split]].
  - assert (config (fst (snd (ensure_config st))) = Some cfg) as Hc1
      by now rewrite <- ensure_config_result.
    unfold getActivePlugins. rewrite bind_fst, Hc.
    rewrite bind_fst, (read_option _ _ Hc1 Hr Hp), Hv. cbn [map].
    cbn [ret fst]. rewrite <- split_plugins_spec. reflexivity.
  - apply join_split.
  - apply split_no_sep.
  - reflexivity.
Qed.

(** ** Running the matcher on inputs of a known shape *)

Lemma same_char_exact a b : same_char false a b = true <-> a = b.
Proof. apply ascii_eqb_eq. Qed.

Lemma same_char_refl ci a : same_char ci a a = true.
Proof. destruct ci; simpl; [apply N.eqb_refl|apply ascii_eqb_refl]. Qed.

Lemma run_lit w : forall k s c, run (lit false w) k (w ++ s) c = k s c.
Proof.
  induction w as [|a w IH]; intros k s c; [reflexivity|].
  simpl. unfold ascii_eqb. rewrite N.eqb_refl. apply IH.
Qed.

Lemma run_lit_ci w w' :
  same_text w w' -> forall k s c, run (lit true w) k (w' ++ s) c = k s c.
Proof.
  induction 1 as [|a b w w' Hab _ IH]; intros k s c; [reflexivity|].
  simpl in *. rewrite Hab. apply IH.
Qed.

(** A greedy repetition that can take all of [w] and then go on does so. *)
Lemma rep_greedy p min k w s c o :
  forallb p w = true -> min <= length w -> stops p s = true ->
  k s c = Some o ->
  rep p min k (w ++ s) c = Some o.
Proof.
  revert min. induction w as [|a w IH]; intros min Hw Hm Hs Hk; simpl in *.
  - assert (min = 0) by lia. subst. destruct s as [|a s]; [assumption|].
    simpl in Hs. apply negb_true_iff in Hs. cbn [rep]. now rewrite Hs.
  - apply andb_true_iff in Hw. destruct Hw as [Pa Hw]. rewrite Pa.
    now rewrite (IH (pred min)) by (auto; lia).
Qed.

Lemma run_rep p min k w s c o :
  forallb p w = true -> min <= length w -> stops p s = true ->
  k s c = Some o ->
  run (Rep min p) k (w ++ s) c = Some o.
Proof. apply rep_greedy. Qed.

Lemma run_grp_rep n p min k w s c o :
  forallb p w = true -> min <= length w -> stops p s = true ->
  k s ((n, w) :: c) = Some o ->
  run (Grp n (Rep min p)) k (w ++ s) c = Some o.
Proof.
  intros Hw Hm Hs Hk. simpl. apply rep_greedy; auto. now rewrite consumed_app.
Qed.

Lemma exec_here r s s' c :
  match_here r s = Some (s', c) ->
  exec r s = Some (MatchResult (consumed s s') c s').
Proof. intros H. destruct s; simpl; now rewrite H. Qed.

(** Inversion of a declarative match, atom by atom. *)
Ltac inv_matches :=
  repeat match goal with
         | H : matches (Seq _ _) _ _ _ _ |- _ => inversion H; subst; clear H
         | H : matches Eps _ _ _ _ |- _ => inversion H; subst; clear H
         | H : matches (Chr _) _ _ _ _ |- _ => inversion H; subst; clear H
         | H : matches (Grp _ _) _ _ _ _ |- _ => inversion H; subst; clear H
         | H : matches (Rep _ _) _ _ _ _ |- _ => inversion H; subst; clear H
         | H : matches (Opt _) _ _ _ _ |- _ => inversion H; subst; clear H
         end.

Lemma none_of_exact set a : none_of false set a = true <-> ~ In a set.
Proof.
  unfold none_of, one_of. rewrite negb_true_iff. split.
  - intros H Hin. assert (existsb (fun x => same_char false x a) set = true); [|congruence].
    apply existsb_exists. exists a. split; [assumption|now apply same_char_exact].
  - intros H. destruct (existsb _ set) eqn:E; [|reflexivity].
    apply existsb_exists in E. destruct E as (x & Hin & Hx).
    apply same_char_exact in Hx. now subst.
Qed.

Lemma forallb_none_of_exact set w :
  forallb (none_of false set) w = true <-> forall a, In a set -> ~ In a w.
Proof.
  rewrite forallb_forall. split.
  - intros H a Ha Hw. apply H in Hw. apply none_of_exact in Hw. contradiction.
  - intros H a Hw. apply none_of_exact. intros Ha. now apply (H a).
Qed.

Lemma none_of_ci_not_in set w :
  forallb (none_of true set) w = true -> forall x, In x set -> ~ In x w.
Proof.
  rewrite forallb_forall. intros H x Hx Hw. specialize (H x Hw).
  unfold none_of, one_of in H. apply negb_true_iff in H.
  assert (existsb (fun a => same_char true a x) set = true); [|congruence].
  apply existsb_exists. exists x. split; [assumption|apply same_char_refl].
Qed.

(** ** Custom post types *)

(** The texts matched by the global pattern are serialized string entries. *)
Lemma cpt_match_shape t s' c c' :
  matches cpt_regex_g t s' c c' ->
  exists part, token_ok part /\ t = token_text part ++ s'.
Proof.
  unfold cpt_regex_g, digits1, chr. cbn [sequence lit js list_ascii_of_string].
  intros H. inv_matches.
  repeat match goal with
         | H : same_char false _ _ = true |- _ => apply same_char_exact in H; subst
         end.
  match goal with
  | Hd : forallb is_digit ?ds = true, Hv : forallb (none_of false [dquote]) ?val = true |- _ =>
      exists (ds, val)
  end.
  split.
  - unfold token_ok. cbn [fst snd]. repeat split; auto.
    + intros ->. simpl in *. lia.
    + intros ->. simpl in *. lia.
    + match goal with
      | Hv : forallb (none_of false [dquote]) _ = true |- _ =>
          rewrite forallb_none_of_exact in Hv; apply Hv; now left
      end.
  - unfold token_text. cbn [fst snd js list_ascii_of_string].
    repeat (rewrite <- app_assoc; cbn [app]). reflexivity.
Qed.

(** The second pattern recovers the value of an entry. *)
Lemma cpt_value part :
  token_ok part ->
  exec cpt_regex (token_text part) =
    Some (MatchResult (token_text part) [(1, snd part)] []).
Proof.
  destruct part as [ds val]. unfold token_ok. cbn [fst snd].
  intros (Hd0 & Hd & Hv0 & Hv).
  assert (match_here cpt_regex (token_text (ds, val)) = Some ([], [(1, val)])) as H.
  { unfold match_here, cpt_regex, token_text, digits1, chr. cbn [sequence fst snd].
    cbn [run]. rewrite run_lit.
    apply rep_greedy; auto.
    - destruct ds; [congruence|simpl; lia].
    - rewrite run_lit.
      replace (val ++ [dquote]) with (val ++ [dquote] ++ []) by reflexivity.
      apply rep_greedy.
      + apply forallb_none_of_exact. intros a [<-|[]]. assumption.
      + destruct val; [congruence|simpl; lia].
      + reflexivity.
      + cbn [app]. rewrite consumed_app. reflexivity. }
  rewrite (exec_here _ _ H). f_equal. f_equal.
  rewrite <- (app_nil_r (token_text (ds, val))) at 1. apply consumed_app.
Qed.

Lemma cpt_names_values parts :
  Forall token_ok parts -> cpt_names (map token_text parts) = map snd parts.
Proof.
  induction 1 as [|part parts Hp _ IH]; [reflexivity|].
  unfold cpt_names in *. cbn [map flat_map]. rewrite (cpt_value Hp).
  cbn [group m_groups capture Nat.eqb app]. now rewrite IH.
Qed.

Lemma exec_after_shorter r s m :
  exec r s = Some m -> length (m_text m) + length (m_after m) <= length s.
Proof.
  intros H. apply exec_some in H. destruct H as (pre & t & -> & _ & -> & _).
  rewrite !length_app. lia.
Qed.

(** The fuel of [match_all] is never exhausted. *)
Lemma match_all_fuel_enough r fuel1 : forall fuel2 s,
  length s < fuel1 -> length s < fuel2 ->
  match_all_fuel fuel1 r s = match_all_fuel fuel2 r s.
Proof.
  induction fuel1 as [|fuel1 IH]; intros fuel2 s H1 H2; [lia|].
  destruct fuel2 as [|fuel2]; [lia|].
  simpl. destruct (exec r s) as [m|] eqn:E; [|reflexivity].
  apply exec_after_shorter in E. f_equal.
  destruct (m_text m) as [|a tx]; [destruct (m_after m) as [|b rest]; [reflexivity|]|];
    apply IH; simpl in *; lia.
Qed.

Lemma query_keeps st cfg db q :
  config (fst st) = Some cfg ->
  reachable_db cfg st = Some db ->
  config (fst (snd (query q st))) = Some cfg /\
  reachable_db cfg (snd (query q st)) = Some db.
Proof.
  destruct st as [[cf cn] w]. unfold reachable_db. simpl. intros -> Hr.
  unfold query, bind, get_connection. simpl.
  destruct cn as [h|]; simpl.
  - destruct (run_sql (conn_db h) q); simpl; auto.
  - unfold connectToDatabase, bind. rewrite (@ensure_config_some _ cfg) by reflexivity.
    unfold get_world. simpl. rewrite Hr. simpl.
    destruct (run_sql db q); simpl; auto.
Qed.

Lemma mem_str_In t l : mem_str t l = true <-> In t l.
Proof.
  unfold mem_str. rewrite existsb_exists. split.
  - intros (x & Hin & Hx). apply str_eqb_eq in Hx. now subst.
  - intros H. exists t. split; [assumption|apply str_eqb_refl].
Qed.

Lemma In_firstn {A} (x : A) (l : list A) : forall n, In x (firstn n l) -> In x l.
Proof.
  induction l as [|a l IH]; intros [|n] H; simpl in *; try contradiction.
  destruct H as [->|H]; [now left|right; eauto].
Qed.

Lemma NoDup_firstn_keeps {A} (l : list A) : forall n, NoDup l -> NoDup (firstn n l).
Proof.
  induction l as [|a l IH]; intros [|n] H; simpl; try constructor.
  - inversion H; subst. intros Hin. apply In_firstn in Hin. contradiction.
  - inversion H; subst. now apply IH.
Qed.

Lemma posts_fallback_result st cfg db :
  config (fst st) = Some cfg ->
  reachable_db cfg st = Some db ->
  db_prefix db = tablePrefix cfg ->
  fst (posts_fallback cfg st) =
    firstn 20 (nodup str_eq_dec
                 (filter (fun t => negb (mem_str t builtin_post_types)) (db_posts db))).
Proof.
  intros Hc Hr Hp. unfold posts_fallback.
  rewrite bind_fst, (query_configured _ _ Hc), Hr.
  cbn [run_sql]. rewrite Hp, str_eqb_refl. cbn [ret fst].
  rewrite map_map. rewrite <- map_id. apply map_ext. reflexivity.
Qed.

Lemma nonempty_tails_suffix pre : forall p1 p2,
  pre = p1 ++ p2 -> p2 <> [] -> In p2 (nonempty_tails pre).
Proof.
  induction pre as [|a pre IH]; intros p1 p2 Hp Hn.
  - destruct p1; destruct p2; try discriminate. congruence.
  - destruct p1 as [|b p1]; simpl in Hp.
    + subst p2. now left.
    + inversion Hp; subst. right. now apply (IH p1).
Qed.

Lemma token_matches part post :
  token_ok part ->
  match_here cpt_regex_g (token_text part ++ post) =
    Some (post, [(2, snd part); (1, fst part)]).
Proof.
  destruct part as [ds val]. unfold token_ok. cbn [fst snd].
  intros (Hd0 & Hd & Hv0 & Hv).
  unfold match_here, cpt_regex_g, token_text, digits1, chr. cbn [sequence fst snd].
  repeat (progress (rewrite <- ?app_assoc; cbn [app])). cbn [run]. 
  change ("s"%char :: ":"%char :: ds ++ ":"%char :: dquote :: val ++ dquote :: post)
    with (js "s:" ++ ds ++ ":"%char :: dquote :: val ++ dquote :: post).
  rewrite run_lit.
  apply rep_greedy; auto.
  - destruct ds; [congruence|simpl; lia].
  - cbv beta. rewrite consumed_app.
    change (":"%char :: dquote :: val ++ dquote :: post)
      with ([":"%char; dquote] ++ val ++ dquote :: post).
    rewrite run_lit.
    apply rep_greedy.
    + apply forallb_none_of_exact. intros a [<-|[]]. assumption.
    + destruct val; [congruence|simpl; lia].
    + reflexivity.
    + cbv beta. rewrite consumed_app. cbn [run]. rewrite same_char_refl. reflexivity.
Qed.

Lemma entry_starts_matches t :
  entry_starts t <-> match_here cpt_regex_g t <> None.
Proof.
  split.
  - intros (part & post & Hok & ->). now rewrite (@token_matches part post Hok).
  - intros H. destruct (match_here cpt_regex_g t) as [[s' c]|] eqn:E; [|congruence].
    apply match_here_sound in E. apply cpt_match_shape in E.
    destruct E as (part & Hok & ->). now exists part, s'.
Qed.

Lemma holds_entry_exec content :
  holds_entry content <-> exec cpt_regex_g content <> None.
Proof.
  split.
  - intros (pre & t & -> & Hs) E. apply entry_starts_matches in Hs.
    rewrite exec_none in E. apply Hs. apply match_here_none. intros s' c. now apply (E pre t).
  - intros H. destruct (exec cpt_regex_g content) as [m|] eqn:E; [|congruence].
    apply exec_some in E. destruct E as (pre & t & -> & Hm & _).
    exists pre, t. split; [reflexivity|]. apply entry_starts_matches.
    intros Hn. exact (proj1 (match_here_none cpt_regex_g t) Hn _ _ Hm).
Qed.

(** The global match, as a scan for entries. *)
Lemma match_all_fuel_entries fuel : forall v,
  length v < fuel ->
  exists parts, entries v parts /\ match_all_fuel fuel cpt_regex_g v = map token_text parts.
Proof.
  induction fuel as [|fuel IH]; intros v Hlen; [lia|].
  cbn [match_all_fuel]. destruct (exec cpt_regex_g v) as [m|] eqn:E.
  - pose proof (@exec_after_shorter _ _ _ E) as Hshort.
    apply exec_some in E. destruct E as (pre & t & -> & Hm & Ht & Hl).
    apply cpt_match_shape in Hm. destruct Hm as (part & Hok & Hshape).
    assert (m_text m = token_text part) as Htext.
    { rewrite Hshape in Ht. now apply app_inv_tail in Ht. }
    rewrite Htext in *.
    assert (token_text part <> []) as Hne by (unfold token_text; discriminate).
    destruct (IH (m_after m)) as (parts & Hparts & Hall).
    { destruct (token_text part); [congruence|]. simpl in Hshort. lia. }
    exists (part :: parts). split.
    + rewrite Hshape. constructor; auto.
      intros p1 p2 Hp Hn Hs. apply entry_starts_matches in Hs. apply Hs.
      rewrite <- Hshape. now apply (Hl p1 p2).
    + cbn [map]. f_equal. destruct (token_text part); [congruence|assumption].
  - exists []. split; [|reflexivity]. constructor.
    intros H. apply holds_entry_exec in H. congruence.
Qed.

Lemma match_all_entries v :
  exists parts, entries v parts /\
    match_all cpt_regex_g v = match parts with [] => None | _ :: _ => Some (map token_text parts) end.
Proof.
  destruct (@match_all_fuel_entries (S (length v)) v ltac:(lia)) as (parts & He & Hm).
  exists parts. split; [assumption|]. unfold match_all. rewrite Hm.
  destruct parts; reflexivity.
Qed.

Lemma entries_match_all v parts :
  entries v parts ->
  forall fuel, length v < fuel ->
  match_all_fuel fuel cpt_regex_g v = map token_text parts.
Proof.
  induction 1 as [content Hno|pre part rest parts Hok Hbefore Hrest IH]; intros fuel Hlen.
  - destruct fuel as [|fuel]; [lia|]. cbn [match_all_fuel].
    destruct (exec cpt_regex_g content) eqn:E; [|reflexivity].
    exfalso. apply Hno, holds_entry_exec. congruence.
  - destruct fuel as [|fuel]; [lia|]. cbn [match_all_fuel].
    assert (exec cpt_regex_g (pre ++ token_text part ++ rest) =
            Some (MatchResult (token_text part) [(2, snd part); (1, fst part)] rest)) as ->.
    { rewrite exec_leftmost.
      - rewrite (exec_here _ _ (@token_matches part rest Hok)). now rewrite consumed_app.
      - intros p1 p2 Hp Hn.
        destruct (match_here cpt_regex_g (p2 ++ token_text part ++ rest)) eqn:E; [|reflexivity].
        exfalso. apply (Hbefore p1 p2 Hp Hn), entry_starts_matches. congruence. }
    cbn [m_text m_after map]. f_equal.
    assert (length rest < fuel) as Hr.
    { rewrite !length_app in Hlen. unfold token_text in Hlen. rewrite !length_app in Hlen.
      simpl in Hlen. lia. }
    specialize (IH fuel Hr).
    destruct (token_text part) eqn:T; [unfold token_text in T; discriminate|assumption].
Qed.

(** A check, by running the matcher, that no entry begins inside [pre]. *)
Lemma no_entry_before_check pre t :
  forallb (fun p2 => is_none (match_here cpt_regex_g (p2 ++ t))) (nonempty_tails pre) = true ->
  forall p1 p2, pre = p1 ++ p2 -> p2 <> [] -> ~ entry_starts (p2 ++ t).
Proof.
  intros H p1 p2 Hp Hn Hs. rewrite forallb_forall in H.
  specialize (H p2 (@nonempty_tails_suffix pre p1 p2 Hp Hn)).
  apply entry_starts_matches in Hs.
  destruct (match_here cpt_regex_g (p2 ++ t)); [discriminate|congruence].
Qed.

Lemma no_entry_check content :
  exec cpt_regex_g content = None -> ~ holds_entry content.
Proof. intros E H. now apply holds_entry_exec in H. Qed.

(** C8. For a manager that has (or finds) its configuration and reaches its
    database. When the first [cptui_post_types] row holds at least one entry
    of the form s, colon, digits, colon, quoted value, [getCustomPostTypes]
    returns exactly the values of its entries, read from left to right,
    repetitions included, whatever the posts table holds. When there is no
    such row, or its value holds no entry, it returns the distinct
    [post_type] values of the posts table other than post, page, attachment,
    revision and nav_menu_item, at most twenty of them. *)
Theorem C8_custom_post_types_strict_order (st : state) (cfg : WordPressConfig)
    (db : database) :
  serves cfg db st ->
  let result := fst (getCustomPostTypes st) in
  let fallback :=
    firstn 20 (nodup str_eq_dec
      (filter (fun t => negb (mem_str t [js "post"; js "page"; js "attachment";
                                         js "revision"; js "nav_menu_item"]))
              (db_posts db))) in
  (forall v rest,
     option_values db (js "cptui_post_types") = v :: rest ->
     (holds_entry v -> exists part parts, entries v (part :: parts)) /\
     (forall parts, entries v parts -> parts <> [] -> result = map snd parts) /\
     (~ holds_entry v -> result = fallback)) /\
  (option_values db (js "cptui_post_types") = [] -> result = fallback) /\
  length fallback <= 20 /\ NoDup fallback /\
  (forall t, In t fallback ->
     In t (db_posts db) /\
     ~ In t [js "post"; js "page"; js "attachment"; js "revision"; js "nav_menu_item"]).
Proof.
  cbv zeta.
  intros (Hc0 & Hr & Hp).
  assert (config (fst (snd (ensure_config st))) = Some cfg) as Hc
    by now rewrite <- ensure_config_result.
  set (st1 := snd (ensure_config st)) in *.
  set (fallback := firstn 20 _).
  assert (forall rows,
            option_values db (js "cptui_post_types") = rows ->
            fst (getCustomPostTypes st) =
              match rows with
              | [] => fallback
              | v :: _ =>
                  match match_all cpt_regex_g v with
                  | Some toks => cpt_names toks
                  | None => fallback
                  end
              end) as Hget.
  { intros rows Hrows.
    destruct (@query_keeps st1 cfg db (SelectOptionValue (tablePrefix cfg ++ js "options")
                                        (js "cptui_post_types")) Hc Hr) as [Hc' Hr'].
    pose proof (@posts_fallback_result _ cfg db Hc' Hr' Hp) as Hfb.
    change (filter (fun t => negb (mem_str t builtin_post_types)) (db_posts db))
      with (filter (fun t => negb (mem_str t [js "post"; js "page"; js "attachment";
                                             js "revision"; js "nav_menu_item"]))
              (db_posts db)) in Hfb.
    fold fallback in Hfb.
    unfold getCustomPostTypes.
    rewrite bind_fst, Hc0. fold st1.
    rewrite bind_fst, (read_option _ _ Hc Hr Hp), Hrows.
    destruct rows as [|v rest]; cbn [map]; [assumption|].
    change (field (js "option_value") [(js "option_value", v)]) with v.
    destruct (match_all cpt_regex_g v); [reflexivity|assumption]. }
  split; [|split; [|split; [|split]]].
  - intros v rest Hrows. rewrite (Hget _ Hrows).
    destruct (match_all_entries v) as (parts0 & He0 & Hm0).
    split; [|split].
    + intros Hh. destruct parts0 as [|part parts]; [|now exists part, parts].
      inversion He0; subst. contradiction.
    + intros parts He Hne. unfold match_all.
      rewrite (@entries_match_all v parts He (S (length v))) by lia.
      destruct parts as [|part parts]; [congruence|]. cbn [map].
      change (cpt_names (map token_text (part :: parts)) = map snd (part :: parts)).
      apply cpt_names_values.
      clear - He. remember (part :: parts) as l eqn:El. clear El.
      induction He; constructor; auto.
    + intros Hno. unfold match_all. cbn [match_all_fuel].
      destruct (exec cpt_regex_g v) eqn:E; [|reflexivity].
      exfalso. apply Hno, holds_entry_exec. congruence.
  - intros Hrows. now rewrite (Hget _ Hrows).
  - apply firstn_le_length.
  - apply NoDup_firstn_keeps, NoDup_nodup.
  - intros t Hin. apply In_firstn, nodup_In, filter_In in Hin.
    destruct Hin as [Hin Hb]. split; [assumption|].
    apply negb_true_iff in Hb. intros Hm. apply mem_str_In in Hm. congruence.
Qed.

(** The two entries of the sample value. *)
Lemma sample_entries :
  entries sample_cpt_value [(js "4", js "book"); (js "5", js "movie")].
Proof.
  unfold sample_cpt_value.
  apply (@entries_next (js "a:2:{") (js "4", js "book")
           (js ";" ++ token_text (js "5", js "movie") ++ js ";}")
           [(js "5", js "movie")]).
  - repeat split; try discriminate. intros [H|[H|[H|[H|[]]]]]; discriminate.
  - apply no_entry_before_check. reflexivity.
  - apply (@entries_next (js ";") (js "5", js "movie") (js ";}") []).
    + repeat split; try discriminate. intros [H|[H|[H|[H|[H|[]]]]]]; discriminate.
    + apply no_entry_before_check. reflexivity.
    + constructor. apply no_entry_check. reflexivity.
Qed.

Lemma C8_custom_post_types_witness :
  fst (getCustomPostTypes (new_manager db_with_cptui)) = [js "book"; js "movie"] /\
  fst (getCustomPostTypes (configured_manager db_without_cptui)) = [js "movie"; js "recipe"].
Proof.
  split.
  - destruct (@C8_custom_post_types_strict_order (new_manager db_with_cptui) sample_config db_with_cptui
                (conj eq_refl (conj eq_refl eq_refl))) as (Hopt & _).
    destruct (Hopt sample_cpt_value [] eq_refl) as (_ & Hparts & _).
    apply (Hparts [(js "4", js "book"); (js "5", js "movie")] sample_entries).
    discriminate.
  - destruct (@C8_custom_post_types_strict_order (configured_manager db_without_cptui) sample_config db_without_cptui
                (conj eq_refl (conj eq_refl eq_refl))) as (_ & Hnone & _).
    rewrite (Hnone eq_refl). reflexivity.
Defined.

Lemma C9_active_plugins_witness :
  fst (getActivePlugins (new_manager db_with_cptui)) =
    filter (fun seg => negb (blank seg)) (split ";"%char sample_plugins_value) /\
  join ";"%char (split ";"%char sample_plugins_value) = sample_plugins_value /\
  Forall (fun seg => ~ In ";"%char seg) (split ";"%char sample_plugins_value) /\
  split_plugins (js "a/a.php;b/b.php;") = [js "a/a.php"; js "b/b.php"].
Proof.
  apply (@C9_active_plugins_split (new_manager db_with_cptui) sample_config
           db_with_cptui sample_plugins_value []);
    [repeat split; reflexivity | reflexivity].
Defined.

(** ** The connection handle *)

Lemma quiet_tracked {A} (c : M A) st : quiet c -> tracked st -> tracked (snd (c st)).
Proof.
  unfold quiet, tracked, held. intros Hq Ht. destruct (Hq st) as [Hc Ho].
  now rewrite Hc, Ho.
Qed.

Lemma quiet_find : quiet manager_findWordPressConfig.
Proof.
  intros [[cf cn] w]. unfold manager_findWordPressConfig, bind, get_world. simpl.
  destruct (workspaceFolders w) as [|p ps]; simpl; auto.
  destruct (findWordPressConfig (fs w) p) as [cp|]; simpl; auto.
  destruct (parseWordPressConfig (fs w) cp); simpl; auto.
Qed.

Lemma quiet_ensure_config : quiet ensure_config.
Proof.
  intros st. unfold ensure_config, bind, get_config.
  destruct (config (fst st)); simpl; auto.
  destruct (quiet_find st) as [Hc Ho].
  destruct (manager_findWordPressConfig st) as [r st']. simpl in *. auto.
Qed.

(** Connecting while no connection is held keeps the handles tracked. *)
Lemma connect_idle st :
  connection (fst st) = None -> tracked st -> tracked (snd (connectToDatabase st)).
Proof.
  intros Hn Ht. unfold connectToDatabase, bind.
  destruct (quiet_ensure_config st) as [Hc Ho].
  assert (tracked (snd (ensure_config st))) as Ht' by now apply quiet_tracked, Ht; apply quiet_ensure_config.
  rewrite Hn in Hc.
  destruct (ensure_config st) as [[cfg|] [[cf cn] w]]; simpl in *; [|assumption].
  subst cn. unfold get_world. simpl.
  destruct (server w _) as [db|]; simpl; [|assumption].
  unfold tracked, held in *. simpl in *. now rewrite Ht'.
Qed.

(** *** Calls in progress *)

Lemma through_mono {A} I (Q Q' : A -> state -> Prop) r :
  (forall a st, Q a st -> Q' a st) ->
  forall st, through I Q r st -> through I Q' r st.
Proof.
  intros HQ. induction r as [a|resume IH] using suspended_induction; intros st; simpl.
  - apply HQ.
  - intros [Hi H]. split; [assumption|]. now apply IH.
Qed.

Lemma through_continue {A B} I (Q : B -> state -> Prop) (k : A -> async B) r :
  forall st,
    through I (fun a st' => through_call I Q (k a) st') r st ->
    through I Q (fst (continue_with r k st)) (snd (continue_with r k st)).
Proof.
  induction r as [a|resume IH] using suspended_induction; intros st; simpl.
  - trivial.
  - intros [Hi H]. split; [assumption|].
    specialize (IH st). destruct (resume st) as [r' st2]. simpl in *. now apply IH.
Qed.

Lemma through_abind {A B} I (Q : B -> state -> Prop) (p : async A) (k : A -> async B) st :
  through_call I (fun a st' => through_call I Q (k a) st') p st ->
  through_call I Q (abind p k) st.
Proof.
  unfold through_call, abind. intros H.
  destruct (p st) as [r st']. simpl in *. now apply through_continue.
Qed.

Lemma through_await {A} I (Q : A -> state -> Prop) (p : async A) st :
  through_call I (fun a st' => I st' /\ Q a st') p st ->
  through_call I Q (await p) st.
Proof.
  intros H. unfold await. apply through_abind.
  unfold through_call in *. revert H. apply through_mono.
  intros a st' H. exact H.
Qed.

Lemma through_await_io {A} (I : state -> Prop) (Q : A -> state -> Prop) (io : M A) st :
  I st -> Q (fst (io st)) (snd (io st)) ->
  through_call I Q (await_io io) st.
Proof.
  intros Hi Hq. unfold through_call, await_io. simpl. split; [assumption|].
  destruct (io st). exact Hq.
Qed.

Lemma through_call_mono {A} I (Q Q' : A -> state -> Prop) (p : async A) st :
  (forall a st', Q a st' -> Q' a st') ->
  through_call I Q p st -> through_call I Q' p st.
Proof. intros HQ. apply through_mono, HQ. Qed.

(** *** The handles through each method, with its awaits *)

Lemma locate_through n : forall p st,
  tracked st ->
  through_call tracked (fun _ st' => st' = st) (findWordPressConfig_from n p) st.
Proof.
  induction n as [|n IH]; intros p st Ht; simpl.
  - destruct p; reflexivity.
  - destruct p as [|d ds]; [reflexivity|].
    apply through_abind, through_await_io; [assumption|]. cbn [fst snd].
    destruct (existsAsync _ _); [reflexivity|].
    destruct (path_eqb _ _); [reflexivity|]. now apply IH.
Qed.

Lemma find_through st :
  tracked st ->
  through_call tracked (fun _ st' => same_handles st st')
    manager_findWordPressConfig_async st.
Proof.
  intros Ht. unfold manager_findWordPressConfig_async, through_call.
  destruct (workspaceFolders (snd st)) as [|ws wss]; [split; reflexivity|].
  apply through_abind, through_await.
  apply through_call_mono with (Q := fun _ st' => st' = st); [|now apply locate_through].
  intros cp st' ->. split; [assumption|].
  destruct cp as [p|]; [|split; reflexivity].
  apply through_abind, through_await. unfold parseWordPressConfig_async.
  apply through_abind, through_await_io; [assumption|]. cbn [fst snd].
  destruct (readFileAsync _ _) as [content|]; simpl.
  - split; [assumption|]. split; reflexivity.
  - split; [assumption|]. split; reflexivity.
Qed.

Lemma same_handles_tracked st st' : same_handles st st' -> tracked st -> tracked st'.
Proof. unfold same_handles, tracked, held. intros [-> ->]. trivial. Qed.

Lemma ensure_config_through st :
  tracked st ->
  through_call tracked (fun c st' => same_handles st st' /\ c = config (fst st'))
    ensure_config_async st.
Proof.
  intros Ht. unfold ensure_config_async, through_call.
  destruct (config (fst st)) as [c|] eqn:E; [simpl; repeat split; now rewrite E|].
  apply through_abind, through_await.
  apply through_call_mono with (Q := fun _ st' => same_handles st st'); [|now apply find_through].
  intros _ st' Hs. split; [now apply (same_handles_tracked Hs)|].
  simpl. split; [assumption|reflexivity].
Qed.

Lemma connect_with_config_through st :
  tracked st -> connection (fst st) = None ->
  through_call tracked (fun _ st' => tracked st') connect_with_config st.
Proof.
  intros Ht Hn. unfold connect_with_config, through_call.
  destruct (config (fst st)) as [cfg|]; [|exact Ht].
  apply through_abind, through_await_io; [assumption|].
  unfold createConnection. destruct (server (snd st) _) as [db|]; simpl; [|exact Ht].
  unfold tracked, held in *. simpl. rewrite Hn in Ht. now rewrite Ht.
Qed.

Lemma connect_through st :
  tracked st -> connection (fst st) = None ->
  through_call tracked (fun _ st' => tracked st') connectToDatabase_async st.
Proof.
  intros Ht Hn. unfold connectToDatabase_async, through_call.
  destruct (config (fst st)) as [cfg|]; [now apply connect_with_config_through|].
  apply through_abind, through_await.
  apply through_call_mono with (Q := fun _ st' => same_handles st st'); [|now apply find_through].
  intros found st' Hs. pose proof (same_handles_tracked Hs Ht) as Ht'.
  split; [assumption|].
  destruct found; [|exact Ht'].
  apply connect_with_config_through; [assumption|]. destruct Hs as [-> _]. assumption.
Qed.

Lemma send_through q st :
  tracked st -> through_call tracked (fun _ st' => tracked st') (send q) st.
Proof.
  intros Ht. unfold send, through_call.
  destruct (connection (fst st)) as [h|]; [|exact Ht].
  apply through_await_io; [assumption|exact Ht].
Qed.

Lemma query_through q st :
  tracked st -> through_call tracked (fun _ st' => tracked st') (query_async q) st.
Proof.
  intros Ht. unfold query_async, through_call.
  destruct (connection (fst st)) as [h|] eqn:E; [now apply send_through|].
  apply through_abind, through_await.
  apply through_call_mono with (Q := fun _ st' => tracked st'); [|now apply connect_through].
  intros connected st' Ht'. split; [assumption|].
  destruct connected; [now apply send_through|exact Ht'].
Qed.

(** A reader: the configuration, then statements. *)
Lemma reader_through {A} (k : WordPressConfig -> async A) (dflt : A) st :
  (forall cfg st', tracked st' -> through_call tracked (fun _ st'' => tracked st'') (k cfg) st') ->
  tracked st ->
  through_call tracked (fun _ st' => tracked st')
    (c <~ ensure_config_async ;;
     match c with None => finished dflt | Some cfg => k cfg end) st.
Proof.
  intros Hk Ht. apply through_abind.
  apply through_call_mono with (Q := fun c st' => same_handles st st' /\ c = config (fst st'));
    [|now apply ensure_config_through].
  intros c st' [Hs _]. pose proof (same_handles_tracked Hs Ht) as Ht'.
  destruct c; [now apply Hk|exact Ht'].
Qed.

Lemma awaited_query_through {A} q (k : error + list row -> async A) st :
  (forall r st', tracked st' -> through_call tracked (fun _ st'' => tracked st'') (k r) st') ->
  tracked st ->
  through_call tracked (fun _ st' => tracked st') (r <~ await (query_async q) ;; k r) st.
Proof.
  intros Hk Ht. apply through_abind, through_await.
  apply through_call_mono with (Q := fun _ st' => tracked st'); [|now apply query_through].
  intros r st' Ht'. split; [assumption|]. now apply Hk.
Qed.

Lemma posts_fallback_through st :
  tracked st -> through_call tracked (fun _ st' => tracked st') posts_fallback_async st.
Proof.
  intros Ht. unfold posts_fallback_async, through_call.
  destruct (config (fst st)) as [cfg|]; [|exact Ht].
  apply awaited_query_through; [|assumption].
  intros [e|rows] st' Ht'; exact Ht'.
Qed.

Lemma disconnect_through st :
  tracked st ->
  through_call tracked
    (fun _ st' => tracked st' /\ connection (fst st') = None /\ open_handles (snd st') = [])
    disconnect_async st.
Proof.
  destruct st as [[cf cn] w]. unfold tracked, held, disconnect_async, through_call.
  simpl. intros Ht. destruct cn as [h|]; simpl in *; [|auto].
  split; [assumption|]. rewrite Ht. simpl.
  destruct (Nat.eq_dec (conn_id h) (conn_id h)); [auto|congruence].
Qed.

Lemma nl_through input st :
  tracked st ->
  through_call tracked (fun _ st' => tracked st') (executeNaturalLanguageQuery_async input) st.
Proof.
  intros Ht. unfold executeNaturalLanguageQuery_async, through_call.
  destruct (translate _ _) as [e|q]; [exact Ht|].
  apply through_await.
  apply through_call_mono with (Q := fun _ st' => tracked st'); [|now apply query_through].
  intros r st' Ht'. now split.
Qed.

Lemma forget_through {A} (p : async A) st :
  through_call tracked (fun _ st' => tracked st') p st ->
  through_call tracked (fun _ st' => tracked st') (forget p) st.
Proof.
  intros H. unfold forget. apply through_abind. revert H. apply through_call_mono.
  intros a st' H. exact H.
Qed.

Lemma op_through o st :
  match o with OpConnect => isConnected (fst st) = false | _ => True end ->
  tracked st ->
  through_call tracked (fun _ st' => tracked st') (op_async o) st.
Proof.
  intros Hg Ht. destruct o; cbn [op_async].
  - apply forget_through.
    apply through_call_mono with (Q := fun _ st' => same_handles st st'); [|now apply find_through].
    intros _ st' Hs. now apply (same_handles_tracked Hs).
  - apply forget_through, connect_through; [assumption|].
    unfold isConnected in Hg. destruct (connection (fst st)); [discriminate|reflexivity].
  - now apply forget_through, query_through.
  - apply forget_through. unfold getWordPressVersion_async.
    apply reader_through; [|assumption]. intros cfg st' Ht'.
    apply awaited_query_through; [|assumption].
    intros [e|[|r0 rows]] st'' Ht''; exact Ht''.
  - apply forget_through. unfold getActivePlugins_async.
    apply reader_through; [|assumption]. intros cfg st' Ht'.
    apply awaited_query_through; [|assumption].
    intros [e|[|r0 rows]] st'' Ht''; exact Ht''.
  - apply forget_through. unfold getCustomPostTypes_async.
    apply reader_through; [|assumption]. intros cfg st' Ht'.
    apply awaited_query_through; [|assumption].
    intros [e|[|r0 rows]] st'' Ht''; [exact Ht''|now apply posts_fallback_through|].
    destruct (match_all _ _); [exact Ht''|now apply posts_fallback_through].
  - now apply forget_through, nl_through.
  - apply through_call_mono with (Q := fun _ st' => tracked st' /\ connection (fst st') = None /\
                                     open_handles (snd st') = []);
      [|now apply disconnect_through].
    intros _ st' H. apply H.
  - exact Ht.
Qed.

(** *** One call at a time *)

Lemma done_not_waiting (l : list (suspended unit)) i resume :
  forallb is_done l = true -> nth_error l i <> Some (Waiting resume).
Proof.
  revert i. induction l as [|x l IH]; intros [|i] H E; simpl in *; try discriminate.
  - inversion E; subst. discriminate.
  - apply andb_true_iff in H. now apply (IH i (proj2 H)).
Qed.

Lemma waiting_found (pre post : list (suspended unit)) x i resume :
  forallb is_done pre = true -> forallb is_done post = true ->
  nth_error (pre ++ x :: post) i = Some (Waiting resume) ->
  i = length pre /\ x = Waiting resume.
Proof.
  revert i. induction pre as [|y pre IH]; intros [|i] Hpre Hpost E; simpl in *.
  - inversion E. auto.
  - exfalso. now apply (@done_not_waiting post i resume Hpost E).
  - inversion E; subst. discriminate.
  - apply andb_true_iff in Hpre. destruct (IH i (proj2 Hpre) Hpost E) as [-> ->]. auto.
Qed.

Lemma replace_call_middle (pre post : list (suspended unit)) x r :
  replace_call (length pre) r (pre ++ x :: post) = pre ++ r :: post.
Proof. induction pre as [|y pre IH]; simpl; [reflexivity|now rewrite IH]. Qed.

Lemma forallb_middle (pre post : list (suspended unit)) x :
  forallb is_done (pre ++ x :: post) =
    (forallb is_done pre && is_done x && forallb is_done post)%bool.
Proof. rewrite forallb_app. simpl. now rewrite andb_assoc. Qed.

Lemma through_now {A} (Q : A -> state -> Prop) r st :
  (forall a st', Q a st' -> tracked st') ->
  through tracked Q r st -> tracked st.
Proof. intros HQ. destruct r; simpl; [apply HQ|tauto]. Qed.

Lemma orderly_put (pre post : list (suspended unit)) r st :
  forallb is_done pre = true -> forallb is_done post = true ->
  through tracked (fun _ st' => tracked st') r st ->
  orderly {| now := st; calls := pre ++ r :: post |}.
Proof.
  intros Hpre Hpost H. split.
  - simpl. revert H. apply through_now. trivial.
  - destruct r as [a|resume].
    + left. unfold idle. simpl. rewrite forallb_middle, Hpre, Hpost. reflexivity.
    + right. now exists pre, resume, post.
Qed.

Lemma fire_orderly e s :
  orderly s ->
  match e with Start _ => idle s = true | Resume _ => True end ->
  match e with Start OpConnect => isConnected (fst (now s)) = false | _ => True end ->
  orderly (fire e s).
Proof.
  intros [Ht Hs] Hone Hg. destruct e as [o|i]; cbn [fire].
  - pose proof (@op_through o (now s)) as Hop.
    destruct (op_async o (now s)) as [r st] eqn:E.
    unfold through_call in Hop. rewrite E in Hop. cbn [fst snd] in Hop.
    rewrite <- (app_nil_r (calls s ++ [r])), <- app_assoc. cbn [app].
    apply orderly_put; [exact Hone|reflexivity|].
    apply Hop; [|assumption]. destruct o; trivial.
  - destruct (nth_error (calls s) i) as [[a|resume]|] eqn:E; try (split; assumption).
    destruct Hs as [Hidle|(pre & resume' & post & Hc & Hpre & Hpost & Hthrough)].
    + exfalso. now apply (@done_not_waiting (calls s) i resume Hidle E).
    + rewrite Hc in E. destruct (@waiting_found pre post _ i resume Hpre Hpost E) as [-> Hw].
      inversion Hw; subst resume'. clear Hw.
      simpl in Hthrough. destruct Hthrough as [_ Hthrough].
      destruct (resume (now s)) as [r st]. cbn [fst snd] in Hthrough.
      rewrite Hc, replace_call_middle. now apply orderly_put.
Qed.

Lemma run_orderly evs : forall s,
  orderly s -> one_at_a_time evs s -> connects_guarded evs s ->
  orderly (run_events evs s).
Proof.
  induction evs as [|e evs IH]; intros s Hs Hone Hg; [assumption|].
  destruct Hone as [Hone Hones], Hg as [Hg Hgs]. cbn [run_events].
  apply IH; [|assumption|assumption]. apply fire_orderly; assumption.
Qed.

(** C2, as amended. [connectToDatabase] opens a connection and stores its
    handle; it neither closes nor reuses a handle stored before. In every
    execution in which nothing starts while a call is in progress, and in
    which [connectToDatabase] is started directly only while [isConnected()]
    is false (the other methods connect through [query], which tests the
    stored handle first), the handles held open are, at every await and
    between the calls, exactly the stored one: at most one is open at a
    time, and a [disconnect] run to its end leaves none open. *)
Theorem C2_one_connection_without_overlap (evs : list event) (st : state) :
  tracked st ->
  one_at_a_time evs (at_rest st) ->
  connects_guarded evs (at_rest st) ->
  let st' := now (run_events evs (at_rest st)) in
  tracked st' /\
  length (open_handles (snd st')) <= 1 /\
  open_handles (snd (snd (complete disconnect_async st'))) = [].
Proof.
  intros Ht Hone Hg.
  assert (orderly (at_rest st)) as Hs by (split; [assumption|now left]).
  destruct (@run_orderly evs _ Hs Hone Hg) as [Ht' _]. cbv zeta.
  split; [assumption|]. split.
  - unfold tracked, held in Ht'. rewrite Ht'.
    destruct (connection (fst _)); simpl; lia.
  - pose proof (disconnect_through Ht') as H. unfold through_call, complete in *.
    destruct (disconnect_async _) as [r st2]. cbn [fst snd] in H.
    clear - H. revert st2 H.
    induction r as [a|resume IH] using suspended_induction; intros st2 H; simpl in *.
    + apply H.
    + destruct H as [_ H]. specialize (IH st2). destruct (resume st2). now apply IH.
Qed.

Lemma C2_one_connection_witness :
  let st' := now (run_events (one_by_one 0 sample_session)
                              (at_rest (new_manager db_with_cptui))) in
  tracked st' /\
  length (open_handles (snd st')) <= 1 /\
  open_handles (snd (snd (complete disconnect_async st'))) = [].
Proof.
  apply (@C2_one_connection_without_overlap (one_by_one 0 sample_session)
           (new_manager db_with_cptui)).
  - reflexivity.
  - vm_compute. repeat split.
  - vm_compute. repeat split.
Defined.

(** C2 as stated fails: a second [connectToDatabase], started after the
    first has returned [true] and returning [true] itself with unchanged
    credentials, opens handle 1 and leaves handle 0 open. *)
Lemma C2_second_connect_keeps_first_open :
  let st0 := new_manager db_with_cptui in
  let st1 := snd (complete connectToDatabase_async st0) in
  let st2 := snd (complete connectToDatabase_async st1) in
  fst (complete connectToDatabase_async st0) = true /\
  fst (complete connectToDatabase_async st1) = true /\
  open_handles (snd st2) = [1; 0] /\
  held (fst st2) = [1] /\
  one_at_a_time (one_by_one 0 [OpConnect; OpConnect]) (at_rest st0) /\
  now (run_events (one_by_one 0 [OpConnect; OpConnect]) (at_rest st0)) = st2.
Proof. vm_compute. repeat split. Qed.

(** Neither condition of the amended statement can be dropped. Two queries
    started on a manager without connection both find [this.connection]
    empty before either has stored its handle: each opens a connection, and
    the handle stored first stays open, forgotten. *)
Lemma overlapping_queries_leave_two_handles :
  let s := run_events overlapping_queries (at_rest (configured_manager db_with_cptui)) in
  connects_guarded overlapping_queries (at_rest (configured_manager db_with_cptui)) /\
  ~ one_at_a_time overlapping_queries (at_rest (configured_manager db_with_cptui)) /\
  idle s = true /\
  open_handles (snd (now s)) = [1; 0] /\
  held (fst (now s)) = [1].
Proof.
  split; [vm_compute; repeat split|].
  split; [|vm_compute; repeat split].
  intros (_ & H & _). vm_compute in H. discriminate.
Qed.

(** ** The configuration patterns *)

Lemma quote_facts q :
  In q quotes ->
  one_of true quotes q = true /\ one_of true [dquote; squote] q = true /\
  is_space q = false /\
  none_of true [dquote; squote] q = false /\ none_of true quotes q = false.
Proof. intros [<-|[<-|[]]]; repeat split; reflexivity. Qed.

Lemma not_quote_facts a :
  a <> squote -> a <> dquote ->
  none_of true [dquote; squote] a = true /\ none_of true quotes a = true.
Proof.
  intros H1 H2.
  destruct a as [[] [] [] [] [] [] [] []];
    first [ split; reflexivity
          | exfalso; apply H1; reflexivity
          | exfalso; apply H2; reflexivity ].
Qed.

Lemma value_facts v :
  ~ In squote v -> ~ In dquote v ->
  forallb (none_of true [dquote; squote]) v = true /\
  forallb (none_of true quotes) v = true.
Proof.
  induction v as [|a v IH]; intros H1 H2; [split; reflexivity|].
  simpl in H1, H2.
  destruct (@not_quote_facts a) as [Ha Hb]; [intuition congruence|intuition congruence|].
  destruct IH as [IH1 IH2]; [tauto|tauto|].
  cbn [forallb]. now rewrite Ha, Hb, IH1, IH2.
Qed.

Ltac norm_app := repeat (progress (rewrite <- ?app_assoc; cbn [app])).

Lemma length_pos (s : str) : s <> [] -> 1 <= length s.
Proof. destruct s; [congruence|simpl; lia]. Qed.

(** A define call is matched in full, its value captured. *)
Lemma define_call_matches key d post :
  define_ok key d ->
  match_here (define_regex key) (define_text d ++ post) = Some (post, [(1, d_value d)]).
Proof.
  intros (Hkw & Hkey & B1 & B2 & B3 & B4 & B5 & Q1 & Q2 & Q3 & Q4 & Hv & Hs & Hd).
  apply quote_facts in Q1, Q2, Q3, Q4.
  destruct Q1 as (Q1a & Q1b & Q1c & Q1d & Q1e), Q2 as (Q2a & Q2b & Q2c & Q2d & Q2e),
           Q3 as (Q3a & Q3b & Q3c & Q3d & Q3e), Q4 as (Q4a & Q4b & Q4c & Q4d & Q4e).
  destruct (value_facts _ Hs Hd) as [Hv1 Hv2].
  unfold match_here, define_regex, define_text, spaces0, chr, blank in *.
  norm_app. cbn [sequence run].
  rewrite (run_lit_ci Hkw).
  apply rep_greedy; [assumption|lia|reflexivity|]. cbv beta iota. rewrite same_char_refl.
  apply rep_greedy; [assumption|lia|simpl; now rewrite Q1c|]. cbv beta iota. rewrite Q1a.
  rewrite (run_lit_ci Hkey). rewrite Q2a.
  apply rep_greedy; [assumption|lia|reflexivity|]. cbv beta iota. rewrite same_char_refl.
  apply rep_greedy; [assumption|lia|simpl; now rewrite Q3c|]. cbv beta iota. rewrite Q3b.
  apply rep_greedy; [assumption|now apply length_pos|simpl; now rewrite Q4d|].
  cbv beta iota. rewrite Q4b, consumed_app.
  apply rep_greedy; [assumption|lia|reflexivity|]. cbv beta iota. rewrite same_char_refl.
  reflexivity.
Qed.

Lemma assignment_matches a post :
  assignment_ok a ->
  match_here tablePrefixRegex (assignment_text a ++ post) = Some (post, [(1, a_value a)]).
Proof.
  intros (Hvar & B1 & B2 & Q1 & Q2 & Hv & Hs & Hd).
  apply quote_facts in Q1, Q2.
  destruct Q1 as (Q1a & Q1b & Q1c & Q1d & Q1e), Q2 as (Q2a & Q2b & Q2c & Q2d & Q2e).
  destruct (value_facts _ Hs Hd) as [Hv1 Hv2].
  unfold match_here, tablePrefixRegex, assignment_text, spaces0, chr, blank in *.
  norm_app. cbn [sequence run].
  rewrite (run_lit_ci Hvar).
  apply rep_greedy; [assumption|lia|reflexivity|]. cbv beta iota. rewrite same_char_refl.
  apply rep_greedy; [assumption|lia|simpl; now rewrite Q1c|]. cbv beta iota. rewrite Q1a.
  apply rep_greedy; [assumption|now apply length_pos|simpl; now rewrite Q2e|].
  cbv beta iota. rewrite Q2a, consumed_app.
  reflexivity.
Qed.

Lemma exec_never r content : exec r content = None <-> never_matches r content.
Proof. apply exec_none. Qed.

Lemma exec_at r pre t s' c :
  unmatched_before r pre t ->
  match_here r t = Some (s', c) ->
  exec r (pre ++ t) = Some (MatchResult (consumed t s') c s').
Proof.
  intros Hu Hm. rewrite exec_leftmost.
  - now apply exec_here.
  - intros p1 p2 Hp Hn. apply match_here_none. intros s1 c1. now apply (Hu p1 p2).
Qed.

(** The first define call for a key gives its value. *)
Lemma extract_define key d pre post :
  define_ok key d ->
  unmatched_before (define_regex key) pre (define_text d ++ post) ->
  extractConfigValue (pre ++ define_text d ++ post) key = d_value d.
Proof.
  intros Hok Hu. unfold extractConfigValue.
  rewrite (exec_at Hu (define_call_matches post Hok)).
  unfold group. cbn [m_groups capture Nat.eqb].
  destruct Hok as (_ & _ & _ & _ & _ & _ & _ & _ & _ & _ & _ & Hv & _).
  destruct (d_value d); [congruence|reflexivity].
Qed.

Lemma extract_without_define content key :
  never_matches (define_regex key) content ->
  extractConfigValue content key =
    if str_eqb key (js "table_prefix")
    then group1_or (exec tablePrefixRegex content) (js "wp_")
    else [].
Proof.
  intros H. apply exec_never in H. unfold extractConfigValue. now rewrite H.
Qed.

Lemma extract_prefix_assignment a pre post :
  never_matches (define_regex (js "table_prefix")) (pre ++ assignment_text a ++ post) ->
  assignment_ok a ->
  unmatched_before tablePrefixRegex pre (assignment_text a ++ post) ->
  extractConfigValue (pre ++ assignment_text a ++ post) (js "table_prefix") = a_value a.
Proof.
  intros Hn Hok Hu. rewrite (extract_without_define Hn).
  change (str_eqb (js "table_prefix") (js "table_prefix")) with true. cbv iota.
  rewrite (exec_at Hu (assignment_matches post Hok)).
  unfold group1_or, group. cbn [m_groups capture Nat.eqb].
  destruct Hok as (_ & _ & _ & _ & _ & Hv & _).
  destruct (a_value a); [congruence|reflexivity].
Qed.

Lemma extract_prefix_default content :
  never_matches (define_regex (js "table_prefix")) content ->
  never_matches tablePrefixRegex content ->
  extractConfigValue content (js "table_prefix") = js "wp_".
Proof.
  intros Hn Ha. rewrite (extract_without_define Hn).
  apply exec_never in Ha. now rewrite Ha.
Qed.

Lemma or_else_same a b : a <> [] -> or_else a b = a.
Proof. destruct a; [congruence|reflexivity]. Qed.

Lemma or_else_nonempty a b : b <> [] -> or_else a b <> [].
Proof. destruct a; simpl; [auto|discriminate]. Qed.

(** A check of [unmatched_before] by running the matcher. *)
Lemma unmatched_before_check r pre t :
  forallb (fun p2 => is_none (match_here r (p2 ++ t))) (nonempty_tails pre) = true ->
  unmatched_before r pre t.
Proof.
  intros H p1 p2 s' c Hp Hn. rewrite forallb_forall in H.
  specialize (H p2 (@nonempty_tails_suffix pre p1 p2 Hp Hn)).
  destruct (match_here r (p2 ++ t)) eqn:E; [discriminate|].
  now apply match_here_none.
Qed.

(** ** Every match of a configuration pattern has the expected shape *)

Lemma inv_seq r1 r2 s s2 c c2 :
  matches (Seq r1 r2) s s2 c c2 ->
  exists s1 c1, matches r1 s s1 c c1 /\ matches r2 s1 s2 c1 c2.
Proof. intros H. inversion H; subst. eauto. Qed.

Lemma inv_lit_ci w : forall s s' c c',
  matches (lit true w) s s' c c' ->
  exists w', s = w' ++ s' /\ same_text w w' /\ c' = c.
Proof.
  induction w as [|a w IH]; intros s s' c c' H; simpl in H.
  - inversion H; subst. exists []. repeat split. constructor.
  - inversion H; subst.
    match goal with Ha : matches (Chr _) _ _ _ _ |- _ => inversion Ha; subst end.
    match goal with Hw : matches (lit true w) _ _ _ _ |- _ => apply IH in Hw;
      destruct Hw as (w' & -> & Hw' & ->) end.
    match goal with |- exists _, ?b :: _ = _ /\ _ => exists (b :: w') end.
    repeat split. now constructor.
Qed.

Lemma inv_spaces s s' c c' :
  matches spaces0 s s' c c' -> exists w, s = w ++ s' /\ blank w = true /\ c' = c.
Proof. intros H. inversion H; subst. eauto. Qed.

Lemma symbol_exact x a :
  In x ["("%char; ")"%char; ","%char; "="%char] -> same_char true x a = true -> a = x.
Proof.
  intros [<-|[<-|[<-|[<-|[]]]]];
    destruct a as [[] [] [] [] [] [] [] []];
    intros H; first [reflexivity | discriminate H].
Qed.

Lemma inv_symbol x s s' c c' :
  In x ["("%char; ")"%char; ","%char; "="%char] ->
  matches (chr true x) s s' c c' -> s = x :: s' /\ c' = c.
Proof.
  intros Hx H. inversion H; subst.
  match goal with Ha : same_char true x _ = true |- _ =>
    apply (symbol_exact _ Hx) in Ha; subst end.
  auto.
Qed.

Lemma quote_exact a :
  (one_of true quotes a = true -> In a quotes) /\
  (one_of true [dquote; squote] a = true -> In a quotes).
Proof.
  destruct a as [[] [] [] [] [] [] [] []];
    split; intros H; first [discriminate H | simpl; tauto].
Qed.

Lemma inv_quote set s s' c c' :
  set = quotes \/ set = [dquote; squote] ->
  matches (Chr (one_of true set)) s s' c c' ->
  exists q, In q quotes /\ s = q :: s' /\ c' = c.
Proof.
  intros Hset H. inversion H; subst.
  match goal with |- exists _, _ /\ ?a :: _ = _ /\ _ => exists a end.
  repeat split; auto.
  destruct Hset as [->| ->];
    [now apply (proj1 (quote_exact _)) | now apply (proj2 (quote_exact _))].
Qed.

Lemma inv_value set s s' c c' :
  set = quotes \/ set = [dquote; squote] ->
  matches (Grp 1 (Rep 1 (none_of true set))) s s' c c' ->
  exists v, s = v ++ s' /\ v <> [] /\ ~ In squote v /\ ~ In dquote v /\
            c' = (1, v) :: c.
Proof.
  intros Hset H. inversion H; subst.
  match goal with Hr : matches (Rep _ _) _ _ _ _ |- _ => inversion Hr; subst end.
  match goal with Hw : forallb _ ?w = true |- _ =>
    exists w; pose proof (none_of_ci_not_in _ _ Hw) as Hno end.
  rewrite consumed_app. repeat split; auto.
  - intros ->. simpl in *. lia.
  - apply Hno. destruct Hset as [->| ->]; simpl; tauto.
  - apply Hno. destruct Hset as [->| ->]; simpl; tauto.
Qed.

Ltac take_seq H :=
  let s1 := fresh "s" in let c1 := fresh "c" in let H1 := fresh "H" in
  apply inv_seq in H; destruct H as (s1 & c1 & H1 & H).

(** What the define pattern matches is a define call for the key. *)
Lemma define_match_shape key t s' c :
  matches (define_regex key) t s' [] c ->
  exists d, define_ok key d /\ t = define_text d ++ s' /\ c = [(1, d_value d)].
Proof.
  unfold define_regex. cbn [sequence]. intros H.
  take_seq H. apply inv_lit_ci in H0. destruct H0 as (kw & -> & Hkw & ->).
  take_seq H. apply inv_spaces in H0. destruct H0 as (w1 & -> & B1 & ->).
  take_seq H. apply inv_symbol in H0; [|simpl; tauto]. destruct H0 as (-> & ->).
  take_seq H. apply inv_spaces in H0. destruct H0 as (w2 & -> & B2 & ->).
  take_seq H. apply inv_quote in H0; [|now left]. destruct H0 as (q1 & Q1 & -> & ->).
  take_seq H. apply inv_lit_ci in H0. destruct H0 as (k & -> & Hk & ->).
  take_seq H. apply inv_quote in H0; [|now left]. destruct H0 as (q2 & Q2 & -> & ->).
  take_seq H. apply inv_spaces in H0. destruct H0 as (w3 & -> & B3 & ->).
  take_seq H. apply inv_symbol in H0; [|simpl; tauto]. destruct H0 as (-> & ->).
  take_seq H. apply inv_spaces in H0. destruct H0 as (w4 & -> & B4 & ->).
  take_seq H. apply inv_quote in H0; [|now right]. destruct H0 as (q3 & Q3 & -> & ->).
  take_seq H. apply inv_value in H0; [|now right].
  destruct H0 as (v & -> & Hv & Hs & Hd & ->).
  take_seq H. apply inv_quote in H0; [|now right]. destruct H0 as (q4 & Q4 & -> & ->).
  take_seq H. apply inv_spaces in H0. destruct H0 as (w5 & -> & B5 & ->).
  take_seq H. apply inv_symbol in H0; [|simpl; tauto]. destruct H0 as (-> & ->).
  inversion H; subst.
  exists {| d_keyword := kw; d_sp1 := w1; d_sp2 := w2; d_q1 := q1; d_key := k;
            d_q2 := q2; d_sp3 := w3; d_sp4 := w4; d_q3 := q3; d_value := v;
            d_q4 := q4; d_sp5 := w5 |}.
  split; [|split; [|reflexivity]].
  - unfold define_ok. cbn. tauto.
  - unfold define_text. cbn. norm_app. reflexivity.
Qed.

(** What the assignment pattern matches is an assignment to the variable. *)
Lemma assignment_match_shape t s' c :
  matches tablePrefixRegex t s' [] c ->
  exists a, assignment_ok a /\ t = assignment_text a ++ s' /\ c = [(1, a_value a)].
Proof.
  unfold tablePrefixRegex. cbn [sequence]. intros H.
  take_seq H. apply inv_lit_ci in H0. destruct H0 as (var & -> & Hvar & ->).
  take_seq H. apply inv_spaces in H0. destruct H0 as (w1 & -> & B1 & ->).
  take_seq H. apply inv_symbol in H0; [|simpl; tauto]. destruct H0 as (-> & ->).
  take_seq H. apply inv_spaces in H0. destruct H0 as (w2 & -> & B2 & ->).
  take_seq H. apply inv_quote in H0; [|now left]. destruct H0 as (q1 & Q1 & -> & ->).
  take_seq H. apply inv_value in H0; [|now left].
  destruct H0 as (v & -> & Hv & Hs & Hd & ->).
  take_seq H. apply inv_quote in H0; [|now left]. destruct H0 as (q2 & Q2 & -> & ->).
  inversion H; subst.
  exists {| a_variable := var; a_sp1 := w1; a_sp2 := w2; a_q1 := q1;
            a_value := v; a_q2 := q2 |}.
  split; [|split; [|reflexivity]].
  - unfold assignment_ok. cbn. tauto.
  - unfold assignment_text. cbn. norm_app. reflexivity.
Qed.

(** A pattern either matches nowhere, or has a leftmost match. *)
Lemma exec_cases r content :
  (exec r content = None /\ never_matches r content) \/
  (exists m pre t,
     exec r content = Some m /\ content = pre ++ t /\
     matches r t (m_after m) [] (m_groups m) /\ unmatched_before r pre t).
Proof.
  destruct (exec r content) as [m|] eqn:E.
  - right. destruct (exec_some _ _ E) as (pre & t & Hc & Hm & Ht & Hl).
    exists m, pre, t. repeat split; auto.
    intros p1 p2 s' c Hp Hn. apply match_here_none. now apply (Hl p1 p2).
  - left. split; [reflexivity|]. now apply exec_never.
Qed.

(** The result of extraction, in full: the value of the first define call
    for the key, if there is one. *)
Lemma extract_define_cases content key :
  never_matches (define_regex key) content \/
  exists pre d post,
    content = pre ++ define_text d ++ post /\ define_ok key d /\
    unmatched_before (define_regex key) pre (define_text d ++ post) /\
    extractConfigValue content key = d_value d.
Proof.
  destruct (exec_cases (define_regex key) content)
    as [[_ Hn]|(m & pre & t & E & Hc & Hm & Hu)]; [now left|right].
  apply define_match_shape in Hm. destruct Hm as (d & Hok & Ht & Hg).
  exists pre, d, (m_after m). subst t. subst content.
  split; [reflexivity|]. split; [assumption|]. split; [assumption|].
  now apply extract_define.
Qed.

Lemma extract_assignment_cases content :
  never_matches tablePrefixRegex content \/
  exists pre a post,
    content = pre ++ assignment_text a ++ post /\ assignment_ok a /\
    unmatched_before tablePrefixRegex pre (assignment_text a ++ post).
Proof.
  destruct (exec_cases tablePrefixRegex content)
    as [[_ Hn]|(m & pre & t & E & Hc & Hm & Hu)]; [now left|right].
  apply assignment_match_shape in Hm. destruct Hm as (a & Hok & Ht & Hg).
  exists pre, a, (m_after m). subst t. subst content. auto.
Qed.

Lemma define_key_not_prefix key :
  In key define_keys -> str_eqb key (js "table_prefix") = false.
Proof. intros [<-|[<-|[<-|[<-|[]]]]]; reflexivity. Qed.

(** C3, as amended. For each of the keys DB_NAME, DB_USER, DB_PASSWORD and
    DB_HOST, extraction returns the value of the first text of the form
    define ( Q K' Q , Q VALUE Q ): each Q is either quote character,
    independently of the others; white space may stand after define and
    around the parentheses' contents and the comma; VALUE is not empty and
    holds no quote character; and both the keyword define and the key K'
    are compared with K without regard to letter case, since the i flag
    covers the whole pattern. Without such a text the result is the empty
    string, and these two cases are the only ones. So define('DB_NAME',
    'foo'), its double-quoted form, and define('db_name', 'foo') all give
    dbName foo. *)
Theorem C3_define_extraction_ignores_case (key : str) (d : define_call)
    (pre post : str) (p : path) :
  In key define_keys ->
  (define_ok key d ->
   unmatched_before (define_regex key) pre (define_text d ++ post) ->
   extractConfigValue (pre ++ define_text d ++ post) key = d_value d) /\
  (forall content,
     never_matches (define_regex key) content -> extractConfigValue content key = []) /\
  (forall content,
     never_matches (define_regex key) content \/
     exists pre' d' post',
       content = pre' ++ define_text d' ++ post' /\ define_ok key d' /\
       unmatched_before (define_regex key) pre' (define_text d' ++ post') /\
       extractConfigValue content key = d_value d') /\
  dbName (parseConfigContent (js "define('DB_NAME', 'foo')") p) = js "foo" /\
  dbName (parseConfigContent define_db_name_double_quoted p) = js "foo" /\
  dbName (parseConfigContent (js "define('db_name', 'foo')") p) = js "foo".
Proof.
  intros Hkey. split; [|split; [|split; [|split; [|split]]]].
  - apply extract_define.
  - intros content Hn. rewrite (extract_without_define Hn).
    now rewrite (@define_key_not_prefix key Hkey).
  - intros content. apply extract_define_cases.
  - reflexivity.
  - reflexivity.
  - reflexivity.
Qed.

(** C3 as stated fails: the key is matched without regard to letter case,
    so define('db_name', 'foo') gives dbName foo, not the empty string. *)
Lemma C3_lower_case_key_is_matched :
  dbName (parseConfigContent (js "define('db_name', 'foo')") []) = js "foo" /\
  dbName (parseConfigContent (js "define('db_name', 'foo')") []) <> [].
Proof. split; [reflexivity|discriminate]. Qed.

(** C4, as amended. The table prefix is looked up like every other key
    first: the value of the first define call for table_prefix (compared
    without regard to letter case) is the table prefix, whatever follows
    it, an assignment to $table_prefix included. Only when no such call
    exists is the first text $table_prefix = Q VALUE Q used (white space
    around the equals sign optional, letter case ignored), and when neither
    exists the prefix is wp_; every content falls under one of the three
    cases. For content with both define('table_prefix','X') and
    $table_prefix = 'Y' the prefix is X. *)
Theorem C4_table_prefix_define_then_assignment (d : define_call)
    (a : prefix_assignment) (pre post : str) (p : path) :
  (define_ok (js "table_prefix") d ->
   unmatched_before (define_regex (js "table_prefix")) pre (define_text d ++ post) ->
   tablePrefix (parseConfigContent (pre ++ define_text d ++ post) p) = d_value d) /\
  (never_matches (define_regex (js "table_prefix")) (pre ++ assignment_text a ++ post) ->
   assignment_ok a ->
   unmatched_before tablePrefixRegex pre (assignment_text a ++ post) ->
   tablePrefix (parseConfigContent (pre ++ assignment_text a ++ post) p) = a_value a) /\
  (forall content,
     never_matches (define_regex (js "table_prefix")) content ->
     never_matches tablePrefixRegex content ->
     tablePrefix (parseConfigContent content p) = js "wp_") /\
  (forall content,
     (exists pre' d' post',
        content = pre' ++ define_text d' ++ post' /\ define_ok (js "table_prefix") d' /\
        unmatched_before (define_regex (js "table_prefix")) pre' (define_text d' ++ post') /\
        tablePrefix (parseConfigContent content p) = d_value d') \/
     (never_matches (define_regex (js "table_prefix")) content /\
      exists pre' a' post',
        content = pre' ++ assignment_text a' ++ post' /\ assignment_ok a' /\
        unmatched_before tablePrefixRegex pre' (assignment_text a' ++ post') /\
        tablePrefix (parseConfigContent content p) = a_value a') \/
     (never_matches (define_regex (js "table_prefix")) content /\
      never_matches tablePrefixRegex content /\
      tablePrefix (parseConfigContent content p) = js "wp_")) /\
  tablePrefix (parseConfigContent
                 (js "define('table_prefix','X'); $table_prefix = 'Y';") p) = js "X".
Proof.
  assert (forall d0 pre0 post0,
            define_ok (js "table_prefix") d0 ->
            unmatched_before (define_regex (js "table_prefix")) pre0
              (define_text d0 ++ post0) ->
            tablePrefix (parseConfigContent (pre0 ++ define_text d0 ++ post0) p)
              = d_value d0) as Hdef.
  { intros d0 pre0 post0 Hok Hu. cbn [parseConfigContent tablePrefix].
    rewrite (@extract_define _ d0 pre0 post0 Hok Hu). apply or_else_same.
    now destruct Hok as (_ & _ & _ & _ & _ & _ & _ & _ & _ & _ & _ & Hv & _). }
  assert (forall a0 pre0 post0,
            never_matches (define_regex (js "table_prefix"))
              (pre0 ++ assignment_text a0 ++ post0) ->
            assignment_ok a0 ->
            unmatched_before tablePrefixRegex pre0 (assignment_text a0 ++ post0) ->
            tablePrefix (parseConfigContent (pre0 ++ assignment_text a0 ++ post0) p)
              = a_value a0) as Hasg.
  { intros a0 pre0 post0 Hn Hok Hu. cbn [parseConfigContent tablePrefix].
    rewrite (@extract_prefix_assignment a0 pre0 post0 Hn Hok Hu). apply or_else_same.
    now destruct Hok as (_ & _ & _ & _ & _ & Hv & _). }
  split; [|split; [|split; [|split]]]; [apply Hdef|apply Hasg| | |].
  3: reflexivity.
  2: { intros content.
       destruct (extract_define_cases content (js "table_prefix"))
         as [Hn|(pre' & d' & post' & -> & Hok & Hu & _)].
       - destruct (extract_assignment_cases content)
           as [Ha|(pre' & a' & post' & -> & Hok & Hu)].
         + right; right. repeat split; auto. cbn [parseConfigContent tablePrefix].
           now rewrite (extract_prefix_default Hn Ha).
         + right; left. split; [assumption|].
           exists pre', a', post'.
           split; [reflexivity|]. split; [assumption|]. split; [assumption|].
           now apply Hasg.
       - left. exists pre', d', post'.
         split; [reflexivity|]. split; [assumption|]. split; [assumption|].
         now apply Hdef. }
  intros content Hn Ha. cbn [parseConfigContent tablePrefix].
  now rewrite (extract_prefix_default Hn Ha).
Qed.


(** C4 as stated fails: with both forms present the define call wins. *)
Lemma C4_define_form_wins :
  tablePrefix (parseConfigContent
                 (js "define('table_prefix','X'); $table_prefix = 'Y';") []) = js "X" /\
  tablePrefix (parseConfigContent
                 (js "define('table_prefix','X'); $table_prefix = 'Y';") []) <> js "Y".
Proof. split; [reflexivity|discriminate]. Qed.

(** C7, as amended. Parsing a file that could be read always yields a
    configuration. Content without a define call for DB_HOST gives dbHost
    localhost; content with neither a define call for table_prefix nor an
    assignment to $table_prefix gives tablePrefix wp_; and tablePrefix is
    never empty. *)
Theorem C7_parse_defaults (content : str) (p : path) :
  (never_matches (define_regex (js "DB_HOST")) content ->
   dbHost (parseConfigContent content p) = js "localhost") /\
  (never_matches (define_regex (js "table_prefix")) content ->
   never_matches tablePrefixRegex content ->
   tablePrefix (parseConfigContent content p) = js "wp_") /\
  tablePrefix (parseConfigContent content p) <> [] /\
  (forall f, readFileAsync f p = Some content ->
             parseWordPressConfig f p = Some (parseConfigContent content p)).
Proof.
  split; [|split; [|split]].
  - intros Hn. cbn [parseConfigContent dbHost].
    now rewrite (extract_without_define Hn).
  - intros Hn Ha. cbn [parseConfigContent tablePrefix].
    now rewrite (extract_prefix_default Hn Ha).
  - cbn [parseConfigContent tablePrefix]. apply or_else_nonempty. discriminate.
  - intros f Hf. unfold parseWordPressConfig. now rewrite Hf.
Qed.

(** C7 as stated fails: content without any assignment to $table_prefix,
    but with a define call for table_prefix, does not give wp_. *)
Lemma C7_prefix_from_define_without_assignment :
  never_matches tablePrefixRegex (js "define('table_prefix','X');") /\
  includes (toLowerCase (js "define('table_prefix','X');")) (js "$table_prefix") = false /\
  tablePrefix (parseConfigContent (js "define('table_prefix','X');") []) = js "X" /\
  tablePrefix (parseConfigContent (js "define('table_prefix','X');") []) <> js "wp_".
Proof.
  split; [apply exec_never; reflexivity|].
  split; [reflexivity|]. split; [reflexivity|discriminate].
Qed.

Ltac shape_ok :=
  repeat match goal with |- _ /\ _ => split end;
  first [ reflexivity
        | discriminate
        | solve [repeat constructor]
        | solve [simpl; tauto]
        | solve [simpl; intuition discriminate] ].

Lemma C3_define_extraction_witness :
  extractConfigValue (js "<?php " ++ define_text sample_define ++ js ";") (js "DB_NAME")
    = js "shop" /\
  extractConfigValue (js "<?php // nothing") (js "DB_NAME") = [] /\
  dbName (parseConfigContent (js "define('DB_NAME', 'foo')") []) = js "foo" /\
  dbName (parseConfigContent define_db_name_double_quoted []) = js "foo" /\
  dbName (parseConfigContent (js "define('db_name', 'foo')") []) = js "foo".
Proof.
  destruct (@C3_define_extraction_ignores_case (js "DB_NAME") sample_define
              (js "<?php ") (js ";") [] (or_introl eq_refl)) as (H1 & H2 & _ & H3).
  split; [|split; [|exact H3]].
  - apply H1.
    + unfold define_ok, same_text. shape_ok.
    + apply unmatched_before_check. reflexivity.
  - apply H2. apply exec_never. reflexivity.
Defined.

Lemma C4_table_prefix_witness :
  tablePrefix (parseConfigContent
                 (js "<?php " ++ define_text sample_prefix_define ++
                  js "; $table_prefix = 'Y';") []) = js "X" /\
  tablePrefix (parseConfigContent
                 (js "<?php " ++ assignment_text sample_assignment ++ js ";") [])
    = js "Y" /\
  tablePrefix (parseConfigContent (js "<?php") []) = js "wp_".
Proof.
  split; [|split].
  - apply (proj1 (@C4_table_prefix_define_then_assignment sample_prefix_define
                    sample_assignment (js "<?php ") (js "; $table_prefix = 'Y';") [])).
    + unfold define_ok, same_text. shape_ok.
    + apply unmatched_before_check. reflexivity.
  - apply (proj1 (proj2 (@C4_table_prefix_define_then_assignment sample_prefix_define
                           sample_assignment (js "<?php ") (js ";") []))).
    + apply exec_never. reflexivity.
    + unfold assignment_ok, same_text. shape_ok.
    + apply unmatched_before_check. reflexivity.
  - apply (proj1 (proj2 (proj2 (@C4_table_prefix_define_then_assignment
                                  sample_prefix_define sample_assignment [] [] [])))).
    + apply exec_never. reflexivity.
    + apply exec_never. reflexivity.
Defined.

Lemma C7_parse_defaults_witness :
  dbHost (parseConfigContent (js "<?php define('DB_NAME', 'shop');") []) = js "localhost" /\
  tablePrefix (parseConfigContent (js "<?php define('DB_NAME', 'shop');") []) = js "wp_" /\
  parseWordPressConfig fs_site (path_join site_path wp_config_php) = Some sample_config.
Proof.
  split; [|split].
  - apply (proj1 (C7_parse_defaults (js "<?php define('DB_NAME', 'shop');") [])).
    apply exec_never. reflexivity.
  - apply (proj1 (proj2 (C7_parse_defaults (js "<?php define('DB_NAME', 'shop');") []))).
    + apply exec_never. reflexivity.
    + apply exec_never. reflexivity.
  - apply (proj2 (proj2 (proj2 (C7_parse_defaults sample_config_content
                                   (path_join site_path wp_config_php))))).
    reflexivity.
Defined.

(** ** The natural-language query *)

(** Whatever the pattern matches, its second group holds at least one code
    unit and none of the class it excludes. *)
Lemma like_capture t s' c :
  matches like_regex t s' [] c ->
  exists w, capture 2 c = Some w /\ w <> [] /\
            forallb (none_of true (percent :: quotes)) w = true.
Proof.
  unfold like_regex, spaces1. cbn [sequence lit js list_ascii_of_string].
  intros H. inv_matches;
    match goal with
    | Hw : forallb (none_of true (percent :: quotes)) ?w = true |- _ =>
        exists w; cbn [capture Nat.eqb]; rewrite consumed_app;
        split; [reflexivity|split; [|assumption]];
        intros ->; simpl in *; lia
    end.
Qed.

(** Whatever the pattern matches starts with the word like, in any case. *)
Lemma like_word t s' c c' :
  matches like_regex t s' c c' ->
  exists w rest, t = w ++ rest /\ toLowerCase w = js "like".
Proof.
  unfold like_regex. cbn [sequence lit js list_ascii_of_string].
  intros H.
  repeat match goal with
         | H : matches (Seq (Seq _ _) _) _ _ _ _ |- _ => inversion H; subst; clear H
         | H : matches (Seq (Chr _) _) _ _ _ _ |- _ => inversion H; subst; clear H
         | H : matches (Chr _) _ _ _ _ |- _ => inversion H; subst; clear H
         | H : matches Eps _ _ _ _ |- _ => inversion H; subst; clear H
         end.
  match goal with
  | |- exists w rest, ?a :: ?b :: ?c :: ?d :: ?r = _ /\ _ => exists [a; b; c; d], r
  end.
  split; [reflexivity|].
  repeat match goal with
         | H : same_char true _ ?a = true |- _ =>
             revert H; destruct a as [[] [] [] [] [] [] [] []];
             try (intros H; discriminate H); intros _
         end;
  reflexivity.
Qed.

Lemma like_match_facts input m :
  exec like_regex input = Some m ->
  like_pattern input = group 2 m /\ group 2 m <> [] /\
  ~ In percent (group 2 m) /\ ~ In squote (group 2 m) /\ ~ In dquote (group 2 m) /\
  mentions input (js "like").
Proof.
  intros E. unfold like_pattern. rewrite E. split; [reflexivity|].
  apply exec_some in E. destruct E as (pre & t & -> & Hm & Ht & _).
  destruct (like_capture Hm) as (w & Hc & Hw & Hf).
  unfold group. rewrite Hc.
  pose proof (none_of_ci_not_in _ _ Hf) as Hno.
  repeat split; auto.
  - apply Hno. simpl; tauto.
  - apply Hno. simpl; tauto.
  - apply Hno. simpl; tauto.
  - destruct (like_word Hm) as (wd & rest & Hwd & Hl).
    exists pre, wd, rest. split; [now rewrite Hwd|assumption].
Qed.

Lemma like_pattern_empty input :
  like_pattern input = [] <-> never_matches like_regex input.
Proof.
  rewrite <- exec_never. split.
  - intros H. destruct (exec like_regex input) as [m|] eqn:E; [|reflexivity].
    destruct (@like_match_facts input m E) as (Hp & Hn & _). congruence.
  - intros H. unfold like_pattern. now rewrite H.
Qed.

Lemma query_never_unrecognized q st : fst (query q st) <> inl UnrecognizedQuery.
Proof.
  unfold query, bind, get_connection.
  destruct (connection (fst st)) as [h|] eqn:Hc; simpl.
  - rewrite Hc. destruct (run_sql (conn_db h) q); discriminate.
  - destruct (connectToDatabase st) as [[|] st']; simpl; [|discriminate].
    destruct (connection (fst st')) as [h|]; [|discriminate].
    destruct (run_sql (conn_db h) q); discriminate.
Qed.

Lemma translate_cases pre input :
  pre <> [] ->
  translate (Some pre) input =
    if (includes (toLowerCase input) (js "option") &&
        includes (toLowerCase input) (js "like"))%bool
    then if truthy (like_pattern input)
         then inr (SelectOptionsLike (pre ++ js "options")
                     (percent :: like_pattern input ++ [percent]) 50)
         else inl UnrecognizedQuery
    else inl UnrecognizedQuery.
Proof. intros H. unfold translate. destruct pre; [congruence|reflexivity]. Qed.

(** C6. With a known table prefix, the command answers UnrecognizedQuery
    exactly when the input does not hold both option and like (up to letter
    case) or the pattern yields no token; otherwise it sends the one
    statement on the options table of that prefix, with the token between
    two percent signs as the parameter of LIKE and the limit 50. The inputs
    find options like %mss% and find options like mss both bind %mss%, and
    show me themes is not recognized. *)
Theorem C6_translator_single_shape (st : state) (pre input : str) :
  getTablePrefix (fst st) = Some pre ->
  pre <> [] ->
  (fst (executeNaturalLanguageQuery input st) = inl UnrecognizedQuery <->
   ~ (mentions input (js "option") /\ mentions input (js "like")) \/
   like_pattern input = []) /\
  (mentions input (js "option") -> mentions input (js "like") ->
   like_pattern input <> [] ->
   translate (Some pre) input =
     inr (SelectOptionsLike (pre ++ js "options")
            (percent :: like_pattern input ++ [percent]) 50) /\
   executeNaturalLanguageQuery input st =
     query (SelectOptionsLike (pre ++ js "options")
              (percent :: like_pattern input ++ [percent]) 50) st) /\
  (like_pattern input = [] <-> never_matches like_regex input) /\
  translate (Some pre) (js "find options like %mss%") =
    inr (SelectOptionsLike (pre ++ js "options") (js "%mss%") 50) /\
  translate (Some pre) (js "find options like mss") =
    inr (SelectOptionsLike (pre ++ js "options") (js "%mss%") 50) /\
  translate (Some pre) (js "show me themes") = inl UnrecognizedQuery.
Proof.
  intros Hpre Hne.
  split; [|split; [|split; [apply like_pattern_empty|]]].
  - unfold executeNaturalLanguageQuery. rewrite Hpre, (translate_cases _ Hne).
    decide_mentions; cbn [andb];
      try (split; [intros _; left; tauto|reflexivity]).
    destruct (like_pattern input) as [|a l] eqn:El; cbn [truthy].
    + split; [auto|reflexivity].
    + split.
      * intros H. now apply query_never_unrecognized in H.
      * intros [H|H]; [tauto|discriminate].
  - intros Ho Hl Hp. apply includes_lower_mentions in Ho, Hl.
    assert (translate (Some pre) input =
            inr (SelectOptionsLike (pre ++ js "options")
                   (percent :: like_pattern input ++ [percent]) 50)) as Ht.
    { rewrite (translate_cases _ Hne), Ho, Hl. cbn [andb].
      destruct (like_pattern input); [congruence|reflexivity]. }
    split; [assumption|].
    unfold executeNaturalLanguageQuery. now rewrite Hpre, Ht.
  - repeat split; rewrite (translate_cases _ Hne); reflexivity.
Qed.

(** C10. Whenever the pattern matches, the token it captures is not empty
    and holds no percent sign and no quote character, the input holds the
    word like, and, with a known prefix and the word option in the input,
    the parameter bound to LIKE is a percent sign, the token, a percent
    sign. *)
Theorem C10_like_parameter_shape (input : str) (m : match_result) :
  exec like_regex input = Some m ->
  like_pattern input = group 2 m /\
  group 2 m <> [] /\
  ~ In percent (group 2 m) /\ ~ In squote (group 2 m) /\ ~ In dquote (group 2 m) /\
  forall pre, pre <> [] -> mentions input (js "option") ->
    translate (Some pre) input =
      inr (SelectOptionsLike (pre ++ js "options")
             (percent :: group 2 m ++ [percent]) 50).
Proof.
  intros E. destruct (@like_match_facts input m E) as (Hp & Hn & H1 & H2 & H3 & Hl).
  repeat split; auto.
  intros pre Hne Ho. apply includes_lower_mentions in Ho, Hl.
  rewrite (translate_cases _ Hne), Ho, Hl, Hp. cbn [andb].
  destruct (group 2 m); [congruence|reflexivity].
Qed.

Lemma C6_translator_witness :
  fst (executeNaturalLanguageQuery (js "show me themes")
         (configured_manager db_with_cptui)) = inl UnrecognizedQuery /\
  executeNaturalLanguageQuery (js "Find OPTIONS like mss")
    (configured_manager db_with_cptui) =
  query (SelectOptionsLike (js "wp_options") (js "%mss%") 50)
    (configured_manager db_with_cptui).
Proof.
  split.
  - apply (proj1 (@C6_translator_single_shape (configured_manager db_with_cptui)
                    (js "wp_") (js "show me themes") eq_refl ltac:(discriminate))).
    left. intros [H _]. revert H. unmentioned.
  - apply (proj1 (proj2 (@C6_translator_single_shape (configured_manager db_with_cptui)
                           (js "wp_") (js "Find OPTIONS like mss") eq_refl
                           ltac:(discriminate)))).
    + mentioned.
    + mentioned.
    + vm_compute. discriminate.
Defined.

Lemma C10_like_parameter_witness :
  like_pattern sample_like_input = js "mss" /\
  group 2 sample_like_match <> [] /\
  ~ In percent (group 2 sample_like_match) /\
  ~ In squote (group 2 sample_like_match) /\
  ~ In dquote (group 2 sample_like_match) /\
  forall pre, pre <> [] -> mentions sample_like_input (js "option") ->
    translate (Some pre) sample_like_input =
      inr (SelectOptionsLike (pre ++ js "options") (js "%mss%") 50).
Proof.
  apply (@C10_like_parameter_shape sample_like_input sample_like_match).
  reflexivity.
Defined.

(** ** The table prefix of a connected manager *)

Lemma parse_prefix_nonempty f p c :
  parseWordPressConfig f p = Some c -> tablePrefix c <> [].
Proof.
  unfold parseWordPressConfig. destruct (readFileAsync f p); [|discriminate].
  intros H. inversion H. cbn [parseConfigContent tablePrefix].
  apply or_else_nonempty. discriminate.
Qed.

Lemma find_coherent st : coherent st -> coherent (snd (manager_findWordPressConfig st)).
Proof.
  destruct st as [[cf cn] w]. unfold coherent, manager_findWordPressConfig, bind, get_world.
  simpl. intros [H1 H2].
  destruct (workspaceFolders w) as [|p ps]; simpl; auto.
  destruct (findWordPressConfig (fs w) p) as [cp|]; simpl; auto.
  destruct (parseWordPressConfig (fs w) cp) as [c|] eqn:E; simpl; auto.
  split; [discriminate|]. intros c' Hc. inversion Hc; subst.
  now apply parse_prefix_nonempty in E.
Qed.

Lemma ensure_config_coherent st : coherent st -> coherent (snd (ensure_config st)).
Proof.
  intros H. unfold ensure_config, bind, get_config.
  destruct (config (fst st)); simpl; [assumption|].
  apply find_coherent in H. destruct (manager_findWordPressConfig st); assumption.
Qed.

Lemma connect_coherent st : coherent st -> coherent (snd (connectToDatabase st)).
Proof.
  intros H. unfold connectToDatabase, bind.
  pose proof (ensure_config_coherent H) as H'.
  pose proof (ensure_config_result st) as Hr.
  destruct (ensure_config st) as [[cfg|] [[cf cn] w]]; simpl in *; [|assumption].
  unfold get_world. simpl. destruct (server w _) as [db|]; simpl; [|assumption].
  destruct H' as [H1 H2]. subst cf. split; simpl; [discriminate|assumption].
Qed.

Lemma query_coherent q st : coherent st -> coherent (snd (query q st)).
Proof.
  intros H. unfold query, bind, get_connection.
  destruct (connection (fst st)) as [h|] eqn:Hc; simpl.
  - rewrite Hc. destruct (run_sql (conn_db h) q); assumption.
  - apply connect_coherent in H.
    destruct (connectToDatabase st) as [[|] st']; simpl in *; [|assumption].
    destruct (connection (fst st')) as [h|]; [|assumption].
    destruct (run_sql (conn_db h) q); assumption.
Qed.

Lemma reader_coherent {A} (k : WordPressConfig -> M A) (dflt : A) st :
  (forall cfg st', coherent st' -> coherent (snd (k cfg st'))) ->
  coherent st ->
  coherent (snd ((c <- ensure_config ;;
                  match c with None => ret dflt | Some cfg => k cfg end) st)).
Proof.
  intros Hk H. unfold bind. apply ensure_config_coherent in H.
  destruct (ensure_config st) as [[cfg|] st']; simpl in *; auto.
Qed.

Lemma step_coherent o st : coherent st -> coherent (step o st).
Proof.
  intros H. destruct o; unfold step, discard.
  - now apply find_coherent.
  - now apply connect_coherent.
  - now apply query_coherent.
  - unfold getWordPressVersion. apply reader_coherent; [|assumption].
    intros cfg st' H'. unfold bind.
    apply (query_coherent (SelectOptionValue (tablePrefix cfg ++ js "options")
                             (js "version"))) in H'.
    destruct (query _ st') as [[e|[|r0 rows]] st'']; assumption.
  - unfold getActivePlugins. apply reader_coherent; [|assumption].
    intros cfg st' H'. unfold bind.
    apply (query_coherent (SelectOptionValue (tablePrefix cfg ++ js "options")
                             (js "active_plugins"))) in H'.
    destruct (query _ st') as [[e|[|r0 rows]] st'']; assumption.
  - unfold getCustomPostTypes. apply reader_coherent; [|assumption].
    intros cfg st' H'. unfold bind.
    apply (query_coherent (SelectOptionValue (tablePrefix cfg ++ js "options")
                             (js "cptui_post_types"))) in H'.
    assert (forall s, coherent s -> coherent (snd (posts_fallback cfg s))) as Hf.
    { intros s Hs. unfold posts_fallback, bind.
      apply (query_coherent (SelectDistinctPostTypes (tablePrefix cfg ++ js "posts")
                               builtin_post_types 20)) in Hs.
      destruct (query _ s) as [[e|rows] s']; assumption. }
    destruct (query _ st') as [[e|[|r0 rows]] st'']; simpl in *; auto.
    match goal with
    | |- context [match_all ?r ?v] => destruct (match_all r v)
    end; simpl; auto.
  - unfold executeNaturalLanguageQuery.
    destruct (translate (getTablePrefix (fst st)) input); [assumption|].
    now apply query_coherent.
  - destruct st as [[cf cn] w]. unfold coherent, disconnect, bind, get_connection in *.
    simpl in *. destruct cn as [h|]; simpl; [|assumption].
    split; [discriminate|apply H].
  - exact H.
Qed.

(** In every state a new manager can reach, being connected implies that
    the table prefix is known and not empty: the precondition under which
    the query command calls [executeNaturalLanguageQuery]. *)
Lemma prefix_known_when_connected (ops : list op) (w : World) :
  let st := run_ops ops ({| config := None; connection := None |}, w) in
  isConnected (fst st) = true ->
  exists pre, getTablePrefix (fst st) = Some pre /\ pre <> [].
Proof.
  cbv zeta.
  assert (forall st, coherent st -> coherent (run_ops ops st)) as Hrun.
  { induction ops as [|o ops IH]; intros st H; [assumption|].
    simpl. apply IH. now apply step_coherent. }
  specialize (Hrun ({| config := None; connection := None |}, w)).
  destruct Hrun as [H1 H2]; [split; simpl; [discriminate|intros c; discriminate]|].
  intros Hc. specialize (H1 Hc). unfold getTablePrefix.
  destruct (config (fst (run_ops ops _))) as [c|] eqn:E; [|congruence].
  exists (tablePrefix c). split; [reflexivity|]. now apply H2.
Qed.

(** * Further properties of the code *)

(** ** wp-config-finder: what a result means *)

Lemma marker_search f start n :
  (exists d, d < n /\ marker_at f (ancestor d start) = true) \/
  (forall d, d < n -> marker_at f (ancestor d start) = false).
Proof.
  induction n as [|n [(d & Hd & Hm)|Hn]].
  - right. intros d Hd. lia.
  - left. exists d. split; [lia|assumption].
  - destruct (marker_at f (ancestor n start)) eqn:E.
    + left. exists n. split; [lia|assumption].
    + right. intros d Hd. destruct (Nat.eq_dec d n) as [->|Hne]; [assumption|].
      apply Hn. lia.
Qed.

(** X1. A path returned by the search is the wp-config.php of a directory
    on the ancestor chain below the root, that path exists, no nearer
    directory holds one, and the search examined the directories from the
    start up to it and no other. *)
Theorem findWordPressConfig_result (f : filesystem) (start p : path) :
  findWordPressConfig f start = Some p ->
  exists d,
    d < length start /\
    p = path_join (ancestor d start) wp_config_php /\
    existsAsync f p = true /\
    (forall j, j < d -> marker_at f (ancestor j start) = false) /\
    examined f start = map (fun j => ancestor j start) (seq 0 (S d)).
Proof.
  intros H. unfold findWordPressConfig, examined in *.
  destruct (marker_search f start (length start)) as [(d0 & Hd0 & Hm0)|Hn].
  - destruct (nearest_marker f start d0 Hm0) as (d & Hle & Hm & Hnear).
    rewrite (@loop_found f d start) in * by (auto; lia). cbn [fst snd] in *.
    exists d. inversion H; subst. repeat split; auto. lia.
  - rewrite (@loop_not_found f (length start) start eq_refl Hn) in H. discriminate.
Qed.

Lemma findWordPressConfig_result_witness :
  exists d,
    d < length [dir_a; dir_b; dir_c] /\
    [dir_a; wp_config_php] = path_join (ancestor d [dir_a; dir_b; dir_c]) wp_config_php /\
    existsAsync fs_marker_in_a [dir_a; wp_config_php] = true /\
    (forall j, j < d -> marker_at fs_marker_in_a (ancestor j [dir_a; dir_b; dir_c]) = false) /\
    examined fs_marker_in_a [dir_a; dir_b; dir_c] =
      map (fun j => ancestor j [dir_a; dir_b; dir_c]) (seq 0 (S d)).
Proof.
  apply (@findWordPressConfig_result fs_marker_in_a [dir_a; dir_b; dir_c]
           [dir_a; wp_config_php]).
  reflexivity.
Defined.

(** X2. Whatever the file system holds, the search examines at most as many
    directories as the start path has components, each of them an ancestor
    of the start path (or the start path itself) below the root, nearest
    first. *)
Theorem examined_bounded (f : filesystem) (start : path) :
  length (examined f start) <= length start /\
  exists n, n <= length start /\
            examined f start = map (fun j => ancestor j start) (seq 0 n).
Proof.
  unfold examined.
  destruct (marker_search f start (length start)) as [(d0 & Hd0 & Hm0)|Hn].
  - destruct (nearest_marker f start d0 Hm0) as (d & Hle & Hm & Hnear).
    rewrite (@loop_found f d start) by (auto; lia). cbn [snd].
    rewrite length_map, length_seq. split; [lia|].
    exists (S d). split; [lia|reflexivity].
  - rewrite (@loop_not_found f (length start) start eq_refl Hn). cbn [snd].
    rewrite length_map, length_seq. split; [lia|].
    exists (length start). split; [lia|reflexivity].
Qed.

(** ** WordPressManager: discovery *)

Lemma dirname_join p name : dirname (path_join p name) = p.
Proof. unfold dirname, path_join. apply removelast_last. Qed.

Lemma found_path_shape f start p :
  findWordPressConfig f start = Some p ->
  exists d, d < length start /\ p = path_join (ancestor d start) wp_config_php.
Proof.
  intros H. unfold findWordPressConfig in H.
  destruct (marker_search f start (length start)) as [(d0 & Hd0 & Hm0)|Hn].
  - destruct (nearest_marker f start d0 Hm0) as (d & Hle & Hm & Hnear).
    rewrite (@loop_found f d start) in H by (auto; lia). cbn [fst] in H.
    exists d. inversion H. split; [lia|reflexivity].
  - rewrite (@loop_not_found f (length start) start eq_refl Hn) in H. discriminate.
Qed.

Lemma find_none_state st :
  fst (manager_findWordPressConfig st) = None ->
  snd (manager_findWordPressConfig st) = st.
Proof.
  destruct st as [[cf cn] w].
  unfold manager_findWordPressConfig, bind, get_world. cbn [fst snd].
  destruct (workspaceFolders w) as [|ws rest]; cbn [ret fst snd]; [reflexivity|].
  destruct (findWordPressConfig (fs w) ws) as [cp|]; cbn [ret fst snd]; [|reflexivity].
  destruct (parseWordPressConfig (fs w) cp) as [c|]; cbn [ret fst snd]; [|reflexivity].
  unfold set_config. cbn. discriminate.
Qed.

Lemma find_some_config st c :
  fst (manager_findWordPressConfig st) = Some c ->
  config (fst (snd (manager_findWordPressConfig st))) = Some c.
Proof.
  unfold manager_findWordPressConfig, bind, get_world. cbn [fst snd].
  destruct (workspaceFolders (snd st)) as [|ws wss]; [discriminate|].
  destruct (findWordPressConfig _ ws) as [p|]; [|discriminate].
  destruct (parseWordPressConfig _ p); [|discriminate].
  simpl. trivial.
Qed.

Lemma find_world st : snd (snd (manager_findWordPressConfig st)) = snd st.
Proof.
  destruct st as [[cf cn] w].
  unfold manager_findWordPressConfig, bind, get_world. cbn [fst snd].
  destruct (workspaceFolders w) as [|ws rest]; cbn [ret fst snd]; [reflexivity|].
  destruct (findWordPressConfig (fs w) ws) as [cp|]; cbn [ret fst snd]; [|reflexivity].
  destruct (parseWordPressConfig (fs w) cp) as [c|]; reflexivity.
Qed.

(** X3. When the manager's discovery succeeds, the configuration it returns
    is the one it stores; it was parsed from a readable wp-config.php whose
    directory, the WordPress path, is the first workspace folder or one of
    its ancestors below the root; the connection and the environment are
    left as they were. *)
Theorem manager_find_success (st : state) (c : WordPressConfig) :
  fst (manager_findWordPressConfig st) = Some c ->
  config (fst (snd (manager_findWordPressConfig st))) = Some c /\
  connection (fst (snd (manager_findWordPressConfig st))) = connection (fst st) /\
  snd (snd (manager_findWordPressConfig st)) = snd st /\
  configPath c = path_join (wpPath c) wp_config_php /\
  (exists ws rest d,
     workspaceFolders (snd st) = ws :: rest /\ d < length ws /\
     wpPath c = ancestor d ws) /\
  (exists content,
     readFileAsync (fs (snd st)) (configPath c) = Some content /\
     c = parseConfigContent content (configPath c)).
Proof.
  destruct st as [[cf cn] w].
  unfold manager_findWordPressConfig, bind, get_world. cbn [fst snd].
  destruct (workspaceFolders w) as [|ws rest] eqn:Ew; cbn [ret fst snd]; [discriminate|].
  destruct (findWordPressConfig (fs w) ws) as [cp|] eqn:Ef; cbn [ret fst snd]; [|discriminate].
  unfold parseWordPressConfig.
  destruct (readFileAsync (fs w) cp) as [content|] eqn:Er; cbn [ret fst snd]; [|discriminate].
  unfold set_config. cbn [fst snd config connection]. intros H. inversion H; subst c; clear H.
  apply found_path_shape in Ef. destruct Ef as (d & Hd & ->).
  cbn [parseConfigContent configPath wpPath]. rewrite dirname_join.
  repeat split; auto.
  - exists ws, rest, d. auto.
  - exists content. auto.
Qed.

Lemma manager_find_success_witness :
  config (fst (snd (manager_findWordPressConfig (new_manager db_with_cptui))))
    = Some sample_config /\
  connection (fst (snd (manager_findWordPressConfig (new_manager db_with_cptui))))
    = connection (fst (new_manager db_with_cptui)) /\
  snd (snd (manager_findWordPressConfig (new_manager db_with_cptui)))
    = snd (new_manager db_with_cptui) /\
  configPath sample_config = path_join (wpPath sample_config) wp_config_php /\
  (exists ws rest d,
     workspaceFolders (snd (new_manager db_with_cptui)) = ws :: rest /\ d < length ws /\
     wpPath sample_config = ancestor d ws) /\
  (exists content,
     readFileAsync (fs (snd (new_manager db_with_cptui))) (configPath sample_config)
       = Some content /\
     sample_config = parseConfigContent content (configPath sample_config)).
Proof.
  apply (@manager_find_success (new_manager db_with_cptui) sample_config).
  reflexivity.
Defined.

(** X4. The manager's discovery fails exactly when there is no workspace
    folder, or no wp-config.php on the chain of the first one below the
    root, or the file found cannot be read; and then nothing changes: a
    configuration found earlier stays in place. *)
Theorem manager_find_failure (st : state) :
  (fst (manager_findWordPressConfig st) = None <->
   match workspaceFolders (snd st) with
   | [] => True
   | ws :: _ =>
       match findWordPressConfig (fs (snd st)) ws with
       | None => True
       | Some cfgPath => readFileAsync (fs (snd st)) cfgPath = None
       end
   end) /\
  (fst (manager_findWordPressConfig st) = None ->
   snd (manager_findWordPressConfig st) = st).
Proof.
  split; [|apply find_none_state].
  destruct st as [[cf cn] w].
  unfold manager_findWordPressConfig, bind, get_world. cbn [fst snd].
  destruct (workspaceFolders w) as [|ws rest]; cbn [ret fst snd]; [tauto|].
  destruct (findWordPressConfig (fs w) ws) as [cp|]; cbn [ret fst snd]; [|tauto].
  unfold parseWordPressConfig.
  destruct (readFileAsync (fs w) cp) as [content|]; cbn [ret fst snd]; [|tauto].
  unfold set_config. cbn. split; discriminate.
Qed.

Lemma manager_find_failure_witness :
  snd (manager_findWordPressConfig
         ({| config := Some sample_config; connection := None |}, snd lost_manager)) =
  ({| config := Some sample_config; connection := None |}, snd lost_manager).
Proof.
  apply (proj2 (manager_find_failure
                  ({| config := Some sample_config; connection := None |},
                   snd lost_manager))).
  apply (proj2 (proj1 (manager_find_failure
                  ({| config := Some sample_config; connection := None |},
                   snd lost_manager)))).
  reflexivity.
Defined.

(** ** WordPressManager: the connection *)

(** X5. [connectToDatabase] answers true exactly when it has opened one new
    handle, with the next free number, on the database the server gives for
    the stored credentials, and has stored it; when it answers false, the
    stored connection and the open handles are as before. *)
Theorem connectToDatabase_outcome (st : state) :
  (fst (connectToDatabase st) = true ->
   exists cfg h,
     config (fst (snd (connectToDatabase st))) = Some cfg /\
     connection (fst (snd (connectToDatabase st))) = Some h /\
     conn_id h = next_handle (snd st) /\
     server (snd st) (credentials_of cfg) = Some (conn_db h) /\
     open_handles (snd (snd (connectToDatabase st))) =
       next_handle (snd st) :: open_handles (snd st) /\
     next_handle (snd (snd (connectToDatabase st))) = S (next_handle (snd st))) /\
  (fst (connectToDatabase st) = false ->
   connection (fst (snd (connectToDatabase st))) = connection (fst st) /\
   open_handles (snd (snd (connectToDatabase st))) = open_handles (snd st) /\
   next_handle (snd (snd (connectToDatabase st))) = next_handle (snd st)).
Proof.
  unfold connectToDatabase, bind.
  destruct (quiet_ensure_config st) as [Hc Ho].
  pose proof (ensure_config_result st) as Hr.
  assert (snd (snd (ensure_config st)) = snd st) as Hw.
  { unfold ensure_config, bind, get_config.
    destruct (config (fst st)); cbn [fst snd]; [reflexivity|].
    pose proof (find_world st) as H.
    destruct (manager_findWordPressConfig st) as [r st']. exact H. }
  destruct (ensure_config st) as [[cfg|] [[cf cn] w]]; cbn [fst snd] in *.
  - subst w. unfold get_world. cbn [fst snd].
    unfold credentials_of.
    destruct (server (snd st) _) as [db|] eqn:Es; cbn [fst snd ret].
    + split; [|discriminate]. intros _.
      exists cfg, {| conn_id := next_handle (snd st); conn_db := db |}.
      cbn. repeat split; auto; try now rewrite Ho.
    + split; [discriminate|]. intros _. cbn in *. auto.
  - split; [discriminate|]. intros _. cbn in *. subst. auto.
Qed.

Lemma connectToDatabase_outcome_witness :
  (exists cfg h,
     config (fst (snd (connectToDatabase (new_manager db_with_cptui)))) = Some cfg /\
     connection (fst (snd (connectToDatabase (new_manager db_with_cptui)))) = Some h /\
     conn_id h = next_handle (snd (new_manager db_with_cptui)) /\
     server (snd (new_manager db_with_cptui)) (credentials_of cfg) = Some (conn_db h) /\
     open_handles (snd (snd (connectToDatabase (new_manager db_with_cptui)))) =
       next_handle (snd (new_manager db_with_cptui)) ::
       open_handles (snd (new_manager db_with_cptui)) /\
     next_handle (snd (snd (connectToDatabase (new_manager db_with_cptui)))) =
       S (next_handle (snd (new_manager db_with_cptui)))) /\
  (connection (fst (snd (connectToDatabase offline_manager))) =
     connection (fst offline_manager) /\
   open_handles (snd (snd (connectToDatabase offline_manager))) =
     open_handles (snd offline_manager) /\
   next_handle (snd (snd (connectToDatabase offline_manager))) =
     next_handle (snd offline_manager)).
Proof.
  split.
  - apply (proj1 (connectToDatabase_outcome (new_manager db_with_cptui))). reflexivity.
  - apply (proj2 (connectToDatabase_outcome offline_manager)). reflexivity.
Defined.

(** X6. [disconnect] keeps the configuration and the environment, forgets
    the connection, closes its handle and no other, and a second
    [disconnect] changes nothing more. *)
Theorem disconnect_effect (st : state) :
  config (fst (snd (disconnect st))) = config (fst st) /\
  connection (fst (snd (disconnect st))) = None /\
  (forall h, In h (open_handles (snd (snd (disconnect st)))) <->
             In h (open_handles (snd st)) /\ ~ In h (held (fst st))) /\
  snd (disconnect (snd (disconnect st))) = snd (disconnect st).
Proof.
  destruct st as [[cf [c|]] w]; unfold disconnect, bind, get_connection, held; cbn.
  - split; [reflexivity|]. split; [reflexivity|]. split; [|reflexivity].
    intros h. split.
    + intros Hin. apply in_remove in Hin. destruct Hin as [Hin Hne].
      split; [assumption|]. intros [E|[]]. congruence.
    + intros [H1 H2]. apply in_in_remove; [|assumption]. intros E. apply H2. now left.
  - split; [reflexivity|]. split; [reflexivity|]. split; [|reflexivity].
    intros h. tauto.
Qed.

Lemma query_connected st h q :
  connection (fst st) = Some h ->
  query q st =
    (match run_sql (conn_db h) q with
     | Some rows => inr rows
     | None => inl QueryFailed
     end, st).
Proof.
  intros H. unfold query, bind, get_connection. rewrite H. cbn [ret negb].
  rewrite H. destruct (run_sql (conn_db h) q); reflexivity.
Qed.

(** X7. A connected manager answers every query from the database of the
    handle it holds and changes nothing: no discovery, no new connection.
    This stays so after a later discovery, whatever configuration it
    finds: the queries still go to the database of the handle. *)
Theorem query_on_connection (st : state) (h : Connection) (q : sql) :
  connection (fst st) = Some h ->
  snd (query q st) = st /\
  (fst (query q st) = inl QueryFailed <-> run_sql (conn_db h) q = None) /\
  (forall rows, fst (query q st) = inr rows <-> run_sql (conn_db h) q = Some rows) /\
  fst (query q (snd (manager_findWordPressConfig st))) = fst (query q st).
Proof.
  intros H.
  assert (connection (fst (snd (manager_findWordPressConfig st))) = Some h) as H'
    by (destruct (quiet_find st) as [Hq _]; now rewrite Hq).
  rewrite (query_connected _ q H'), (query_connected _ q H). cbn [fst snd].
  destruct (run_sql (conn_db h) q); repeat split; try congruence; try discriminate.
Qed.

Lemma query_on_connection_witness :
  snd (query (SelectOptionValue (js "wp_options") (js "active_plugins"))
         (snd (connectToDatabase (new_manager db_with_cptui)))) =
    snd (connectToDatabase (new_manager db_with_cptui)) /\
  fst (query (SelectOptionValue (js "wp_options") (js "active_plugins"))
         (snd (connectToDatabase (new_manager db_with_cptui)))) =
    inr [[(js "option_value", sample_plugins_value)]].
Proof.
  destruct (@query_on_connection (snd (connectToDatabase (new_manager db_with_cptui)))
              {| conn_id := 0; conn_db := db_with_cptui |}
              (SelectOptionValue (js "wp_options") (js "active_plugins")) eq_refl)
    as (H1 & _ & H3 & _).
  split; [exact H1|]. apply H3. reflexivity.
Defined.

(** ** Readers and handlers when the database cannot be reached *)

Lemma query_offline st cfg q :
  config (fst st) = Some cfg ->
  connection (fst st) = None ->
  server (snd st) (credentials_of cfg) = None ->
  query q st = (inl ConnectionNotEstablished, st).
Proof.
  destruct st as [[cf cn] w]. cbn [fst snd config connection]. intros -> -> Hs.
  unfold query, bind, get_connection. cbn [fst snd connection].
  unfold connectToDatabase, bind. rewrite (@ensure_config_some _ cfg) by reflexivity.
  unfold get_world. cbn [fst snd]. unfold credentials_of in Hs. rewrite Hs. reflexivity.
Qed.

(** X8. When a configured manager holds no connection and the server
    rejects its credentials, every query fails with
    ConnectionNotEstablished, the readers answer with their empty results,
    the handlers with their nothing-found messages (the version being
    Unknown), and the state is unchanged: no handle is opened. *)
Theorem offline_answers (st : state) (cfg : WordPressConfig) :
  config (fst st) = Some cfg ->
  connection (fst st) = None ->
  server (snd st) (credentials_of cfg) = None ->
  (forall q, query q st = (inl ConnectionNotEstablished, st)) /\
  getWordPressVersion st = (None, st) /\
  getActivePlugins st = ([], st) /\
  getCustomPostTypes st = ([], st) /\
  handlePluginQuery st =
    ({| type := plugin_info; data := ListData [];
        message := js "No active plugins were found or the WordPress database is not accessible." |},
     st) /\
  handlePostTypeQuery st =
    ({| type := custom_post_types; data := ListData [];
        message := js "No custom post types were found in this WordPress installation." |},
     st) /\
  (exists r, handleGeneralInfoQuery cfg st = (r, st) /\
             type r = general_info /\
             data r = GeneralData None (wpPath cfg) (configPath cfg) /\
             includes (message r) (js "- WordPress Version: Unknown") = true).
Proof.
  intros Hc Hn Hs.
  assert (forall q, query q st = (inl ConnectionNotEstablished, st)) as Hq
    by (intros q; now apply (@query_offline st cfg)).
  assert (getWordPressVersion st = (None, st)) as Hv.
  { unfold getWordPressVersion, bind. now rewrite (ensure_config_some _ Hc), Hq. }
  assert (getActivePlugins st = ([], st)) as Hp.
  { unfold getActivePlugins, bind. now rewrite (ensure_config_some _ Hc), Hq. }
  assert (getCustomPostTypes st = ([], st)) as Ht.
  { unfold getCustomPostTypes, bind. now rewrite (ensure_config_some _ Hc), Hq. }
  repeat split; auto.
  - unfold handlePluginQuery, bind. now rewrite Hp.
  - unfold handlePostTypeQuery, bind. now rewrite Ht.
  - unfold handleGeneralInfoQuery, bind. rewrite Hv. cbn [ret].
    eexists. split; [reflexivity|]. cbn [type data message version_text].
    repeat split.
Qed.

Lemma offline_answers_witness :
  (forall q, query q offline_manager = (inl ConnectionNotEstablished, offline_manager)) /\
  getWordPressVersion offline_manager = (None, offline_manager) /\
  getActivePlugins offline_manager = ([], offline_manager) /\
  getCustomPostTypes offline_manager = ([], offline_manager) /\
  handlePluginQuery offline_manager =
    ({| type := plugin_info; data := ListData [];
        message := js "No active plugins were found or the WordPress database is not accessible." |},
     offline_manager) /\
  handlePostTypeQuery offline_manager =
    ({| type := custom_post_types; data := ListData [];
        message := js "No custom post types were found in this WordPress installation." |},
     offline_manager) /\
  (exists r, handleGeneralInfoQuery sample_config offline_manager = (r, offline_manager) /\
             type r = general_info /\
             data r = GeneralData None (wpPath sample_config) (configPath sample_config) /\
             includes (message r) (js "- WordPress Version: Unknown") = true).
Proof.
  apply (@offline_answers offline_manager sample_config); reflexivity.
Defined.

(** ** wp-config-parser: what the fields can hold *)

Lemma quote_free_literal s :
  forallb (fun a => negb (ascii_eqb a squote || ascii_eqb a dquote)) s = true ->
  quote_free s.
Proof.
  intros H. rewrite forallb_forall in H. split; intros Hin; apply H in Hin;
    unfold ascii_eqb in Hin; rewrite N.eqb_refl in Hin; simpl in Hin;
    try discriminate; now rewrite orb_true_r in Hin.
Qed.

Lemma define_group_quote_free key content r :
  exec (define_regex key) content = Some r -> quote_free (group 1 r).
Proof.
  intros E. apply exec_some in E. destruct E as (pre & t & _ & Hm & _).
  apply define_match_shape in Hm. destruct Hm as (d & Hok & _ & Hg).
  unfold group. rewrite Hg. cbn [capture Nat.eqb].
  destruct Hok as (_ & _ & _ & _ & _ & _ & _ & _ & _ & _ & _ & _ & Hs & Hd).
  now split.
Qed.

Lemma assignment_group_quote_free content r :
  exec tablePrefixRegex content = Some r -> quote_free (group 1 r).
Proof.
  intros E. apply exec_some in E. destruct E as (pre & t & _ & Hm & _).
  apply assignment_match_shape in Hm. destruct Hm as (a & Hok & _ & Hg).
  unfold group. rewrite Hg. cbn [capture Nat.eqb].
  destruct Hok as (_ & _ & _ & _ & _ & _ & Hs & Hd).
  now split.
Qed.

Lemma extract_quote_free content key : quote_free (extractConfigValue content key).
Proof.
  assert (quote_free []) as Hnil by (split; intros []).
  assert (quote_free (js "wp_")) as Hwp by (now apply quote_free_literal).
  assert (quote_free (group1_or (exec tablePrefixRegex content) (js "wp_"))) as Hpre.
  { unfold group1_or. destruct (exec tablePrefixRegex content) as [r|] eqn:E; [|assumption].
    destruct (truthy (group 1 r)); [|assumption].
    now apply (@assignment_group_quote_free content). }
  unfold extractConfigValue.
  destruct (exec (define_regex key) content) as [r|] eqn:E.
  - destruct (truthy (group 1 r)).
    + now apply (@define_group_quote_free key content).
    + destruct (str_eqb key (js "table_prefix")); assumption.
  - destruct (str_eqb key (js "table_prefix")); assumption.
Qed.

Lemma or_else_quote_free a b : quote_free a -> quote_free b -> quote_free (or_else a b).
Proof. intros Ha Hb. unfold or_else. destruct (truthy a); assumption. Qed.

(** X9. Whatever the file holds, no field of the parsed configuration
    contains a single or a double quote, and the host and the table prefix
    are not empty. In particular a password that contains a quote character
    is never recovered. *)
Theorem parsed_fields_quote_free (content : str) (p : path) :
  quote_free (dbName (parseConfigContent content p)) /\
  quote_free (dbUser (parseConfigContent content p)) /\
  quote_free (dbPassword (parseConfigContent content p)) /\
  quote_free (dbHost (parseConfigContent content p)) /\
  quote_free (tablePrefix (parseConfigContent content p)) /\
  dbHost (parseConfigContent content p) <> [] /\
  tablePrefix (parseConfigContent content p) <> [] /\
  (forall pw, In squote pw \/ In dquote pw ->
              dbPassword (parseConfigContent content p) <> pw).
Proof.
  cbn [parseConfigContent dbName dbUser dbPassword dbHost tablePrefix].
  assert (quote_free (js "localhost")) as Hl by (now apply quote_free_literal).
  assert (quote_free (js "wp_")) as Hw by (now apply quote_free_literal).
  split; [apply extract_quote_free|].
  split; [apply extract_quote_free|].
  split; [apply extract_quote_free|].
  split; [apply or_else_quote_free; [apply extract_quote_free|assumption]|].
  split; [apply or_else_quote_free; [apply extract_quote_free|assumption]|].
  split; [apply or_else_nonempty; discriminate|].
  split; [apply or_else_nonempty; discriminate|].
  intros pw Hpw E.
  destruct (extract_quote_free content (js "DB_PASSWORD")) as [H1 H2].
  rewrite E in H1, H2. tauto.
Qed.

(** ** mcp-provider: which keyword decides an answer *)

Lemma includes_within s big small :
  (exists a b, big = a ++ small ++ b) ->
  includes s big = true -> includes s small = true.
Proof.
  intros (a & b & ->) H. apply includes_spec in H. destruct H as (pre & post & ->).
  apply includes_spec. exists (pre ++ a), (b ++ post). now rewrite !app_assoc.
Qed.

Lemma includes_within_false s big small :
  (exists a b, big = a ++ small ++ b) ->
  includes s small = false -> includes s big = false.
Proof.
  intros Hw Hs. destruct (includes s big) eqn:E; [|reflexivity].
  apply (@includes_within s big small Hw) in E. congruence.
Qed.

Ltac within a small b :=
  apply (@includes_within_false _ _ small); [exists a, b; reflexivity|assumption].

(** X10. The database handler always answers with type database_info and
    with the name, user, host, prefix and configuration path as data. Its
    message is decided by the first of user, name, host, prefix-or-table
    that occurs in the query (the alternatives username, db_user, db_name
    and db_host of the source never change the decision), and it does not
    depend on the password. *)
Theorem handleDatabaseQuery_decision (cfg : WordPressConfig) (query : str) :
  type (handleDatabaseQuery cfg query) = database_info /\
  data (handleDatabaseQuery cfg query) =
    DatabaseData (dbName cfg) (dbUser cfg) (dbHost cfg) (tablePrefix cfg) (configPath cfg) /\
  (includes query (js "user") = true ->
   message (handleDatabaseQuery cfg query) =
     js "The database username in your wp-config.php is: " ++ dbUser cfg) /\
  (includes query (js "user") = false -> includes query (js "name") = true ->
   message (handleDatabaseQuery cfg query) =
     js "The database name in your wp-config.php is: " ++ dbName cfg) /\
  (includes query (js "user") = false -> includes query (js "name") = false ->
   includes query (js "host") = true ->
   message (handleDatabaseQuery cfg query) =
     js "The database host in your wp-config.php is: " ++ dbHost cfg) /\
  (includes query (js "user") = false -> includes query (js "name") = false ->
   includes query (js "host") = false ->
   includes query (js "prefix") = true \/ includes query (js "table") = true ->
   message (handleDatabaseQuery cfg query) =
     js "The table prefix in your wp-config.php is: " ++ tablePrefix cfg) /\
  (forall pw, handleDatabaseQuery (with_password cfg pw) query =
              handleDatabaseQuery cfg query).
Proof.
  split; [reflexivity|]. split; [reflexivity|].
  unfold handleDatabaseQuery. cbn [message].
  split; [|split; [|split; [|split]]].
  - intros Hu. rewrite Hu, orb_true_r. reflexivity.
  - intros Hu Hn.
    assert (includes query (js "username") = false) as -> by within (@nil ascii) (js "user") (js "name").
    assert (includes query (js "db_user") = false) as -> by within (js "db_") (js "user") (@nil ascii).
    now rewrite Hu, Hn.
  - intros Hu Hn Hh.
    assert (includes query (js "username") = false) as -> by within (@nil ascii) (js "user") (js "name").
    assert (includes query (js "db_user") = false) as -> by within (js "db_") (js "user") (@nil ascii).
    assert (includes query (js "db_name") = false) as -> by within (js "db_") (js "name") (@nil ascii).
    now rewrite Hu, Hn, Hh.
  - intros Hu Hn Hh Hp.
    assert (includes query (js "username") = false) as -> by within (@nil ascii) (js "user") (js "name").
    assert (includes query (js "db_user") = false) as -> by within (js "db_") (js "user") (@nil ascii).
    assert (includes query (js "db_name") = false) as -> by within (js "db_") (js "name") (@nil ascii).
    assert (includes query (js "db_host") = false) as -> by within (js "db_") (js "host") (@nil ascii).
    rewrite Hu, Hn, Hh. cbn [orb].
    destruct Hp as [-> | ->]; [reflexivity|now rewrite orb_true_r].
  - intros pw. reflexivity.
Qed.

Lemma handleDatabaseQuery_decision_witness :
  message (handleDatabaseQuery sample_config (js "database username")) =
    js "The database username in your wp-config.php is: root" /\
  message (handleDatabaseQuery sample_config (js "what is the database name")) =
    js "The database name in your wp-config.php is: shop" /\
  message (handleDatabaseQuery sample_config (js "database host")) =
    js "The database host in your wp-config.php is: localhost" /\
  message (handleDatabaseQuery sample_config (js "db tables")) =
    js "The table prefix in your wp-config.php is: wp_".
Proof.
  split; [|split; [|split]].
  - apply (proj1 (proj2 (proj2 (handleDatabaseQuery_decision sample_config
                                  (js "database username"))))).
    reflexivity.
  - apply (proj1 (proj2 (proj2 (proj2 (handleDatabaseQuery_decision sample_config
                                         (js "what is the database name")))))); reflexivity.
  - apply (proj1 (proj2 (proj2 (proj2 (proj2 (handleDatabaseQuery_decision sample_config
                                                (js "database host"))))))); reflexivity.
  - apply (proj1 (proj2 (proj2 (proj2 (proj2 (proj2
             (handleDatabaseQuery_decision sample_config (js "db tables")))))))).
    + reflexivity.
    + reflexivity.
    + reflexivity.
    + right. reflexivity.
Defined.

(** The chat handler of a configured manager, on a prompt that mentions
    username. *)
Lemma handler_configured readdir prompt st cfg :
  config (fst st) = Some cfg ->
  mentions prompt (js "username") ->
  wordpressRequestHandler readdir prompt st =
    (js "The database username in your wp-config.php is: " ++ dbUser cfg, st).
Proof.
  intros Hc H. apply includes_lower_mentions in H.
  unfold wordpressRequestHandler, bind, get_config. cbn [fst snd]. rewrite Hc. cbn [ret].
  rewrite Hc.
  assert (classify prompt = database_info) as ->.
  { unfold classify. rewrite H. cbn [orb]. now rewrite !orb_true_r. }
  unfold handleDatabaseQuery. cbn [message ret]. now rewrite H.
Qed.

(** X11. A chat prompt in which username occurs, in any letter case, is
    answered by [wordpressRequestHandler] with the database user of the
    configuration the manager holds or, when it holds none, of the one it
    then finds in the workspace, whatever else the prompt asks for; when it
    holds none and finds none, the answer is that no configuration was
    found. *)
Theorem username_prompt_answer (readdir : path -> option (list str)) (prompt : str)
    (st : state) :
  mentions prompt (js "username") ->
  fst (wordpressRequestHandler readdir prompt st) =
    match config (fst st) with
    | Some cfg => js "The database username in your wp-config.php is: " ++ dbUser cfg
    | None =>
        match fst (manager_findWordPressConfig st) with
        | Some cfg => js "The database username in your wp-config.php is: " ++ dbUser cfg
        | None =>
            js "WordPress configuration not found. Please open a folder containing WordPress installation."
        end
    end.
Proof.
  intros H. destruct (config (fst st)) as [cfg|] eqn:Hc.
  - now rewrite (handler_configured readdir st Hc H).
  - pose proof (@find_some_config st) as Hs. pose proof (@find_none_state st) as Hn.
    pose proof (@handler_configured readdir prompt (snd (manager_findWordPressConfig st))) as Hh.
    unfold wordpressRequestHandler, bind, get_config in *. cbn [fst snd] in *.
    rewrite Hc.
    destruct (manager_findWordPressConfig st) as [[c|] st1]; cbn [fst snd] in *.
    + specialize (Hh c (Hs c eq_refl) H). rewrite (Hs c eq_refl) in *. cbn [ret] in Hh.
      rewrite (Hs c eq_refl) in Hh. now rewrite Hh.
    + rewrite (Hn eq_refl), Hc. reflexivity.
Qed.

Lemma username_prompt_answer_witness :
  fst (wordpressRequestHandler no_listing (js "Which UserName and host does the site use?")
         (new_manager db_with_cptui)) =
    js "The database username in your wp-config.php is: root" /\
  fst (wordpressRequestHandler no_listing (js "Which UserName and host does the site use?")
         lost_manager) =
    js "WordPress configuration not found. Please open a folder containing WordPress installation.".
Proof.
  split.
  - rewrite (@username_prompt_answer no_listing
               (js "Which UserName and host does the site use?")
               (new_manager db_with_cptui)); [reflexivity|mentioned].
  - rewrite (@username_prompt_answer no_listing
               (js "Which UserName and host does the site use?")
               lost_manager); [reflexivity|mentioned].
Defined.

(** X21. Whatever the prompt, a manager that holds no configuration and
    finds none makes the chat handler answer that no configuration was
    found, and the handler changes nothing. *)
Theorem chat_answer_unconfigured (readdir : path -> option (list str)) (prompt : str)
    (st : state) :
  config (fst st) = None ->
  fst (manager_findWordPressConfig st) = None ->
  wordpressRequestHandler readdir prompt st =
    (js "WordPress configuration not found. Please open a folder containing WordPress installation.",
     st).
Proof.
  intros Hc Hf. unfold wordpressRequestHandler, bind, get_config. cbn [fst snd].
  rewrite Hc. pose proof (find_none_state st Hf) as Hn.
  destruct (manager_findWordPressConfig st) as [r st1]. cbn [fst snd] in *. subst st1.
  now rewrite Hc.
Qed.

Lemma chat_answer_unconfigured_witness :
  wordpressRequestHandler no_listing (js "List active plugins") lost_manager =
    (js "WordPress configuration not found. Please open a folder containing WordPress installation.",
     lost_manager).
Proof.
  apply (@chat_answer_unconfigured no_listing (js "List active plugins") lost_manager);
    reflexivity.
Defined.

Lemma answerConfigQuestion_configured st cfg question :
  config (fst st) = Some cfg ->
  answerConfigQuestion question st = (legacy_answer cfg (toLowerCase question), st).
Proof.
  intros H. unfold answerConfigQuestion, bind, get_config. rewrite H. cbn [ret].
  now rewrite H.
Qed.

(** X12. The legacy command, asked by a configured manager, leaves the
    state alone and decides its answer by the first of: user; database
    name, db name or db_name; host; password; prefix (the alternatives
    username, db_user, db_host, db_password and table prefix of the source
    never change the decision). A question about the password is answered
    with the path of the configuration file, and no answer depends on the
    password. *)
Theorem answerConfigQuestion_decision (st : state) (cfg : WordPressConfig)
    (question : str) :
  config (fst st) = Some cfg ->
  let q := toLowerCase question in
  let names := (includes q (js "database name") || includes q (js "db name") ||
                includes q (js "db_name"))%bool in
  snd (answerConfigQuestion question st) = st /\
  (includes q (js "user") = true ->
   fst (answerConfigQuestion question st) =
     js "The database username in your wp-config.php is: " ++ dbUser cfg) /\
  (includes q (js "user") = false -> names = true ->
   fst (answerConfigQuestion question st) =
     js "The database name in your wp-config.php is: " ++ dbName cfg) /\
  (includes q (js "user") = false -> names = false -> includes q (js "host") = true ->
   fst (answerConfigQuestion question st) =
     js "The database host in your wp-config.php is: " ++ dbHost cfg) /\
  (includes q (js "user") = false -> names = false -> includes q (js "host") = false ->
   includes q (js "password") = true ->
   fst (answerConfigQuestion question st) =
     js "The database password is defined in your wp-config.php at: " ++
     path_text (configPath cfg)) /\
  (includes q (js "user") = false -> names = false -> includes q (js "host") = false ->
   includes q (js "password") = false -> includes q (js "prefix") = true ->
   fst (answerConfigQuestion question st) =
     js "The table prefix in your wp-config.php is: " ++ tablePrefix cfg) /\
  (forall pw,
     fst (answerConfigQuestion question
            ({| config := Some (with_password cfg pw); connection := connection (fst st) |},
             snd st)) =
     fst (answerConfigQuestion question st)).
Proof.
  intros Hc. cbv zeta. rewrite (@answerConfigQuestion_configured st cfg question Hc).
  cbn [fst snd].
  set (q := toLowerCase question).
  split; [reflexivity|]. unfold legacy_answer. fold q.
  split; [|split; [|split; [|split; [|split]]]].
  - intros Hu. now rewrite Hu, orb_true_r.
  - intros Hu Hn.
    assert (includes q (js "username") = false) as ->
      by within (@nil ascii) (js "user") (js "name").
    assert (includes q (js "db_user") = false) as ->
      by within (js "db_") (js "user") (@nil ascii).
    now rewrite Hu, Hn.
  - intros Hu Hn Hh.
    assert (includes q (js "username") = false) as ->
      by within (@nil ascii) (js "user") (js "name").
    assert (includes q (js "db_user") = false) as ->
      by within (js "db_") (js "user") (@nil ascii).
    now rewrite Hu, Hn, Hh.
  - intros Hu Hn Hh Hp.
    assert (includes q (js "username") = false) as ->
      by within (@nil ascii) (js "user") (js "name").
    assert (includes q (js "db_user") = false) as ->
      by within (js "db_") (js "user") (@nil ascii).
    assert (includes q (js "db_host") = false) as ->
      by within (js "db_") (js "host") (@nil ascii).
    now rewrite Hu, Hn, Hh, Hp.
  - intros Hu Hn Hh Hp Hx.
    assert (includes q (js "username") = false) as ->
      by within (@nil ascii) (js "user") (js "name").
    assert (includes q (js "db_user") = false) as ->
      by within (js "db_") (js "user") (@nil ascii).
    assert (includes q (js "db_host") = false) as ->
      by within (js "db_") (js "host") (@nil ascii).
    assert (includes q (js "db_password") = false) as ->
      by within (js "db_") (js "password") (@nil ascii).
    now rewrite Hu, Hn, Hh, Hp, Hx.
  - intros pw.
    rewrite (@answerConfigQuestion_configured _ (with_password cfg pw) question)
      by reflexivity.
    reflexivity.
Qed.

Lemma answerConfigQuestion_decision_witness :
  fst (answerConfigQuestion (js "What is the DB Password?") offline_manager) =
    js "The database password is defined in your wp-config.php at: " ++
    path_text (configPath sample_config).
Proof.
  apply (proj1 (proj2 (proj2 (proj2 (proj2
           (@answerConfigQuestion_decision offline_manager sample_config
              (js "What is the DB Password?") eq_refl))))));
    reflexivity.
Defined.

(** X13. Without a configuration, and when discovery fails, the legacy
    command answers that no configuration file was found and changes
    nothing. *)
Theorem answerConfigQuestion_unconfigured (st : state) (question : str) :
  config (fst st) = None ->
  fst (manager_findWordPressConfig st) = None ->
  answerConfigQuestion question st =
    (js "Sorry, I couldn't find a WordPress configuration file. Make sure you have a wp-config.php file in your project or its parent directories.",
     st).
Proof.
  intros Hc Hf. unfold answerConfigQuestion, bind, get_config. rewrite Hc.
  pose proof (@find_none_state st Hf) as Hs.
  destruct (manager_findWordPressConfig st) as [r st']. cbn in Hs. subst st'.
  now rewrite Hc.
Qed.

Lemma answerConfigQuestion_unconfigured_witness :
  answerConfigQuestion (js "what is the db name") lost_manager =
    (js "Sorry, I couldn't find a WordPress configuration file. Make sure you have a wp-config.php file in your project or its parent directories.",
     lost_manager).
Proof.
  apply (@answerConfigQuestion_unconfigured lost_manager (js "what is the db name"));
    reflexivity.
Defined.

Lemma parsed_fields_quote_free_witness :
  dbPassword (parseConfigContent (js "define('DB_PASSWORD', 'se\'cret');") [])
    <> js "se'cret".
Proof.
  apply (proj2 (proj2 (proj2 (proj2 (proj2 (proj2 (proj2
           (parsed_fields_quote_free (js "define('DB_PASSWORD', 'se\'cret');") [])))))))).
  left. simpl. tauto.
Defined.

(** ** wordpress-manager: template files *)

Lemma ends_with_spec s suffix :
  ends_with s suffix = true <-> exists pre, s = pre ++ suffix.
Proof.
  unfold ends_with. rewrite starts_with_spec. split.
  - intros (t & H). exists (rev t).
    rewrite <- (rev_involutive s), H, rev_app_distr, rev_involutive. reflexivity.
  - intros (pre & ->). exists (rev pre). apply rev_app_distr.
Qed.

(** X14. The template files reported for a theme are entries of the
    directory listing, in its order, that end in .php and can be read. Each
    of the twelve standard template names ends in .php, so a standard
    template that is listed and readable is reported whatever it contains,
    as is every readable .php file with a Template Name: header; a file that
    cannot be read is never reported, nor is any file when the directory
    cannot be listed. *)
Theorem theme_template_files (f : filesystem) (files : list str) (themePath : path) :
  (forall file, isWpStandardTemplate file = true -> ends_with file (js ".php") = true) /\
  (forall file,
     In file (findThemeTemplateFiles f (Some files) themePath) ->
     In file files /\ ends_with file (js ".php") = true /\
     exists content, readFileAsync f (path_join themePath file) = Some content) /\
  (forall file content,
     In file files -> isWpStandardTemplate file = true ->
     readFileAsync f (path_join themePath file) = Some content ->
     In file (findThemeTemplateFiles f (Some files) themePath)) /\
  (forall file content,
     In file files -> ends_with file (js ".php") = true ->
     readFileAsync f (path_join themePath file) = Some content ->
     includes content (js "Template Name:") = true ->
     In file (findThemeTemplateFiles f (Some files) themePath)) /\
  (forall file,
     readFileAsync f (path_join themePath file) = None ->
     ~ In file (findThemeTemplateFiles f (Some files) themePath)) /\
  (exists keep, findThemeTemplateFiles f (Some files) themePath = filter keep files) /\
  findThemeTemplateFiles f None themePath = [].
Proof.
  assert (forall file, isWpStandardTemplate file = true ->
                       ends_with file (js ".php") = true) as Hstd.
  { intros file H. unfold isWpStandardTemplate in H. apply mem_str_In in H.
    repeat (destruct H as [<-|H]; [reflexivity|]). contradiction. }
  split; [exact Hstd|]. unfold findThemeTemplateFiles, is_template_file.
  split; [|split; [|split; [|split; [|split]]]].
  - intros file H. apply filter_In in H. destruct H as [Hin H]. split; [assumption|].
    destruct (ends_with file (js ".php")); [|discriminate]. split; [reflexivity|].
    destruct (readFileAsync f (path_join themePath file)) as [c|]; [|discriminate].
    now exists c.
  - intros file content Hin Hs Hr. apply filter_In. split; [assumption|].
    now rewrite (Hstd _ Hs), Hr, Hs, orb_true_r.
  - intros file content Hin He Hr Hi. apply filter_In. split; [assumption|].
    now rewrite He, Hr, Hi.
  - intros file Hr H. apply filter_In in H. destruct H as [_ H]. rewrite Hr in H.
    destruct (ends_with file (js ".php")); discriminate.
  - eexists. reflexivity.
  - reflexivity.
Qed.

Lemma theme_template_files_witness :
  findThemeTemplateFiles fs_theme (Some theme_listing) theme_path = [js "page.php"] /\
  ~ In (js "index.php") (findThemeTemplateFiles fs_theme (Some theme_listing) theme_path).
Proof.
  destruct (theme_template_files fs_theme theme_listing theme_path)
    as (_ & _ & Hstd & _ & Hskip & _).
  split.
  - pose proof (Hstd (js "page.php") (js "<?php")) as H.
    assert (In (js "page.php")
              (findThemeTemplateFiles fs_theme (Some theme_listing) theme_path)) as _
      by (apply H; [simpl; tauto|reflexivity|reflexivity]).
    reflexivity.
  - apply Hskip. reflexivity.
Defined.

(** ** wordpress-manager: the active theme *)

Lemma split_plain sep v : ~ In sep v -> split sep v = [v].
Proof.
  induction v as [|a v IH]; intros H; [reflexivity|].
  simpl in *. destruct (ascii_eqb a sep) eqn:E.
  - apply ascii_eqb_eq in E. subst. tauto.
  - rewrite IH by tauto. reflexivity.
Qed.

Lemma theme_directory_plain wp v :
  plain_name v ->
  theme_directory wp v = wp ++ [js "wp-content"; js "themes"; v] /\
  theme_path_text wp v = path_text (wp ++ [js "wp-content"; js "themes"; v]).
Proof.
  intros (Hne & Hsep & Hdot & Hdots).
  assert (theme_directory wp v = wp ++ [js "wp-content"; js "themes"; v]) as Hd.
  { unfold theme_directory. rewrite (@split_plain "/"%char v Hsep). cbn [fold_left]. unfold enter.
    rewrite (@str_eqb_neq v [] Hne), (@str_eqb_neq v (js ".") Hdot), (@str_eqb_neq v (js "..") Hdots). cbn [orb].
    rewrite <- app_assoc. reflexivity. }
  split; [assumption|]. unfold theme_path_text. rewrite Hd.
  destruct (wp ++ _) eqn:E; [reflexivity|].
  destruct (rev v) as [|a r] eqn:R; [reflexivity|].
  destruct (ascii_dec a "/"%char) as [->|Hn].
  - exfalso. apply Hsep. apply in_rev. rewrite R. now left.
  - destruct a as [[] [] [] [] [] [] [] []]; try reflexivity. congruence.
Qed.

Lemma ensure_config_fs st : fs (snd (snd (ensure_config st))) = fs (snd st).
Proof.
  unfold ensure_config, bind, get_config. cbn [fst snd].
  destruct (config (fst st)); [reflexivity|].
  pose proof (find_world st) as H.
  destruct (manager_findWordPressConfig st) as [r st1]. cbn [fst snd] in *. now rewrite H.
Qed.

Lemma query_fs q st : fs (snd (snd (query q st))) = fs (snd st).
Proof.
  unfold query, bind, get_connection. cbn [fst snd].
  destruct (connection (fst st)) as [h|] eqn:Hc; cbn [ret negb fst snd].
  - rewrite Hc. now destruct (run_sql (conn_db h) q).
  - unfold connectToDatabase, bind.
    pose proof (ensure_config_fs st) as He.
    destruct (ensure_config st) as [[cfg|] st1]; cbn [ret negb fst snd] in *; [|assumption].
    unfold get_world. cbn [fst snd].
    destruct (server (snd st1) _) as [db|]; simpl; [|assumption].
    now destruct (run_sql db q).
Qed.

(** X20. For a manager that has (or finds) its configuration and reaches
    its database: [getActiveTheme] answers with a theme exactly when the
    options table has a [stylesheet] row and the path joined from the
    WordPress directory, wp-content, themes and the value of the first such
    row is a directory; the theme then carries that value as its name, the
    text of the path, and the template files of the directory. For a plain
    directory name the path is the directory of that name under
    wp-content/themes; a value with dot dot steps leads out of it. *)
Theorem active_theme (readdir : path -> option (list str)) (st : state)
    (cfg : WordPressConfig) (db : database) :
  serves cfg db st ->
  (forall v rest,
     option_values db (js "stylesheet") = v :: rest ->
     fst (getActiveTheme readdir st) =
       match fs (snd st) (theme_directory (wpPath cfg) v) with
       | Some Directory =>
           Some {| t_name := v;
                   t_path := theme_path_text (wpPath cfg) v;
                   t_templateFiles :=
                     findThemeTemplateFiles (fs (snd st))
                       (readdir (theme_directory (wpPath cfg) v))
                       (theme_directory (wpPath cfg) v) |}
       | _ => None
       end) /\
  (option_values db (js "stylesheet") = [] -> fst (getActiveTheme readdir st) = None) /\
  (forall v, plain_name v ->
     theme_directory (wpPath cfg) v = wpPath cfg ++ [js "wp-content"; js "themes"; v] /\
     theme_path_text (wpPath cfg) v =
       path_text (wpPath cfg ++ [js "wp-content"; js "themes"; v])) /\
  theme_directory (wpPath cfg) (js "../../uploads/") = wpPath cfg ++ [js "uploads"].
Proof.
  intros (Hc & Hr & Hp).
  assert (config (fst (snd (ensure_config st))) = Some cfg) as Hc1
    by now rewrite <- ensure_config_result.
  assert (forall rows, option_values db (js "stylesheet") = rows ->
            fst (getActiveTheme readdir st) =
              match rows with
              | [] => None
              | v :: _ =>
                  match fs (snd st) (theme_directory (wpPath cfg) v) with
                  | Some Directory =>
                      Some {| t_name := v;
                              t_path := theme_path_text (wpPath cfg) v;
                              t_templateFiles :=
                                findThemeTemplateFiles (fs (snd st))
                                  (readdir (theme_directory (wpPath cfg) v))
                                  (theme_directory (wpPath cfg) v) |}
                  | _ => None
                  end
              end) as Hget.
  { intros rows Hrows. unfold getActiveTheme. rewrite bind_fst, Hc.
    pose proof (@read_option _ cfg db (js "stylesheet") Hc1 Hr Hp) as Hq.
    pose proof (query_fs (SelectOptionValue (tablePrefix cfg ++ js "options")
                            (js "stylesheet")) (snd (ensure_config st))) as Hfs.
    rewrite ensure_config_fs in Hfs.
    unfold bind at 1.
    destruct (query _ (snd (ensure_config st))) as [r st2]. cbn [fst snd] in *.
    subst r. rewrite Hrows. destruct rows as [|v rest]; [reflexivity|]. cbn [map].
    change (field (js "option_value") [(js "option_value", v)]) with v.
    unfold bind, get_world. cbn [fst snd]. rewrite Hfs.
    destruct (fs (snd st) _) as [[content|]|]; reflexivity. }
  split; [|split; [|split]].
  - intros v rest Hrows. now rewrite (Hget _ Hrows).
  - intros Hrows. now rewrite (Hget _ Hrows).
  - intros v. apply theme_directory_plain.
  - unfold theme_directory. cbn [split]. 
    change (split "/"%char (js "../../uploads/")) with [js ".."; js ".."; js "uploads"; []].
    cbn [fold_left]. unfold enter at 1 2 3 4.
    change (str_eqb [] []) with true. cbn [orb].
    change (str_eqb (js "uploads") []) with false.
    change (str_eqb (js "uploads") (js ".")) with false.
    change (str_eqb (js "uploads") (js "..")) with false.
    change (str_eqb (js "..") []) with false.
    change (str_eqb (js "..") (js ".")) with false.
    change (str_eqb (js "..") (js "..")) with true. cbn [orb].
    replace (wpPath cfg ++ [js "wp-content"; js "themes"])
      with (path_join (path_join (wpPath cfg) (js "wp-content")) (js "themes"))
      by (unfold path_join; now rewrite <- app_assoc).
    now rewrite !dirname_join.
Qed.

Lemma active_theme_witness :
  fst (getActiveTheme theme_readdir theme_manager) =
    Some {| t_name := js "t";
            t_path := js "/site/wp-content/themes/t";
            t_templateFiles := [js "page.php"] |} /\
  fst (getActiveTheme theme_readdir (new_manager db_with_cptui)) = None.
Proof.
  destruct (@active_theme theme_readdir theme_manager sample_config db_with_stylesheet
              (conj eq_refl (conj eq_refl eq_refl))) as (H1 & _).
  destruct (@active_theme theme_readdir (new_manager db_with_cptui) sample_config
              db_with_cptui (conj eq_refl (conj eq_refl eq_refl))) as (_ & H2 & _).
  split.
  - rewrite (H1 (js "t") [] eq_refl). reflexivity.
  - apply H2. reflexivity.
Defined.

(** The chat handler on a theme prompt, in the sample site. *)
Lemma theme_answer_example :
  fst (wordpressRequestHandler theme_readdir (js "Which theme is active?") theme_manager) =
    js "Active WordPress theme: t" ++ [nl] ++
    js "Theme path: /site/wp-content/themes/t" ++ [nl] ++
    js "Number of template files: 1".
Proof. reflexivity. Qed.

(** ** mcp-provider: completion items *)

Lemma trigger_exclusive lp t1 t2 :
  In t1 triggers -> In t2 triggers ->
  ends_with lp t1 = true -> ends_with lp t2 = true -> t1 = t2.
Proof.
  unfold ends_with. intros H1 H2 E1 E2.
  apply starts_with_spec in E1, E2. destruct E1 as (x & E1), E2 as (y & E2).
  rewrite E1 in E2. clear E1.
  simpl in H1, H2.
  destruct H1 as [<-|[<-|[<-|[]]]]; destruct H2 as [<-|[<-|[<-|[]]]];
    try reflexivity; simpl in E2; discriminate.
Qed.

Lemma get_label_ok cpt :
  starts_with (js "get_") (label (post_type_item cpt)) = true /\
  isWordPressFunction (label (post_type_item cpt)) = true.
Proof. split; reflexivity. Qed.

Lemma provide_none linePrefix st :
  fst (provideCompletionItems linePrefix st) = None <->
  (negb (ends_with linePrefix (js "add_")) && negb (ends_with linePrefix (js "wp_")) &&
   negb (ends_with linePrefix (js "get_")))%bool = true.
Proof.
  unfold provideCompletionItems.
  destruct (negb (ends_with linePrefix (js "add_")) &&
            negb (ends_with linePrefix (js "wp_")) &&
            negb (ends_with linePrefix (js "get_")))%bool.
  - split; reflexivity.
  - unfold bind. destruct (manager_findWordPressConfig st) as [r0 st0].
    destruct (ends_with linePrefix (js "get_")).
    + destruct (getCustomPostTypes st0) as [cpts st1]. cbn [ret fst].
      split; discriminate.
    + cbn [ret fst]. split; discriminate.
Qed.

(** X15. The completion provider answers undefined, and touches nothing,
    exactly when the line before the cursor ends with none of add_, wp_ and
    get_; no line ends with two of them. Otherwise every item it offers
    has a label that starts with the very prefix the line ends with, and
    that [isWordPressFunction] accepts. *)
Theorem completion_labels (linePrefix : str) (st : state) :
  (fst (provideCompletionItems linePrefix st) = None <->
   forall t, In t triggers -> ends_with linePrefix t = false) /\
  (fst (provideCompletionItems linePrefix st) = None ->
   snd (provideCompletionItems linePrefix st) = st) /\
  (forall t1 t2, In t1 triggers -> In t2 triggers ->
     ends_with linePrefix t1 = true -> ends_with linePrefix t2 = true -> t1 = t2) /\
  (forall items,
     fst (provideCompletionItems linePrefix st) = Some items ->
     exists t, In t triggers /\ ends_with linePrefix t = true /\
       forall it, In it items ->
         starts_with t (label it) = true /\ isWordPressFunction (label it) = true).
Proof.
  split; [|split; [|split; [apply trigger_exclusive|]]].
  - rewrite provide_none. unfold triggers.
    rewrite !andb_true_iff, !negb_true_iff. split.
    + intros [[Ha Hw] Hg] t [<-|[<-|[<-|[]]]]; assumption.
    + intros H. repeat split; apply H; simpl; tauto.
  - intros H. apply provide_none in H. unfold provideCompletionItems. now rewrite H.
  - intros items. unfold provideCompletionItems.
    destruct (ends_with linePrefix (js "add_")) eqn:Ea.
    + assert (ends_with linePrefix (js "wp_") = false) as Ew.
      { destruct (ends_with linePrefix (js "wp_")) eqn:E; [|reflexivity].
        discriminate (@trigger_exclusive linePrefix (js "add_") (js "wp_")
                        ltac:(simpl; tauto) ltac:(simpl; tauto) Ea E). }
      assert (ends_with linePrefix (js "get_") = false) as Eg.
      { destruct (ends_with linePrefix (js "get_")) eqn:E; [|reflexivity].
        discriminate (@trigger_exclusive linePrefix (js "add_") (js "get_")
                        ltac:(simpl; tauto) ltac:(simpl; tauto) Ea E). }
      rewrite Ew, Eg. cbn [negb andb]. unfold bind.
      destruct (manager_findWordPressConfig st) as [r0 st0]. cbn [ret fst].
      intros H. inversion H; subst; clear H.
      exists (js "add_"). split; [simpl; tauto|]. split; [assumption|].
      intros it Hin. simpl in Hin.
      repeat (destruct Hin as [<-|Hin]; [split; reflexivity|]). contradiction.
    + destruct (ends_with linePrefix (js "wp_")) eqn:Ew.
      * assert (ends_with linePrefix (js "get_") = false) as Eg.
        { destruct (ends_with linePrefix (js "get_")) eqn:E; [|reflexivity].
          discriminate (@trigger_exclusive linePrefix (js "wp_") (js "get_")
                          ltac:(simpl; tauto) ltac:(simpl; tauto) Ew E). }
        rewrite Eg. cbn [negb andb]. unfold bind.
        destruct (manager_findWordPressConfig st) as [r0 st0]. cbn [ret fst].
        intros H. inversion H; subst; clear H.
        exists (js "wp_"). split; [simpl; tauto|]. split; [assumption|].
        intros it Hin. simpl in Hin.
        repeat (destruct Hin as [<-|Hin]; [split; reflexivity|]). contradiction.
      * destruct (ends_with linePrefix (js "get_")) eqn:Eg; cbn [negb andb];
          [|discriminate].
        unfold bind. destruct (manager_findWordPressConfig st) as [r0 st0].
        destruct (getCustomPostTypes st0) as [cpts st1]. cbn [ret fst].
        intros H. inversion H; subst; clear H.
        exists (js "get_"). split; [simpl; tauto|]. split; [assumption|].
        intros it Hin. cbn [app] in Hin. apply in_app_or in Hin.
        destruct Hin as [Hin|Hin].
        -- apply in_map_iff in Hin. destruct Hin as (cpt & <- & _).
           apply get_label_ok.
        -- simpl in Hin.
           repeat (destruct Hin as [<-|Hin]; [split; reflexivity|]). contradiction.
Qed.

Lemma completion_labels_witness :
  exists t, In t triggers /\ ends_with sample_line t = true /\
    forall it, In it sample_completion_items ->
      starts_with t (label it) = true /\ isWordPressFunction (label it) = true.
Proof.
  apply (proj2 (proj2 (proj2
           (completion_labels sample_line (configured_manager db_with_cptui))))).
  reflexivity.
Defined.

(** ** Calls run to their end, one after another *)

(** Resumed to its end with nothing in between, each method with its awaits
    does what the definition of the method without them says. *)

Lemma finish_continue {A B} (k : A -> async B) r : forall st,
  finish (fst (continue_with r k st)) (snd (continue_with r k st)) =
    complete (k (fst (finish r st))) (snd (finish r st)).
Proof.
  induction r as [a|resume IH] using suspended_induction; intros st; simpl.
  - unfold complete. now destruct (k a st).
  - specialize (IH st). destruct (resume st) as [r' st']. simpl in *.
    specialize (IH st'). destruct (continue_with r' k st'). exact IH.
Qed.

Lemma complete_abind {A B} (p : async A) (k : A -> async B) st :
  complete (abind p k) st = (a <- complete p ;; complete (k a)) st.
Proof.
  unfold complete at 1 2, abind, bind.
  destruct (p st) as [r st1].
  pose proof (finish_continue k r st1) as H.
  destruct (continue_with r k st1); simpl in H. rewrite H.
  now destruct (finish r st1).
Qed.

Lemma complete_finished {A} (a : A) st : complete (finished a) st = (a, st).
Proof. reflexivity. Qed.

Lemma complete_sync {A} (c : M A) st : complete (sync c) st = c st.
Proof. unfold complete, sync. now destruct (c st). Qed.

Lemma complete_await_io {A} (io : M A) st : complete (await_io io) st = io st.
Proof. unfold complete, await_io. simpl. now destruct (io st). Qed.

Lemma complete_await {A} (p : async A) st : complete (await p) st = complete p st.
Proof.
  unfold await. rewrite complete_abind. unfold bind.
  now destruct (complete p st).
Qed.

(** A method that starts by reading the state. *)
Lemma complete_same {A} (p q : async A) st : p st = q st -> complete p st = complete q st.
Proof. unfold complete. now intros ->. Qed.

Lemma complete_locate n : forall p st,
  length p <= n ->
  complete (findWordPressConfig_from n p) st = (findWordPressConfig (fs (snd st)) p, st).
Proof.
  unfold findWordPressConfig.
  induction n as [|n IH]; intros p st Hn.
  - destruct p; [|simpl in Hn; lia]. simpl. now rewrite loop_root.
  - destruct p as [|d ds]; [simpl; now rewrite loop_root|].
    cbn [findWordPressConfig_from]. rewrite complete_abind. unfold bind.
    rewrite complete_await_io. rewrite loop_step by discriminate.
    unfold marker_at. cbn [fst snd].
    destruct (existsAsync _ _); [reflexivity|].
    rewrite path_eqb_dirname. rewrite IH; [reflexivity|].
    rewrite dirname_length. simpl in *. lia.
Qed.

Lemma complete_find st :
  complete manager_findWordPressConfig_async st = manager_findWordPressConfig st.
Proof.
  unfold manager_findWordPressConfig, bind, get_world. cbn [fst snd].
  destruct (workspaceFolders (snd st)) as [|ws wss] eqn:W.
  { unfold complete, manager_findWordPressConfig_async. now rewrite W. }
  erewrite complete_same by (unfold manager_findWordPressConfig_async; rewrite W; reflexivity).
  rewrite complete_abind. unfold bind. rewrite complete_await.
  unfold findWordPressConfig_async. rewrite complete_locate by lia.
  destruct (findWordPressConfig (fs (snd st)) ws) as [p|]; [|reflexivity].
  rewrite complete_abind. unfold bind. rewrite complete_await.
  unfold parseWordPressConfig_async. rewrite complete_abind. unfold bind.
  rewrite complete_await_io. unfold parseWordPressConfig.
  destruct (readFileAsync (fs (snd st)) p); reflexivity.
Qed.

Lemma complete_ensure_config st :
  complete ensure_config_async st = ensure_config st.
Proof.
  unfold ensure_config, bind, get_config. cbn [fst snd].
  destruct (config (fst st)) as [c|] eqn:Hc.
  { unfold complete, ensure_config_async. now rewrite Hc. }
  erewrite complete_same by (unfold ensure_config_async; rewrite Hc; reflexivity).
  rewrite complete_abind. unfold bind. rewrite complete_await, complete_find.
  destruct (manager_findWordPressConfig st). now rewrite complete_sync.
Qed.

Lemma complete_connect_with_config st cfg :
  config (fst st) = Some cfg ->
  complete connect_with_config st = connectToDatabase st.
Proof.
  intros Hc. unfold connectToDatabase, bind.
  rewrite (ensure_config_some _ Hc).
  erewrite complete_same by (unfold connect_with_config; rewrite Hc; reflexivity).
  rewrite complete_abind. unfold bind. rewrite complete_await_io.
  unfold createConnection, get_world, credentials_of. cbn [fst snd].
  destruct (server (snd st) _); reflexivity.
Qed.

Lemma complete_connect st :
  complete connectToDatabase_async st = connectToDatabase st.
Proof.
  destruct (config (fst st)) as [cfg|] eqn:Hc.
  { erewrite complete_same by (unfold connectToDatabase_async; rewrite Hc; reflexivity).
    now apply complete_connect_with_config with cfg. }
  erewrite complete_same by (unfold connectToDatabase_async; rewrite Hc; reflexivity).
  rewrite complete_abind. unfold bind. rewrite complete_await, complete_find.
  unfold connectToDatabase, ensure_config, get_config, bind. cbn [fst snd]. rewrite Hc.
  pose proof (@find_some_config st) as Hs. pose proof (@find_none_state st) as Hn.
  destruct (manager_findWordPressConfig st) as [[c|] st1]; cbn [fst snd] in *.
  - rewrite (complete_connect_with_config _ (Hs c eq_refl)).
    unfold connectToDatabase, bind. rewrite (ensure_config_some _ (Hs c eq_refl)).
    now rewrite (Hs c eq_refl).
  - rewrite (Hn eq_refl), Hc. reflexivity.
Qed.

Lemma tracked_live st : tracked st -> live st.
Proof.
  unfold tracked, held, live, handle_open. intros Ht h Hc. rewrite Ht, Hc. simpl.
  now rewrite Nat.eqb_refl.
Qed.

Lemma complete_send q st h :
  connection (fst st) = Some h -> handle_open h (snd st) = true ->
  complete (send q) st =
    (match run_sql (conn_db h) q with Some rows => inr rows | None => inl QueryFailed end, st).
Proof.
  intros Hc Ho.
  erewrite complete_same by (unfold send; rewrite Hc; reflexivity).
  rewrite complete_await_io. unfold driver_query. now rewrite Ho.
Qed.

Lemma connect_true_live st :
  fst (connectToDatabase st) = true ->
  exists h, connection (fst (snd (connectToDatabase st))) = Some h /\
            handle_open h (snd (snd (connectToDatabase st))) = true.
Proof.
  unfold connectToDatabase, bind.
  destruct (ensure_config st) as [[cfg|] st1]; cbn [ret fst snd]; [|discriminate].
  unfold get_world. cbn [fst snd].
  destruct (server (snd st1) _) as [db|]; cbn [ret fst snd]; [|discriminate].
  intros _. eexists. split; [reflexivity|].
  unfold handle_open. simpl. now rewrite Nat.eqb_refl.
Qed.

Lemma complete_query q st :
  live st -> complete (query_async q) st = query q st.
Proof.
  intros Hl. unfold query, bind, get_connection. cbn [fst snd].
  destruct (connection (fst st)) as [h|] eqn:Hc.
  - cbn [ret negb]. rewrite Hc.
    erewrite complete_same by (unfold query_async; rewrite Hc; reflexivity).
    rewrite (complete_send q _ Hc (Hl h Hc)).
    now destruct (run_sql _ _).
  - erewrite complete_same by (unfold query_async; rewrite Hc; reflexivity).
    rewrite complete_abind. unfold bind. rewrite complete_await, complete_connect.
    pose proof (@connect_true_live st) as Ht.
    destruct (connectToDatabase st) as [[|] st1]; cbn [fst snd negb] in *; [|reflexivity].
    destruct (Ht eq_refl) as (h & Hc1 & Ho1). rewrite Hc1.
    rewrite (complete_send q _ Hc1 Ho1). now destruct (run_sql _ _).
Qed.

Lemma complete_nl input st :
  live st ->
  complete (executeNaturalLanguageQuery_async input) st = executeNaturalLanguageQuery input st.
Proof.
  intros Hl. unfold executeNaturalLanguageQuery.
  destruct (translate (getTablePrefix (fst st)) input) as [e|q] eqn:T.
  - unfold complete, executeNaturalLanguageQuery_async. now rewrite T.
  - erewrite complete_same
      by (unfold executeNaturalLanguageQuery_async; rewrite T; reflexivity).
    rewrite complete_await. now apply complete_query.
Qed.

Lemma complete_disconnect st : complete disconnect_async st = disconnect st.
Proof.
  unfold disconnect, bind, get_connection. cbn [fst snd].
  destruct (connection (fst st)) as [h|] eqn:Hc.
  2: { unfold complete, disconnect_async. now rewrite Hc. }
  erewrite complete_same by (unfold disconnect_async; rewrite Hc; reflexivity).
  rewrite complete_abind. unfold bind. rewrite complete_await_io.
  destruct (close_handle _ st). now rewrite complete_sync.
Qed.

Lemma ensure_config_live st : live st -> live (snd (ensure_config st)).
Proof.
  intros Hl. destruct (quiet_ensure_config st) as [Hc Ho].
  unfold live, handle_open in *. rewrite Hc, Ho. exact Hl.
Qed.

Lemma connect_live st : live st -> live (snd (connectToDatabase st)).
Proof.
  intros Hl. unfold connectToDatabase, bind.
  pose proof (ensure_config_live Hl) as Hl'.
  destruct (ensure_config st) as [[cfg|] st1]; cbn [ret fst snd] in *; [|assumption].
  unfold get_world. cbn [fst snd].
  destruct (server (snd st1) _) as [db|]; cbn [ret fst snd]; [|assumption].
  intros h Hh. simpl in Hh. inversion Hh; subst. unfold handle_open. simpl.
  now rewrite Nat.eqb_refl.
Qed.

Lemma query_live q st : live st -> live (snd (query q st)).
Proof.
  intros Hl. unfold query, bind, get_connection. cbn [fst snd].
  destruct (connection (fst st)) as [h|] eqn:Hc; cbn [ret negb fst snd].
  - rewrite Hc. now destruct (run_sql _ _).
  - pose proof (connect_live Hl) as Hl'.
    destruct (connectToDatabase st) as [[|] st1]; cbn [negb ret fst snd] in *; [|assumption].
    destruct (connection (fst st1)); [|assumption]. now destruct (run_sql _ _).
Qed.

Lemma query_config q st cfg :
  config (fst st) = Some cfg -> config (fst (snd (query q st))) = Some cfg.
Proof.
  intros Hc. unfold query, bind, get_connection. cbn [fst snd].
  destruct (connection (fst st)) as [h|] eqn:Hn; cbn [ret negb fst snd].
  - rewrite Hn. now destruct (run_sql _ _).
  - unfold connectToDatabase, bind. rewrite (ensure_config_some _ Hc).
    unfold get_world. cbn [fst snd].
    destruct (server (snd st) _) as [db|]; simpl; [|assumption].
    now destruct (run_sql db q).
Qed.

Lemma complete_reader {A} (k : WordPressConfig -> async A) (k' : WordPressConfig -> M A)
    (dflt : A) st :
  (forall cfg st', live st' -> config (fst st') = Some cfg ->
                   complete (k cfg) st' = k' cfg st') ->
  live st ->
  complete (c <~ ensure_config_async ;;
            match c with None => finished dflt | Some cfg => k cfg end) st =
    (c <- ensure_config ;; match c with None => ret dflt | Some cfg => k' cfg end) st.
Proof.
  intros Hk Hl. rewrite complete_abind. unfold bind. rewrite complete_ensure_config.
  pose proof (ensure_config_live Hl) as Hl'.
  pose proof (ensure_config_result st) as Hr.
  destruct (ensure_config st) as [[cfg|] st1]; cbn [fst snd] in *; [|reflexivity].
  now apply Hk.
Qed.

Lemma complete_awaited_query {A} q (k : error + list row -> async A) st :
  live st ->
  complete (r <~ await (query_async q) ;; k r) st =
    complete (k (fst (query q st))) (snd (query q st)).
Proof.
  intros Hl. rewrite complete_abind. unfold bind.
  rewrite complete_await, (complete_query q Hl). now destruct (query q st).
Qed.

Lemma complete_version st :
  live st -> complete getWordPressVersion_async st = getWordPressVersion st.
Proof.
  intros Hl. unfold getWordPressVersion_async, getWordPressVersion.
  apply complete_reader; [|assumption]. intros cfg st' Hl' _.
  rewrite (complete_awaited_query _ _ Hl'). unfold bind.
  destruct (query _ st') as [[e|[|r0 rows]] st'']; reflexivity.
Qed.

Lemma complete_plugins st :
  live st -> complete getActivePlugins_async st = getActivePlugins st.
Proof.
  intros Hl. unfold getActivePlugins_async, getActivePlugins.
  apply complete_reader; [|assumption]. intros cfg st' Hl' _.
  rewrite (complete_awaited_query _ _ Hl'). unfold bind.
  destruct (query _ st') as [[e|[|r0 rows]] st'']; reflexivity.
Qed.

Lemma complete_posts_fallback st cfg :
  live st -> config (fst st) = Some cfg ->
  complete posts_fallback_async st = posts_fallback cfg st.
Proof.
  intros Hl Hc.
  erewrite complete_same by (unfold posts_fallback_async; rewrite Hc; reflexivity).
  rewrite (complete_awaited_query _ _ Hl). unfold posts_fallback, bind.
  destruct (query _ st) as [[e|rows] st']; reflexivity.
Qed.

Lemma complete_post_types st :
  live st -> complete getCustomPostTypes_async st = getCustomPostTypes st.
Proof.
  intros Hl. unfold getCustomPostTypes_async, getCustomPostTypes.
  apply complete_reader; [|assumption]. intros cfg st' Hl' Hc'.
  rewrite (complete_awaited_query _ _ Hl'). unfold bind.
  pose proof (@query_live (SelectOptionValue (tablePrefix cfg ++ js "options")
                             (js "cptui_post_types")) st' Hl') as Hl''.
  pose proof (@query_config (SelectOptionValue (tablePrefix cfg ++ js "options")
                               (js "cptui_post_types")) st' cfg Hc') as Hc''.
  destruct (query _ st') as [[e|[|r0 rows]] st'']; cbn [fst snd] in *.
  - reflexivity.
  - now apply complete_posts_fallback.
  - match goal with
    | |- context [match_all ?r ?v] => destruct (match_all r v)
    end; [reflexivity|now apply complete_posts_fallback].
Qed.

Lemma complete_forget {A} (p : async A) st :
  snd (complete (forget p) st) = snd (complete p st).
Proof.
  unfold forget. rewrite complete_abind. unfold bind. now destruct (complete p st).
Qed.

(** [run_ops] is the execution in which every call has finished before the
    next one starts. *)
Lemma step_complete o st :
  live st -> snd (complete (op_async o) st) = step o st.
Proof.
  intros Hl. destruct o; cbn [op_async step]; unfold discard;
    rewrite ?complete_forget.
  - now rewrite complete_find.
  - now rewrite complete_connect.
  - now rewrite complete_query.
  - now rewrite complete_version.
  - now rewrite complete_plugins.
  - now rewrite complete_post_types.
  - now rewrite complete_nl.
  - now rewrite complete_disconnect.
  - reflexivity.
Qed.

Lemma nth_error_middle (pre post : list (suspended unit)) x :
  nth_error (pre ++ x :: post) (length pre) = Some x.
Proof. induction pre; simpl; auto. Qed.

Lemma resume_to_end pre (r : suspended unit) : forall st evs,
  forallb is_done pre = true ->
  run_events (repeat (Resume (length pre)) (turns r st) ++ evs)
             {| now := st; calls := pre ++ [r] |} =
  run_events evs {| now := snd (finish r st); calls := pre ++ [Done tt] |} /\
  one_at_a_time (repeat (Resume (length pre)) (turns r st)) {| now := st; calls := pre ++ [r] |}.
Proof.
  induction r as [a|resume IH] using suspended_induction; intros st evs Hpre.
  - destruct a. simpl. auto.
  - cbn [turns repeat app run_events one_at_a_time fire calls now].
    rewrite nth_error_middle. specialize (IH st).
    destruct (resume st) as [r' st'] eqn:E. cbn [fst snd finish] in *.
    rewrite E. rewrite replace_call_middle.
    destruct (IH st' evs Hpre) as [H1 H2]. split; [exact H1|]. split; [exact I|exact H2].
Qed.

Lemma one_at_a_time_app a : forall b s,
  one_at_a_time a s -> one_at_a_time b (run_events a s) -> one_at_a_time (a ++ b) s.
Proof.
  induction a as [|e a IH]; intros b s Ha Hb; simpl in *; [assumption|].
  destruct Ha as [He Ha]. split; [assumption|]. now apply IH.
Qed.

Lemma step_live o st : live st -> live (step o st).
Proof.
  intros Hl. destruct o; unfold step, discard.
  - destruct (quiet_find st) as [Hc Ho]. unfold live, handle_open in *.
    rewrite Hc, Ho. exact Hl.
  - now apply connect_live.
  - now apply query_live.
  - unfold getWordPressVersion, bind.
    pose proof (ensure_config_live Hl) as Hl'.
    destruct (ensure_config st) as [[cfg|] st1]; cbn [ret fst snd] in *; [|assumption].
    pose proof (@query_live (SelectOptionValue (tablePrefix cfg ++ js "options")
                               (js "version")) st1 Hl') as Hq.
    destruct (query _ st1) as [[e|[|r0 rows]] st2]; assumption.
  - unfold getActivePlugins, bind.
    pose proof (ensure_config_live Hl) as Hl'.
    destruct (ensure_config st) as [[cfg|] st1]; cbn [ret fst snd] in *; [|assumption].
    pose proof (@query_live (SelectOptionValue (tablePrefix cfg ++ js "options")
                               (js "active_plugins")) st1 Hl') as Hq.
    destruct (query _ st1) as [[e|[|r0 rows]] st2]; assumption.
  - unfold getCustomPostTypes, bind.
    pose proof (ensure_config_live Hl) as Hl'.
    destruct (ensure_config st) as [[cfg|] st1]; cbn [ret fst snd] in *; [|assumption].
    pose proof (@query_live (SelectOptionValue (tablePrefix cfg ++ js "options")
                               (js "cptui_post_types")) st1 Hl') as Hq.
    assert (forall s, live s -> live (snd (posts_fallback cfg s))) as Hf.
    { intros s Hs. unfold posts_fallback, bind.
      pose proof (@query_live (SelectDistinctPostTypes (tablePrefix cfg ++ js "posts")
                                 builtin_post_types 20) s Hs) as Hq'.
      destruct (query _ s) as [[e|rows] s']; assumption. }
    destruct (query _ st1) as [[e|[|r0 rows]] st2]; cbn [fst snd] in *; auto.
    match goal with
    | |- context [match_all ?r ?v] => destruct (match_all r v)
    end; cbn [ret fst snd]; auto.
  - unfold executeNaturalLanguageQuery.
    destruct (translate (getTablePrefix (fst st)) input); [assumption|].
    now apply query_live.
  - unfold disconnect, bind, get_connection. cbn [fst snd].
    destruct (connection (fst st)); [|assumption].
    intros h Hh. simpl in Hh. discriminate.
  - exact Hl.
Qed.

(** [run_ops] is what the event loop does when each call is resumed to its
    end before the next one is started. *)
Lemma run_ops_serially ops : forall st pre,
  live st -> forallb is_done pre = true ->
  now (run_events (serially (length pre) ops st) {| now := st; calls := pre |}) =
    run_ops ops st /\
  one_at_a_time (serially (length pre) ops st) {| now := st; calls := pre |}.
Proof.
  induction ops as [|o ops IH]; intros st pre Hl Hpre; [split; [reflexivity|exact I]|].
  cbn [serially run_events one_at_a_time run_ops fire now calls].
  pose proof (@step_complete o st Hl) as Hstep. unfold complete in Hstep.
  destruct (op_async o st) as [r st1] eqn:E. cbn [fst snd] in *.
  destruct (@resume_to_end pre r st1
              (serially (S (length pre)) ops (snd (complete (op_async o) st))) Hpre)
    as [Hrun Hone].
  assert (snd (complete (op_async o) st) = step o st) as Hc
    by (unfold complete; now rewrite E).
  rewrite Hc in *. rewrite Hrun, Hstep.
  assert (forallb is_done (pre ++ [Done tt]) = true) as Hpre'
    by (rewrite forallb_app, Hpre; reflexivity).
  destruct (IH (step o st) (pre ++ [Done tt]) (step_live o Hl) Hpre') as [H1 H2].
  rewrite length_app in H1, H2. cbn [length] in H1, H2.
  rewrite Nat.add_1_r in H1, H2.
  split; [exact H1|]. split; [exact Hpre|].
  apply one_at_a_time_app; [exact Hone|].
  pose proof (@resume_to_end pre r st1 [] Hpre) as [Hrun0 _].
  rewrite app_nil_r in Hrun0. cbn [run_events] in Hrun0.
  rewrite Hrun0, Hstep. exact H2.
Qed.

(** ** Calls in progress at the same time *)

(** X19. Two [query] calls started one right after the other on a manager
    that holds a configuration and no connection, in front of a server
    that accepts its credentials: both find [this.connection] empty, both
    connect, and once both connections are established two handles are open
    of which the manager remembers the second only. *)
Theorem overlapping_queries_leak (st : state) (cfg : WordPressConfig) (db : database)
    (q1 q2 : sql) :
  config (fst st) = Some cfg ->
  connection (fst st) = None ->
  server (snd st) (credentials_of cfg) = Some db ->
  let s := run_events [Start (OpQuery q1); Start (OpQuery q2); Resume 0; Resume 1]
             (at_rest st) in
  open_handles (snd (now s)) =
    S (next_handle (snd st)) :: next_handle (snd st) :: open_handles (snd st) /\
  held (fst (now s)) = [S (next_handle (snd st))].
Proof.
  destruct st as [[cf cn] w]. cbn [fst snd config connection].
  intros -> -> Hs. cbv zeta.
  unfold credentials_of in Hs.
  cbn. unfold createConnection, credentials_of. cbn. rewrite Hs. cbn.
  unfold createConnection, credentials_of. cbn. rewrite Hs. cbn. split; reflexivity.
Qed.

Lemma overlapping_queries_leak_witness :
  let s := run_events [Start (OpQuery version_statement); Start (OpQuery version_statement);
                       Resume 0; Resume 1]
             (at_rest (configured_manager db_with_cptui)) in
  open_handles (snd (now s)) = [1; 0] /\ held (fst (now s)) = [1].
Proof.
  apply (@overlapping_queries_leak (configured_manager db_with_cptui) sample_config
           db_with_cptui version_statement version_statement); reflexivity.
Defined.

(** ** extension.ts: the query command *)

Lemma translate_with_prefix m input :
  (exists pre, getTablePrefix m = Some pre /\ pre <> []) ->
  translate (getTablePrefix m) input <> inl TablePrefixUnknown.
Proof.
  intros (pre & -> & Hne). rewrite (translate_cases _ Hne).
  destruct (includes (toLowerCase input) (js "option") &&
            includes (toLowerCase input) (js "like"))%bool; [|discriminate].
  destruct (truthy (like_pattern input)); discriminate.
Qed.

Lemma coherent_prefix st :
  coherent st -> isConnected (fst st) = true ->
  exists pre, getTablePrefix (fst st) = Some pre /\ pre <> [].
Proof.
  intros [H1 H2] Hc. specialize (H1 Hc). unfold getTablePrefix.
  destruct (config (fst st)) as [c|]; [|congruence].
  exists (tablePrefix c). split; [reflexivity|]. now apply H2.
Qed.

(** The natural-language query of a connected manager in a coherent state. *)
Lemma nl_query_connected st input :
  coherent st -> isConnected (fst st) = true ->
  snd (executeNaturalLanguageQuery input st) = st /\
  fst (executeNaturalLanguageQuery input st) <> inl TablePrefixUnknown /\
  fst (executeNaturalLanguageQuery input st) <> inl ConnectionNotEstablished.
Proof.
  intros Hco Hc. pose proof (@translate_with_prefix (fst st) input
                               (coherent_prefix Hco Hc)) as Ht.
  unfold executeNaturalLanguageQuery. unfold isConnected in Hc.
  destruct (connection (fst st)) as [h|] eqn:Eh; [|discriminate].
  destruct (translate (getTablePrefix (fst st)) input) as [e|q] eqn:Et.
  - cbn [fst snd]. split; [reflexivity|].
    split; [intros E; apply Ht; inversion E; reflexivity|].
    unfold translate in Et.
    destruct (getTablePrefix (fst st)) as [pre|]; [|congruence].
    destruct (negb (truthy pre)); [congruence|].
    destruct (includes (toLowerCase input) (js "option") &&
              includes (toLowerCase input) (js "like"))%bool;
      [destruct (truthy (like_pattern input))|]; inversion Et; discriminate.
  - rewrite (query_connected _ q Eh). cbn [fst snd]. split; [reflexivity|].
    destruct (run_sql (conn_db h) q); split; discriminate.
Qed.

Lemma connect_true_connected st :
  fst (connectToDatabase st) = true ->
  isConnected (fst (snd (connectToDatabase st))) = true.
Proof.
  unfold connectToDatabase, bind.
  destruct (ensure_config st) as [[cfg|] st1]; cbn [ret fst snd]; [|discriminate].
  unfold get_world. cbn [fst snd].
  destruct (server (snd st1) _) as [db|]; cbn [ret fst snd]; [reflexivity|discriminate].
Qed.

(** The command run to its end with no other call in between. *)
Lemma queryCommand_uninterrupted (queryInput : option str) (st : state) :
  (tracked st -> tracked (snd (queryCommand queryInput st))) /\
  (fst (queryCommand queryInput st) <> ConfigNotFound ->
   fst (queryCommand queryInput st) <> ConnectFailed ->
   isConnected (fst (snd (queryCommand queryInput st))) = true) /\
  (coherent st ->
   fst (queryCommand queryInput st) <> QueryError TablePrefixUnknown /\
   fst (queryCommand queryInput st) <> QueryError ConnectionNotEstablished) /\
  (fst (queryCommand queryInput st) = ConfigNotFound ->
   snd (queryCommand queryInput st) = st).
Proof.
  assert (forall s,
            isConnected (fst s) = true ->
            match queryInput with
            | None => (Cancelled, s)
            | Some input =>
                if truthy input then
                  let (r, st2) := executeNaturalLanguageQuery input s in
                  match r with
                  | inr [] => (NoResults, st2)
                  | inr (r0 :: rows) => (Results (r0 :: rows), st2)
                  | inl e => (QueryError e, st2)
                  end
                else (Cancelled, s)
            end = queryCommand queryInput s) as Hready.
  { intros s Hs. unfold queryCommand. rewrite Hs. reflexivity. }
  assert (forall s,
            isConnected (fst s) = true ->
            (tracked s -> tracked (snd (queryCommand queryInput s))) /\
            isConnected (fst (snd (queryCommand queryInput s))) = true /\
            fst (queryCommand queryInput s) <> ConfigNotFound /\
            (coherent s ->
             fst (queryCommand queryInput s) <> QueryError TablePrefixUnknown /\
             fst (queryCommand queryInput s) <> QueryError ConnectionNotEstablished))
    as Hconn.
  { intros s Hs. rewrite <- (Hready s Hs).
    destruct queryInput as [input|]; [|cbn [fst snd]; repeat split; auto; discriminate].
    destruct (truthy input); [|cbn [fst snd]; repeat split; auto; discriminate].
    assert (snd (executeNaturalLanguageQuery input s) = s) as Hsame.
    { unfold executeNaturalLanguageQuery. unfold isConnected in Hs.
      destruct (connection (fst s)) as [h|] eqn:Eh; [|discriminate].
      destruct (translate (getTablePrefix (fst s)) input); [reflexivity|].
      now rewrite (query_connected _ _ Eh). }
    pose proof (@nl_query_connected s input) as Hnl.
    destruct (executeNaturalLanguageQuery input s) as [r s2]. cbn [fst snd] in *.
    subst s2.
    destruct r as [e|[|r0 rows]]; cbn [fst snd]; repeat split; auto; try discriminate;
      match goal with
      | Hcoh : coherent _ |- _ => destruct (Hnl Hcoh Hs) as (_ & H1 & H2)
      end; congruence. }
  unfold queryCommand at 1 2 3 4 5 6 7 8.
  destruct (isConnected (fst st)) eqn:Hc.
  - fold (queryCommand queryInput). destruct (Hconn st Hc) as (H1 & H2 & H3 & H4).
    rewrite <- (Hready st Hc) in *.
    repeat split; auto; try apply H4; try tauto.
  - unfold bind.
    pose proof (@find_none_state st) as Hfail.
    pose proof (quiet_find st) as [Hq1 Hq2].
    pose proof (@find_coherent st) as Hfc.
    pose proof (@quiet_tracked _ manager_findWordPressConfig st quiet_find) as Hft.
    destruct (manager_findWordPressConfig st) as [[c|] st1]; cbn [fst snd] in *.
    + assert (connection (fst st1) = None) as Hn1.
      { rewrite Hq1. unfold isConnected in Hc. now destruct (connection (fst st)). }
      pose proof (@connect_idle st1 Hn1) as Hct.
      pose proof (@connect_coherent st1) as Hcc.
      pose proof (@connect_true_connected st1) as Hok.
      destruct (connectToDatabase st1) as [[|] st2]; cbn [fst snd ret] in *.
      * assert (isConnected (fst st2) = true) as Hc2 by now apply Hok.
        destruct (Hconn st2 Hc2) as (H1 & H2 & H3 & H4).
        rewrite <- (Hready st2 Hc2) in *.
        repeat split; auto; try tauto.
      * split; [auto|]. split; [congruence|]. split; [|discriminate].
        intros _. split; discriminate.
    + pose proof (Hfail eq_refl) as E. subst st1. unfold ret. cbn [fst snd].
      split; [auto|]. split; [congruence|]. split; [|reflexivity].
      intros _. split; discriminate.
Qed.

Lemma complete_queryCommand queryInput st :
  live st -> complete (queryCommand_async queryInput) st = queryCommand queryInput st.
Proof.
  intros Hl. unfold queryCommand.
  erewrite complete_same by (unfold queryCommand_async; reflexivity).
  rewrite complete_abind. unfold bind at 1.
  assert (forall (o : option command_outcome) st1, live st1 ->
            complete
              match o with
              | Some o => finished o
              | None =>
                  input <~ await_io (ret queryInput) ;;
                  match input with
                  | None => finished Cancelled
                  | Some input =>
                      if truthy input then
                        r <~ await (executeNaturalLanguageQuery_async input) ;;
                        match r with
                        | inr [] => finished NoResults
                        | inr (r0 :: rows) => finished (Results (r0 :: rows))
                        | inl e => finished (QueryError e)
                        end
                      else finished Cancelled
                  end
              end st1 =
            match o with
            | Some o => (o, st1)
            | None =>
                match queryInput with
                | None => (Cancelled, st1)
                | Some input =>
                    if truthy input then
                      let (r, st2) := executeNaturalLanguageQuery input st1 in
                      match r with
                      | inr [] => (NoResults, st2)
                      | inr (r0 :: rows) => (Results (r0 :: rows), st2)
                      | inl e => (QueryError e, st2)
                      end
                    else (Cancelled, st1)
                end
            end) as Hrest.
  { intros [o|] st1 Hl1; [reflexivity|].
    rewrite complete_abind. unfold bind. rewrite complete_await_io. cbn [ret].
    destruct queryInput as [input|]; [|reflexivity].
    destruct (truthy input); [|reflexivity].
    rewrite complete_abind. unfold bind. rewrite complete_await, (complete_nl input Hl1).
    destruct (executeNaturalLanguageQuery input st1) as [[e|[|r0 rows]] st2]; reflexivity. }
  destruct (isConnected (fst st)) eqn:Hi.
  - rewrite complete_finished. exact (Hrest None st Hl).
  - rewrite complete_abind. unfold bind. rewrite complete_await, complete_find.
    assert (live (snd (manager_findWordPressConfig st))) as Hl1.
    { destruct (quiet_find st) as [Hc Ho]. unfold live, handle_open in *.
      rewrite Hc, Ho. exact Hl. }
    destruct (manager_findWordPressConfig st) as [[c|] st1]; cbn [fst snd] in *.
    + rewrite complete_abind. unfold bind. rewrite complete_await, complete_connect.
      pose proof (connect_live Hl1) as Hl2.
      destruct (connectToDatabase st1) as [[|] st2]; cbn [fst snd] in *;
        rewrite complete_finished.
      * exact (Hrest None st2 Hl2).
      * exact (Hrest (Some ConnectFailed) st2 Hl2).
    + rewrite complete_finished. exact (Hrest (Some ConfigNotFound) st1 Hl1).
Qed.

Lemma queryCommand_through queryInput st :
  tracked st ->
  through_call tracked (fun _ st' => tracked st') (queryCommand_async queryInput) st.
Proof.
  intros Ht. unfold queryCommand_async, through_call.
  apply through_abind.
  assert (forall (stop : option command_outcome) st1, tracked st1 ->
            through_call tracked (fun _ st' => tracked st')
              match stop with
              | Some o => finished o
              | None =>
                  input <~ await_io (ret queryInput) ;;
                  match input with
                  | None => finished Cancelled
                  | Some input =>
                      if truthy input then
                        r <~ await (executeNaturalLanguageQuery_async input) ;;
                        match r with
                        | inr [] => finished NoResults
                        | inr (r0 :: rows) => finished (Results (r0 :: rows))
                        | inl e => finished (QueryError e)
                        end
                      else finished Cancelled
                  end
              end st1) as Hrest.
  { intros [o|] st1 Ht1; [exact Ht1|].
    apply through_abind, through_await_io; [assumption|]. cbn [ret fst snd].
    destruct queryInput as [input|]; [|exact Ht1].
    destruct (truthy input); [|exact Ht1].
    apply through_abind, through_await.
    apply through_call_mono with (Q := fun _ st' => tracked st'); [|now apply nl_through].
    intros r st' Ht'. split; [assumption|].
    destruct r as [e|[|r1 rows]]; exact Ht'. }
  destruct (isConnected (fst st)) eqn:Hi.
  - now apply Hrest.
  - apply through_abind, through_await.
    apply through_call_mono with (Q := fun _ st' => same_handles st st');
      [|now apply find_through].
    intros wpConfig st1 Hs. pose proof (same_handles_tracked Hs Ht) as Ht1.
    split; [assumption|].
    destruct wpConfig as [c|]; [|now apply Hrest].
    apply through_abind, through_await.
    apply through_call_mono with (Q := fun _ st' => tracked st').
    + intros connected st2 Ht2. split; [assumption|].
      destruct connected; now apply Hrest.
    + apply connect_through; [assumption|]. destruct Hs as [-> _].
      unfold isConnected in Hi. now destruct (connection (fst st)).
Qed.

(** X16. The query command, when no other call is in progress while it
    runs. It connects only when no connection is held, so the open handles
    stay tracked at each of its awaits and at its end; whenever it gets past
    its prologue (any outcome but ConfigNotFound and ConnectFailed) the
    manager is connected at its end; from a coherent state it never reports
    that the table prefix is unknown nor that the connection is not
    established; and when no configuration is found it changes nothing. *)
Theorem queryCommand_discipline (queryInput : option str) (st : state) :
  tracked st ->
  let outcome := fst (complete (queryCommand_async queryInput) st) in
  let st' := snd (complete (queryCommand_async queryInput) st) in
  through_call tracked (fun _ st'' => tracked st'') (queryCommand_async queryInput) st /\
  tracked st' /\
  (outcome <> ConfigNotFound -> outcome <> ConnectFailed ->
   isConnected (fst st') = true) /\
  (coherent st ->
   outcome <> QueryError TablePrefixUnknown /\
   outcome <> QueryError ConnectionNotEstablished) /\
  (outcome = ConfigNotFound -> st' = st).
Proof.
  intros Ht. cbv zeta. rewrite (complete_queryCommand queryInput (tracked_live Ht)).
  destruct (queryCommand_uninterrupted queryInput st) as (H1 & H2 & H3 & H4).
  split; [now apply queryCommand_through|]. auto.
Qed.

Lemma queryCommand_discipline_witness :
  tracked (snd (complete (queryCommand_async (Some (js "find options like %mss%")))
                  (new_manager db_with_cptui))) /\
  isConnected (fst (snd (complete (queryCommand_async (Some (js "find options like %mss%")))
                           (new_manager db_with_cptui)))) = true /\
  fst (complete (queryCommand_async (Some (js "find options like %mss%")))
         (new_manager db_with_cptui)) <> QueryError TablePrefixUnknown /\
  snd (complete (queryCommand_async None) lost_manager) = lost_manager.
Proof.
  destruct (@queryCommand_discipline (Some (js "find options like %mss%"))
              (new_manager db_with_cptui) eq_refl) as (_ & H1 & H2 & H3 & _).
  destruct (@queryCommand_discipline None lost_manager eq_refl) as (_ & _ & _ & _ & H4).
  split; [exact H1|].
  split; [apply H2; vm_compute; discriminate|].
  split; [apply H3; split; [discriminate|intros c; discriminate]|].
  apply H4. reflexivity.
Defined.

Lemma query_never_prefix_unknown q st : fst (query q st) <> inl TablePrefixUnknown.
Proof.
  unfold query, bind, get_connection.
  destruct (connection (fst st)) as [h|] eqn:Hc; simpl.
  - rewrite Hc. destruct (run_sql (conn_db h) q); discriminate.
  - destruct (connectToDatabase st) as [[|] st']; simpl; [|discriminate].
    destruct (connection (fst st')) as [h|]; [|discriminate].
    destruct (run_sql (conn_db h) q); discriminate.
Qed.

(** X17. When the natural-language query is rejected, because the table
    prefix is unknown or the input is not understood, nothing has been sent
    and nothing has changed: no discovery, no connection. *)
Theorem nl_query_rejected (st : state) (input : str) (e : error) :
  fst (executeNaturalLanguageQuery input st) = inl e ->
  e = UnrecognizedQuery \/ e = TablePrefixUnknown ->
  snd (executeNaturalLanguageQuery input st) = st /\
  translate (getTablePrefix (fst st)) input = inl e.
Proof.
  unfold executeNaturalLanguageQuery.
  destruct (translate (getTablePrefix (fst st)) input) as [e0|q].
  - cbn [fst snd]. intros H _. inversion H. auto.
  - intros H [-> | ->].
    + now apply query_never_unrecognized in H.
    + now apply query_never_prefix_unknown in H.
Qed.

Lemma nl_query_rejected_witness :
  snd (executeNaturalLanguageQuery (js "show me themes") (new_manager db_with_cptui)) =
    new_manager db_with_cptui /\
  translate (getTablePrefix (fst (new_manager db_with_cptui))) (js "show me themes") =
    inl TablePrefixUnknown.
Proof.
  apply (@nl_query_rejected (new_manager db_with_cptui) (js "show me themes")
           TablePrefixUnknown).
  - reflexivity.
  - right. reflexivity.
Defined.

(** X18. For a manager that has (or finds) its configuration and reaches
    its database, the version is the value of the first version row, and
    the general handler reports it, or Unknown when there is no such row or
    its value is empty, together with the WordPress path and the
    configuration path as data. *)
Theorem version_report (st : state) (cfg : WordPressConfig) (db : database) :
  serves cfg db st ->
  fst (getWordPressVersion st) = hd_error (option_values db (js "version")) /\
  (forall cfg', 
     data (fst (handleGeneralInfoQuery cfg' st)) =
       GeneralData (hd_error (option_values db (js "version"))) (wpPath cfg')
         (configPath cfg') /\
     type (fst (handleGeneralInfoQuery cfg' st)) = general_info /\
     exists rest,
       message (fst (handleGeneralInfoQuery cfg' st)) =
         js "WordPress Information:" ++ [nl; nl] ++ js "- WordPress Version: " ++
         match hd_error (option_values db (js "version")) with
         | Some (a :: v) => a :: v
         | _ => js "Unknown"
         end ++ nl :: rest).
Proof.
  intros (Hc & Hr & Hp).
  assert (config (fst (snd (ensure_config st))) = Some cfg) as Hc1
    by now rewrite <- ensure_config_result.
  assert (fst (getWordPressVersion st) = hd_error (option_values db (js "version"))) as Hv.
  { unfold getWordPressVersion. rewrite bind_fst, Hc.
    rewrite bind_fst, (read_option _ _ Hc1 Hr Hp).
    destruct (option_values db (js "version")); reflexivity. }
  split; [assumption|]. intros cfg'.
  unfold handleGeneralInfoQuery. rewrite bind_fst, Hv. cbn [ret fst type data message].
  split; [reflexivity|]. split; [reflexivity|].
  eexists. unfold version_text.
  destruct (hd_error (option_values db (js "version"))) as [[|a v]|];
    cbn [or_else truthy]; norm_app; reflexivity.
Qed.

Lemma version_report_witness :
  fst (getWordPressVersion (new_manager db_with_version)) = Some (js "6.5").
Proof.
  apply (@version_report (new_manager db_with_version) sample_config db_with_version).
  repeat split; reflexivity.
Defined.
